(** * Median Ratio Normalization (MRN) of the P9855 notebook

    A shallow embedding of the numerical cells of [src/mrn/p9855_mrn.ipynb]
    (section 3 of the notebook, Steps I to VII) and the properties of the
    normalisation that follow from them.

    Numbers.  The notebook computes in float64 through numpy and pandas.
    The embedding keeps the IEEE special values the cells can produce
    (NaN, +inf, -inf) and the rules by which numpy and pandas produce and
    propagate them, and takes the finite values to be exact real numbers:
    rounding, overflow and the sign of zero are not modelled.

    Labels.  Samples and clones are strings, as in the data frames.  Genes
    are the column positions [0 .. ngenes-1] of the expression matrix, in
    the order of [genes_relevant].  Sample labels are unique in a frame, so
    the label-aligned operations of pandas on two objects with the same
    index are positional here. *)

From Stdlib Require Import Reals Lra List String Bool Permutation Sorted Arith Lia.
Import ListNotations.

Open Scope R_scope.

(** ** Floating values *)

Inductive float : Type :=
| Fin (r : R)
| PInf
| NInf
| NaN.

Definition Reqb (a b : R) : bool := if Req_dec_T a b then true else false.
Definition Rltb (a b : R) : bool := if Rlt_dec a b then true else false.
Definition Rleb (a b : R) : bool := if Rle_dec a b then true else false.

Definition isnan (x : float) : bool :=
  match x with NaN => true | _ => false end.

Definition notnan (x : float) : bool := negb (isnan x).

(** Python's [x != 0]: true for every nonzero number, for the infinities and
    for NaN. *)
Definition fne0 (x : float) : bool :=
  match x with Fin r => negb (Reqb r 0) | _ => true end.

Definition fopp (x : float) : float :=
  match x with Fin r => Fin (- r) | PInf => NInf | NInf => PInf | NaN => NaN end.

Definition fadd (x y : float) : float :=
  match x, y with
  | NaN, _ | _, NaN => NaN
  | Fin a, Fin b => Fin (a + b)
  | PInf, NInf | NInf, PInf => NaN
  | PInf, _ | _, PInf => PInf
  | NInf, _ | _, NInf => NInf
  end.

(** An infinity scaled by the sign of a finite factor. *)
Definition inf_times (i : float) (b : R) : float :=
  if Reqb b 0 then NaN else if Rltb 0 b then i else fopp i.

Definition fmul (x y : float) : float :=
  match x, y with
  | NaN, _ | _, NaN => NaN
  | Fin a, Fin b => Fin (a * b)
  | PInf, Fin b | Fin b, PInf => inf_times PInf b
  | NInf, Fin b | Fin b, NInf => inf_times NInf b
  | PInf, PInf | NInf, NInf => PInf
  | PInf, NInf | NInf, PInf => NInf
  end.

(** Division as numpy and pandas do it: no exception, [0/0] is NaN and
    [x/0] is an infinity with the sign of [x]. *)
Definition fdiv (x y : float) : float :=
  match x, y with
  | NaN, _ | _, NaN => NaN
  | Fin a, Fin b =>
      if Reqb b 0
      then (if Reqb a 0 then NaN else if Rltb 0 a then PInf else NInf)
      else Fin (a / b)
  | Fin _, PInf | Fin _, NInf => Fin 0
  | PInf, Fin b => if Rltb b 0 then NInf else PInf
  | NInf, Fin b => if Rltb b 0 then PInf else NInf
  | PInf, PInf | PInf, NInf | NInf, PInf | NInf, NInf => NaN
  end.

(** [np.log] and [np.exp]. *)
Definition np_log (x : float) : float :=
  match x with
  | Fin r => if Rltb 0 r then Fin (ln r) else if Reqb r 0 then NInf else NaN
  | PInf => PInf
  | NInf => NaN
  | NaN => NaN
  end.

Definition np_exp (x : float) : float :=
  match x with
  | Fin r => Fin (exp r)
  | PInf => PInf
  | NInf => Fin 0
  | NaN => NaN
  end.

(** Order of the values that are not NaN. *)
Definition fleb (x y : float) : bool :=
  match x, y with
  | NInf, _ => true
  | _, PInf => true
  | Fin a, Fin b => Rleb a b
  | _, _ => false
  end.

Definition fsum (l : list float) : float := fold_right fadd (Fin 0) l.

(** ** Sorting and the reductions of numpy and pandas *)

Section Sorting.
Context {A : Type} (leb : A -> A -> bool).

Fixpoint insert (x : A) (l : list A) : list A :=
  match l with
  | [] => [x]
  | y :: l' => if leb x y then x :: y :: l' else y :: insert x l'
  end.

Definition sort (l : list A) : list A := fold_right insert [] l.
End Sorting.

(** [Series.unique()]: the distinct values, in order of first appearance. *)
Fixpoint unique (l : list string) : list string :=
  match l with
  | [] => []
  | x :: l' => x :: filter (fun y => negb (String.eqb x y)) (unique l')
  end.

(** [sorted(list(s.unique()))], also the key order of [groupby]. *)
Definition sorted_unique (l : list string) : list string :=
  sort String.leb (unique l).

(** [np.median] of a one-dimensional array: NaN when the array is empty or
    holds a NaN; otherwise the middle element of the sorted array, or the
    mean of the two middle elements when the length is even. *)
Definition np_median (l : list float) : float :=
  match l with
  | [] => NaN
  | _ =>
      if existsb isnan l then NaN
      else
        let s := sort fleb l in
        let n := List.length s in
        if Nat.even n
        then fdiv (fadd (nth (n / 2 - 1) s NaN) (nth (n / 2) s NaN)) (Fin 2)
        else nth (n / 2) s NaN
  end.

(** The mean of pandas ([Series.mean], [DataFrame.mean]) with its default
    [skipna=True]: the NaN entries are left out of both the sum and the
    count, and the mean of nothing is NaN. *)
Definition pd_mean (l : list float) : float :=
  let v := filter notnan l in
  match v with
  | [] => NaN
  | _ => fdiv (fsum v) (Fin (INR (List.length v)))
  end.

(** ** Exceptions *)

Inductive exn : Type :=
| KeyError (label : string).

(** In Python [KeyError] is a subclass of [LookupError]. *)
Definition is_LookupError (e : exn) : Prop :=
  match e with KeyError _ => True end.

Inductive result (A : Type) : Type :=
| Ok (a : A)
| Raise (e : exn).
Arguments Ok {A} a.
Arguments Raise {A} e.

Definition bind {A B : Type} (m : result A) (k : A -> result B) : result B :=
  match m with
  | Ok a => k a
  | Raise e => Raise e
  end.

Notation "x <- m ;; k" := (bind m (fun x => k))
  (at level 61, m at next level, right associativity).

Fixpoint mapM {A B : Type} (f : A -> result B) (l : list A) : result (list B) :=
  match l with
  | [] => Ok []
  | a :: l' => b <- f a ;; bs <- mapM f l' ;; Ok (b :: bs)
  end.

(** ** Data frames *)

Definition sample := string.
Definition clone := string.
Definition gene := nat.

(** A series is a list of labelled values, a frame a list of labelled rows. *)
Definition series (A : Type) := list (string * A).
Definition frame (A : Type) := list (string * list A).

(** [s.loc[label]] where a missing label is an error. *)
Fixpoint loc {A : Type} (s : list (string * A)) (label : string) : result A :=
  match s with
  | [] => Raise (KeyError label)
  | (l, a) :: s' => if String.eqb l label then Ok a else loc s' label
  end.

(** Label lookup where pandas fills a missing label with NaN
    (re-indexing, [assign], [map]). *)
Fixpoint get {A : Type} (s : list (string * A)) (label : string) : option A :=
  match s with
  | [] => None
  | (l, a) :: s' => if String.eqb l label then Some a else get s' label
  end.

(** ** Step I: prenormalization by library size *)

Definition row_sum (row : list R) : R := fold_right Rplus 0 row.

(** [library_size = EM.sum(axis=1)] *)
Definition library_size (EM : frame R) : series R :=
  map (fun r => (fst r, row_sum (snd r))) EM.

(** [Y = EM.apply(lambda column : column / library_size)] *)
Definition prenormalize (EM : frame R) : frame float :=
  map (fun rn => (fst (fst rn),
                  map (fun x => fdiv (Fin x) (Fin (snd (snd rn)))) (snd (fst rn))))
      (combine EM (library_size EM)).

(** ** Step II: the clonal averages and the reference sample *)

(** [Y.assign(Clone=meta_df['Clone_ID'])]: the clone of each row, missing
    when the sample has no entry in the metadata.  A frame that has no row
    takes the index of the assigned series instead: the result then has one
    row for each sample of the metadata, with its clone and with NaN in
    every gene.  Such a row holds no number; the rows are read by column
    with NaN for an entry that a row does not hold ([column NaN]), so the
    row of NaN is written as the empty row. *)
Definition assign_clone (meta_df : series clone) (Y : frame float)
  : list (option clone * list float) :=
  match Y with
  | [] => map (fun m => (Some (snd m), [])) meta_df
  | _ :: _ => map (fun r => (get meta_df (fst r), snd r)) Y
  end.

Definition has_clone (g : clone) (c : option clone) : bool :=
  match c with Some g' => String.eqb g' g | None => false end.

Definition clone_labels (rows : list (option clone * list float)) : list clone :=
  flat_map (fun r => match fst r with Some g => [g] | None => [] end) rows.

Definition column {A : Type} (d : A) (j : gene) (rows : list (list A)) : list A :=
  map (fun r => nth j r d) rows.

(** [.groupby('Clone')]: the group keys are the clones of the rows of the
    frame with its [Clone] column, sorted; rows whose clone is missing
    belong to no group. *)
Definition groups (meta_df : series clone) (Y : frame float) : list clone :=
  sorted_unique (clone_labels (assign_clone meta_df Y)).

(** [np.mean] of the rows of clone [g].  On a data frame [np.mean] calls
    [DataFrame.mean], which gives the mean of each column and skips the
    NaN entries. *)
Definition profile (ngenes : nat) (meta_df : series clone) (Y : frame float)
           (g : clone) : list float :=
  let members :=
    map snd (filter (fun r => has_clone g (fst r)) (assign_clone meta_df Y)) in
  map (fun j => pd_mean (column NaN j members)) (seq 0 ngenes).

(** [Y_clonal = Y.assign(Clone=...).groupby('Clone').apply(np.mean)]: one
    row per clone that has a sample in [Y]; when [Y] has no row at all, one
    row of NaN per clone of the metadata. *)
Definition Y_clonal (ngenes : nat) (meta_df : series clone) (Y : frame float)
  : frame float :=
  map (fun g => (g, profile ngenes meta_df Y g)) (groups meta_df Y).

(** [Y_ref = Y_clonal.loc[ref]]; the notebook writes the label ['P1_A03']. *)
Definition Y_ref (Yc : frame float) (ref : clone) : result (list float) :=
  loc Yc ref.

(** ** Step III: size relative to the reference sample *)

(** [ok_genes = [gene for gene in genes_relevant
                 if (numerator[gene] != 0) and (denominator[gene] != 0)]] *)
Definition ok_genes (ngenes : nat) (numerator denominator : list float)
  : list gene :=
  filter (fun j => fne0 (nth j numerator NaN) && fne0 (nth j denominator NaN))
         (seq 0 ngenes).

(** [ratios = numerator[ok_genes] / denominator[ok_genes]] *)
Definition ratios (ngenes : nat) (numerator denominator : list float)
  : list float :=
  map (fun j => fdiv (nth j numerator NaN) (nth j denominator NaN))
      (ok_genes ngenes numerator denominator).

(** The body of the loop over the clones: [numerator = Y_clonal.loc[clone]],
    [denominator = Y_ref], [tau[clone] = np.median(ratios)]. *)
Definition tau_clone (ngenes : nat) (Yc : frame float) (yref : list float)
           (c : clone) : result (clone * float) :=
  numerator <- loc Yc c ;;
  Ok (c, np_median (ratios ngenes numerator yref)).

(** [clones = sorted(list(meta_df.Clone_ID.unique()))] *)
Definition clones (meta_df : series clone) : list clone :=
  sorted_unique (map snd meta_df).

(** [tau = pd.Series(index = clones)], filled by [for clone in clones]; an
    exception in the body ends the loop. *)
Definition tau (ngenes : nat) (meta_df : series clone) (Yc : frame float)
           (yref : list float) : result (series float) :=
  mapM (tau_clone ngenes Yc yref) (clones meta_df).

(** ** Step V: effective library size *)

(** [clonalities = pd.Series(meta_df['Clone_ID'], index=library_size.index)] *)
Definition clonalities (meta_df : series clone) (ls : series R)
  : series (option clone) :=
  map (fun r => (fst r, get meta_df (fst r))) ls.

(** [scalar_lib_size = clonalities.map(tau)] *)
Definition scalar_lib_size (cl : series (option clone)) (t : series float)
  : series float :=
  map (fun r => (fst r,
                 match snd r with
                 | Some g => match get t g with Some x => x | None => NaN end
                 | None => NaN
                 end)) cl.

(** [effective_lib_size = scalar_lib_size * library_size] *)
Definition effective_lib_size (sl : series float) (ls : series R)
  : series float :=
  map (fun p => (fst (fst p), fmul (snd (fst p)) (Fin (snd (snd p)))))
      (combine sl ls).

(** ** Step VI: relative normalization factors *)

(** [geo_mean = np.exp(effective_lib_size.apply(np.log).mean())] *)
Definition geo_mean (els : series float) : float :=
  np_exp (pd_mean (map (fun r => np_log (snd r)) els)).

(** [relative_normalization_factor = effective_lib_size / geo_mean] *)
Definition relative_normalization_factor (els : series float) (gm : float)
  : series float :=
  map (fun r => (fst r, fdiv (snd r) gm)) els.

(** ** Step VII: normalization of the counts *)

(** [mrn_counts = EM.div(relative_normalization_factor, axis=0)] *)
Definition mrn_counts (EM : frame R) (rnf : series float) : frame float :=
  map (fun p => (fst (fst p),
                 map (fun x => fdiv (Fin x) (snd (snd p))) (snd (fst p))))
      (combine EM rnf).

(** ** The cells in sequence *)

Definition tau_stage (ngenes : nat) (EM : frame R) (meta_df : series clone)
           (ref : clone) : result (series float) :=
  let Y := prenormalize EM in
  let Yc := Y_clonal ngenes meta_df Y in
  yref <- Y_ref Yc ref ;;
  tau ngenes meta_df Yc yref.

Definition els_of (EM : frame R) (meta_df : series clone) (t : series float)
  : series float :=
  let ls := library_size EM in
  effective_lib_size (scalar_lib_size (clonalities meta_df ls) t) ls.

Definition mrn (ngenes : nat) (EM : frame R) (meta_df : series clone)
           (ref : clone) : result (frame float) :=
  t <- tau_stage ngenes EM meta_df ref ;;
  let els := els_of EM meta_df t in
  let rnf := relative_normalization_factor els (geo_mean els) in
  Ok (mrn_counts EM rnf).

(** ** Section 2 of the notebook: the genes and samples that are kept

    The raw reads are a frame together with the labels of its columns, the
    genes.  Gene labels are unique, as Ensembl identifiers are. *)

(** The comparisons [x > y] and [x >= y] of Python, false when either side
    is NaN. *)
Definition fgtb (x y : float) : bool :=
  notnan x && notnan y && negb (fleb x y).

Definition fgeb (x y : float) : bool :=
  notnan x && notnan y && fleb y x.

(** [ensembl_genes = pd.Series(ensembl_gene_id.values, index=hgnc_symbol)
      .to_dict()]: a Python dictionary keeps one value for each key, the one
    set last, at the place where the key was first set. *)
Fixpoint dict_set (d : list (string * string)) (k v : string)
  : list (string * string) :=
  match d with
  | [] => [(k, v)]
  | (k', v') :: d' =>
      if String.eqb k' k then (k', v) :: d' else (k', v') :: dict_set d' k v
  end.

Definition ensembl_genes (hgnc_symbol ensembl_gene_id : list string)
  : list (string * string) :=
  fold_left (fun d kv => dict_set d (fst kv) (snd kv))
            (combine hgnc_symbol ensembl_gene_id) [].

(** [exclude_ensembl = [ensemblID for hgnc, ensemblID in ensembl_genes.items()
                        if hgnc in exclude_genes]] *)
Definition exclude_ensembl (hgnc_symbol ensembl_gene_id exclude_genes : list string)
  : list string :=
  map snd
      (filter (fun kv => existsb (String.eqb (fst kv)) exclude_genes)
              (ensembl_genes hgnc_symbol ensembl_gene_id)).

(** The number of entries above a level: [(gf > threshold).sum(axis=0)] for
    a column, [sum(row > cutoff)] for a row. *)
Definition count_above (level : R) (values : list R) : nat :=
  List.length (filter (fun x => Rltb level x) values).

(** [nonzero_proportion = nonzero_count / len(gf)], at column [j]. *)
Definition nonzero_proportion (gf : frame R) (threshold : R) (j : gene)
  : float :=
  fdiv (Fin (INR (count_above threshold (column 0 j (map snd gf)))))
       (Fin (INR (List.length gf))).

(** [get_relevant(gf, eg, prevalence, threshold)]:
    [[gene for gene in gf.columns
      if (gene not in eg) & (nonzero_proportion[gene] > prevalence)]].
    The notebook calls it with the defaults 0.05 and 10. *)
Definition get_relevant (columns : list string) (gf : frame R)
           (eg : list string) (prevalence threshold : R) : list string :=
  map fst
      (filter (fun gj =>
                 negb (existsb (String.eqb (fst gj)) eg)
                 && fgtb (nonzero_proportion gf threshold (snd gj)) (Fin prevalence))
              (combine columns (seq 0 (List.length columns)))).

(** [nR = ge.apply(lambda row: sum(row > cutoff), axis=1)] of [nRead]: the
    number of genes of each sample that are expressed above the cutoff. *)
Definition nRead (ge : frame R) (cutoff : R) : series nat :=
  map (fun r => (fst r, count_above cutoff (snd r))) ge.

(** [Series.std()]: the standard deviation with [n - 1] in the divisor, NaN
    for fewer than two values. *)
Definition pd_std (l : list R) : float :=
  if (List.length l <=? 1)%nat then NaN
  else
    let m := row_sum l / INR (List.length l) in
    Fin (sqrt (row_sum (map (fun x => (x - m) * (x - m)) l)
               / (INR (List.length l) - 1))).

(** [nR_sum = bulks_raw.apply(np.sum, axis=1)] *)
Definition nR_sum (bulks_raw : frame R) : list R :=
  map (fun r => row_sum (snd r)) bulks_raw.

(** [nR_lowcut = (nR_mean - 2*nR_std)] with [nR_mean = nR_sum.mean()] and
    [nR_std = nR_sum.std()]. *)
Definition nR_lowcut (bulks_raw : frame R) : float :=
  fadd (pd_mean (map Fin (nR_sum bulks_raw)))
       (fopp (fmul (Fin 2) (pd_std (nR_sum bulks_raw)))).

(** [bulks_good = [b for b in bulks
                   if (bulks_raw.sum(axis=1).loc[b] >= nR_lowcut)]] *)
Definition bulks_good (bulks_raw : frame R) : list sample :=
  map fst
      (filter (fun r => fgeb (Fin (row_sum (snd r))) (nR_lowcut bulks_raw))
              bulks_raw).

(** What [get_bulks] prints: each triplet of totals, and after it the
    triplet again when it is found valid. *)
Inductive printed : Type :=
| a_triplet (triplet : list R)
| valid_triplet (triplet : list R).

(** [ge.sort_index()] *)
Definition sort_index {A : Type} (ge : list (string * A)) : list (string * A) :=
  sort (fun a b => String.leb (fst a) (fst b)) ge.

(** [sample_counts.iloc[sample: sample + 3]] for [sample] in
    [range(0, len(sample_counts), 3)]. *)
Fixpoint triplets (counts : list R) : list (list R) :=
  match counts with
  | [] => []
  | a :: b :: c :: rest => [a; b; c] :: triplets rest
  | short => [short]
  end.

(** [np.all(triplet)]: no count of the triplet is zero. *)
Definition np_all (triplet : list R) : bool :=
  forallb (fun x => negb (Reqb x 0)) triplet.

(** [get_bulks(ge, md, counts_threshold)].  The test of the source is
    [np.all(triplet) > counts_threshold], which compares the truth value of
    [np.all], 1 or 0, with the threshold. *)
Definition get_bulks (ge : frame R) (counts_threshold : R) : list printed :=
  flat_map
    (fun triplet =>
       a_triplet triplet
       :: (if Rltb counts_threshold (if np_all triplet then 1 else 0)
           then [valid_triplet triplet] else []))
    (triplets (map (fun r => row_sum (snd r)) (sort_index ge))).

(** [EM = bulks_raw[genes_relevant].loc[bulks_good]]: the columns of the
    relevant genes, then the rows of the good samples.  A label that is not
    in the frame is a [KeyError]. *)
Fixpoint index_of (labels : list string) (x : string) : option nat :=
  match labels with
  | [] => None
  | l :: labels' =>
      if String.eqb l x then Some 0%nat
      else match index_of labels' x with
           | Some j => Some (S j)
           | None => None
           end
  end.

Definition select_columns (columns : list string) (gf : frame R)
           (labels : list string) : result (frame R) :=
  positions <- mapM (fun g => match index_of columns g with
                              | Some j => Ok j
                              | None => Raise (KeyError g)
                              end) labels ;;
  Ok (map (fun r => (fst r, map (fun j => nth j (snd r) 0) positions)) gf).

Definition select_rows (gf : frame R) (labels : list sample) : result (frame R) :=
  mapM (fun s => row <- loc gf s ;; Ok (s, row)) labels.

Definition expression_matrix (columns : list string) (bulks_raw : frame R)
           (exclude : list string) : result (frame R) :=
  let genes_relevant := get_relevant columns bulks_raw exclude (5 / 100) 10 in
  relevant <- select_columns columns bulks_raw genes_relevant ;;
  select_rows relevant (bulks_good bulks_raw).

(** ** The normalization over the reals

    The formulas of Maza's outline that the notebook follows, written over
    the real numbers, with no special values.  The properties below compare
    the cells with them. *)

Module Spec.

(** The counts of a sample divided by its library size. *)
Definition Y_row (row : list R) : list R :=
  map (fun x => x / row_sum row) row.

(** The rows of the count matrix whose sample is of clone [g]. *)
Definition members (meta_df : series clone) (EM : frame R) (g : clone)
  : frame R :=
  filter (fun r => has_clone g (get meta_df (fst r))) EM.

Definition mean (l : list R) : R := row_sum l / INR (List.length l).

(** The mean over the samples of clone [g] of each prenormalized gene. *)
Definition group_profile (ngenes : nat) (meta_df : series clone)
           (EM : frame R) (g : clone) : list R :=
  map (fun j =>
         mean (column 0 j (map (fun r => Y_row (snd r)) (members meta_df EM g))))
      (seq 0 ngenes).

(** A gene is kept when neither profile is zero at it. *)
Definition ok_gene (gp rp : list R) (j : gene) : bool :=
  negb (Reqb (nth j gp 0) 0) && negb (Reqb (nth j rp 0) 0).

Definition ratio_set (ngenes : nat) (gp rp : list R) : list R :=
  map (fun j => nth j gp 0 / nth j rp 0)
      (filter (ok_gene gp rp) (seq 0 ngenes)).

(** [m] is the median of the nonempty list [l]: the middle value of [l]
    in increasing order, or the average of the two middle values when the
    length of [l] is even. *)
Definition is_median (l : list R) (m : R) : Prop :=
  l <> [] /\
  exists s,
    Permutation l s /\ Sorted Rle s /\
    m = if Nat.even (List.length s)
        then (nth (List.length s / 2 - 1) s 0 + nth (List.length s / 2) s 0) / 2
        else nth (List.length s / 2) s 0.

Definition median (l : list R) : R :=
  let s := sort Rleb l in
  let n := List.length s in
  if Nat.even n then (nth (n / 2 - 1) s 0 + nth (n / 2) s 0) / 2
  else nth (n / 2) s 0.

Definition tau (ngenes : nat) (meta_df : series clone) (EM : frame R)
           (ref g : clone) : R :=
  median (ratio_set ngenes (group_profile ngenes meta_df EM g)
                    (group_profile ngenes meta_df EM ref)).

(** The clone of a sample that has one. *)
Definition clone_of (meta_df : series clone) (s : sample) : clone :=
  match get meta_df s with Some g => g | None => EmptyString end.

Definition effective_lib_size (ngenes : nat) (meta_df : series clone)
           (EM : frame R) (ref : clone) (r : string * list R) : R :=
  tau ngenes meta_df EM ref (clone_of meta_df (fst r)) * row_sum (snd r).

(** [exp(mean(log x))] *)
Definition geometric_mean (l : list R) : R := exp (mean (map ln l)).

Definition relative_normalization_factor (ngenes : nat)
           (meta_df : series clone) (EM : frame R) (ref : clone)
           (r : string * list R) : R :=
  effective_lib_size ngenes meta_df EM ref r
  / geometric_mean (map (effective_lib_size ngenes meta_df EM ref) EM).

(** The raw counts of each sample divided by its relative normalization
    factor. *)
Definition mrn_counts (ngenes : nat) (meta_df : series clone) (EM : frame R)
           (ref : clone) : frame float :=
  map (fun r =>
         (fst r,
          map (fun x =>
                 Fin (x / relative_normalization_factor ngenes meta_df EM ref r))
              (snd r)))
      EM.

End Spec.

(** ** Inputs of the stated properties *)

(** Every entry of the row of sample [s] multiplied by [k]. *)
Definition scale_sample (s : sample) (k : R) (EM : frame R) : frame R :=
  map (fun r => if String.eqb (fst r) s then (fst r, map (Rmult k) (snd r)) else r)
      EM.

(** The expression matrix has [ngenes] columns. *)
Definition well_shaped (ngenes : nat) (EM : frame R) : Prop :=
  Forall (fun r => List.length (snd r) = ngenes) EM.

(** No library is empty. *)
Definition libs_nonzero (EM : frame R) : Prop :=
  Forall (fun r => row_sum (snd r) <> 0) EM.

(** A row whose library is not empty, or whose counts are all zero. *)
Definition clean_row (row : list R) : Prop :=
  row_sum row <> 0 \/ Forall (fun x => x = 0) row.

(** The rows of clone [g] whose library is not empty. *)
Definition sequenced (meta_df : series clone) (EM : frame R) (g : clone)
  : frame R :=
  filter (fun r => negb (Reqb (row_sum (snd r)) 0)) (Spec.members meta_df EM g).

(** A series all of whose values are positive numbers. *)
Definition positive_series (els : series float) : Prop :=
  Forall (fun p => exists e, snd p = Fin e /\ 0 < e) els.

(** The number held by a finite value. *)
Definition fin_part (x : float) : R :=
  match x with Fin r => r | _ => 0 end.

(** Raw counts are not negative. *)
Definition nonneg_counts (EM : frame R) : Prop :=
  Forall (fun r => Forall (fun x => 0 <= x) (snd r)) EM.

(** A well-formed input: a matrix of [ngenes] columns of counts that are
    not negative, no empty library, every sample in a clone, every clone of
    the metadata and the reference clone with a sample, and for every clone
    a gene that is nonzero in its profile and in the reference profile. *)
Definition well_formed_input (ngenes : nat) (EM : frame R)
           (meta_df : series clone) (ref : clone) : Prop :=
  well_shaped ngenes EM /\
  nonneg_counts EM /\
  Forall (fun r => 0 < row_sum (snd r)) EM /\
  Forall (fun r => get meta_df (fst r) <> None) EM /\
  (forall g, In g (map snd meta_df) -> Spec.members meta_df EM g <> []) /\
  In ref (map snd meta_df) /\
  (forall g, In g (map snd meta_df) ->
             ok_genes ngenes (profile ngenes meta_df (prenormalize EM) g)
                      (profile ngenes meta_df (prenormalize EM) ref) <> []).

(** Every count of each sample multiplied by a factor of the sample. *)
Definition rescale (c : string * list R -> R) (EM : frame R) : frame R :=
  map (fun r => (fst r, map (Rmult (c r)) (snd r))) EM.

(** The numbers of a frame of finite values, to read it as counts again. *)
Definition counts_of (X : frame float) : frame R :=
  map (fun o => (fst o, map fin_part (snd o))) X.

Open Scope string_scope.

(** Two samples of two genes in two clones; the second library is empty. *)
Definition EM_empty_library : frame R :=
  [("s1", [1; 1]); ("s2", [0; 0])].

Definition meta_two_clones : series clone :=
  [("s1", "A"); ("s2", "B")].

(** Two samples in two clones that share no expressed gene. *)
Definition EM_disjoint : frame R :=
  [("s1", [1; 0]); ("s2", [0; 1])].

(** Two samples of one gene, the second sequenced four times deeper. *)
Definition EM_depths : frame R :=
  [("s1", [1]); ("s2", [4])].

(** The metadata of the scenario, with one more clone whose only sample is
    not in the expression matrix. *)
Definition meta_unsampled : series clone :=
  [("a1", "A"); ("a2", "A"); ("b1", "B"); ("b2", "B"); ("c1", "C")].

(** A metadata that knows the first sample only. *)
Definition meta_first_only : series clone := [("s1", "A")].

(** The samples whose library is not empty. *)
Definition drop_empty_libraries (EM : frame R) : frame R :=
  filter (fun r => negb (Reqb (row_sum (snd r)) 0)) EM.

(** Four samples of three genes, two in each of two clones. *)
Definition EM_scenario : frame R :=
  [("a1", [10; 20; 0]); ("a2", [30; 0; 10]);
   ("b1", [5; 10; 5]); ("b2", [15; 30; 5])].

Definition meta_scenario : series clone :=
  [("a1", "A"); ("a2", "A"); ("b1", "B"); ("b2", "B")].

Close Scope string_scope.

(** * Properties *)

(** ** Comparisons on the reals *)

Lemma Reqb_true (a b : R) : a = b -> Reqb a b = true.
Proof. intro H. unfold Reqb. destruct (Req_dec_T a b); [reflexivity | contradiction]. Qed.

Lemma Reqb_false (a b : R) : a <> b -> Reqb a b = false.
Proof. intro H. unfold Reqb. destruct (Req_dec_T a b); [contradiction | reflexivity]. Qed.

Lemma Rltb_true (a b : R) : a < b -> Rltb a b = true.
Proof. intro H. unfold Rltb. destruct (Rlt_dec a b); [reflexivity | contradiction]. Qed.

Lemma Rltb_false (a b : R) : ~ a < b -> Rltb a b = false.
Proof. intro H. unfold Rltb. destruct (Rlt_dec a b); [contradiction | reflexivity]. Qed.

Lemma Rleb_true (a b : R) : a <= b -> Rleb a b = true.
Proof. intro H. unfold Rleb. destruct (Rle_dec a b); [reflexivity | contradiction]. Qed.

Lemma Rleb_false (a b : R) : ~ a <= b -> Rleb a b = false.
Proof. intro H. unfold Rleb. destruct (Rle_dec a b); [contradiction | reflexivity]. Qed.

(** Decides the comparisons of a closed term by linear arithmetic. *)
Ltac decide_cmp :=
  repeat match goal with
    | |- context [Reqb ?a ?b] =>
        first [rewrite (Reqb_true a b) by lra | rewrite (Reqb_false a b) by lra]
    | |- context [Rltb ?a ?b] =>
        first [rewrite (Rltb_true a b) by lra | rewrite (Rltb_false a b) by lra]
    | |- context [Rleb ?a ?b] =>
        first [rewrite (Rleb_true a b) by lra | rewrite (Rleb_false a b) by lra]
    end.

(** Brings the real expressions under [Fin] to normal form. *)
Ltac norm_fin :=
  repeat match goal with
    | |- context [Fin ?e] => progress field_simplify e
    end.

(** Equality of evaluated frames and series, number by number. *)
Ltac fin_eq :=
  repeat match goal with
    | |- Ok _ = Ok _ => apply f_equal
    | |- Some _ = Some _ => apply f_equal
    | |- cons _ _ = cons _ _ => apply f_equal2
    | |- pair _ _ = pair _ _ => apply f_equal2
    | |- Fin _ = Fin _ => apply f_equal; field
    | |- _ => reflexivity
    end.

(** Runs the cells on a closed input. *)
Ltac run_cells := repeat (progress (cbn; decide_cmp)).

(** ** Step I *)

Lemma combine_map_self {A B : Type} (f : A -> B) (l : list A) :
  combine l (map f l) = map (fun a => (a, f a)) l.
Proof. induction l as [| a l IH]; simpl; [reflexivity | now rewrite IH]. Qed.

Lemma prenormalize_rows (EM : frame R) :
  prenormalize EM =
  map (fun r => (fst r, map (fun x => fdiv (Fin x) (Fin (row_sum (snd r)))) (snd r)))
      EM.
Proof.
  unfold prenormalize, library_size. rewrite combine_map_self, map_map.
  reflexivity.
Qed.

Lemma fdiv_fin (a b : R) : b <> 0 -> fdiv (Fin a) (Fin b) = Fin (a / b).
Proof. intro H. simpl. now rewrite Reqb_false. Qed.

Lemma fsum_fin (l : list R) : fsum (map Fin l) = Fin (row_sum l).
Proof.
  unfold fsum. induction l as [| a l IH]; simpl; [reflexivity |].
  now rewrite IH.
Qed.

Lemma row_sum_div (l : list R) (d : R) :
  row_sum (map (fun x => x / d) l) = row_sum l / d.
Proof.
  induction l as [| a l IH]; simpl.
  - unfold Rdiv. ring.
  - rewrite IH. unfold Rdiv. ring.
Qed.

Lemma scaled_nonzero (k x : R) : 0 < k -> x <> 0 -> k * x <> 0.
Proof. intros Hk Hx. apply Rmult_integral_contrapositive_currified; lra. Qed.

Lemma fdiv_scale (k x n : R) :
  0 < k -> fdiv (Fin (k * x)) (Fin (k * n)) = fdiv (Fin x) (Fin n).
Proof.
  intro Hk. simpl.
  destruct (Req_dec_T n 0) as [Hn | Hn].
  - subst n. rewrite (Reqb_true (k * 0) 0), (Reqb_true 0 0) by lra.
    destruct (Req_dec_T x 0) as [Hx | Hx].
    + subst x. now rewrite (Reqb_true (k * 0) 0), (Reqb_true 0 0) by lra.
    + rewrite (Reqb_false (k * x) 0) by now apply scaled_nonzero.
      rewrite (Reqb_false x 0) by assumption.
      destruct (Rlt_dec 0 x) as [Hp | Hp].
      * now rewrite !Rltb_true by nra.
      * now rewrite !Rltb_false by nra.
  - rewrite (Reqb_false (k * n) 0) by now apply scaled_nonzero.
    rewrite (Reqb_false n 0) by assumption.
    f_equal. field. split; lra.
Qed.

Lemma row_sum_scale (k : R) (l : list R) :
  row_sum (map (Rmult k) l) = k * row_sum l.
Proof.
  induction l as [| a l IH]; simpl; [ring | rewrite IH; ring].
Qed.

Lemma prenormalize_scale (s : sample) (k : R) (EM : frame R) :
  0 < k -> prenormalize (scale_sample s k EM) = prenormalize EM.
Proof.
  intro Hk. rewrite !prenormalize_rows. unfold scale_sample.
  rewrite map_map. apply map_ext. intros [s' row]. simpl.
  destruct (String.eqb s' s); simpl; [| reflexivity].
  f_equal. rewrite map_map, row_sum_scale. apply map_ext.
  intro x. now apply fdiv_scale.
Qed.

Lemma nth_error_prenormalize (EM : frame R) (i : nat) (s : sample) (row : list R) :
  nth_error EM i = Some (s, row) ->
  nth_error (prenormalize EM) i
  = Some (s, map (fun x => fdiv (Fin x) (Fin (row_sum row))) row).
Proof.
  intro H. rewrite prenormalize_rows, nth_error_map, H. reflexivity.
Qed.

Lemma nonneg_sum_zero (row : list R) :
  Forall (fun x => 0 <= x) row -> row_sum row = 0 -> Forall (fun x => x = 0) row.
Proof.
  induction 1 as [| x row Hx Hrow IH]; simpl; intro Hs; [constructor |].
  assert (Hge : 0 <= row_sum row).
  { clear - Hrow. induction Hrow; simpl; lra. }
  constructor; [lra | apply IH; lra].
Qed.

Lemma nonneg_sum (row : list R) :
  Forall (fun x => 0 <= x) row -> 0 <= row_sum row.
Proof. induction 1; simpl; lra. Qed.

(** ** Lookups *)

Lemma In_insert {A : Type} (leb : A -> A -> bool) (x y : A) (l : list A) :
  In y (insert leb x l) <-> y = x \/ In y l.
Proof.
  induction l as [| z l IH]; simpl.
  - intuition.
  - destruct (leb x z); simpl; [intuition | rewrite IH; intuition].
Qed.

Lemma In_sort {A : Type} (leb : A -> A -> bool) (y : A) (l : list A) :
  In y (sort leb l) <-> In y l.
Proof.
  induction l as [| x l IH]; simpl; [reflexivity |].
  rewrite In_insert, IH. intuition.
Qed.

Lemma In_unique (y : string) (l : list string) : In y (unique l) <-> In y l.
Proof.
  induction l as [| x l IH]; simpl; [reflexivity |].
  rewrite filter_In, IH. split.
  - intuition.
  - intros [H | H]; [now left |].
    destruct (String.eqb_spec x y) as [E | E]; [now left | right].
    split; [assumption | reflexivity].
Qed.

Lemma In_sorted_unique (y : string) (l : list string) :
  In y (sorted_unique l) <-> In y l.
Proof. unfold sorted_unique. now rewrite In_sort, In_unique. Qed.

Lemma get_Some_In {A : Type} (s : list (string * A)) (label : string) (a : A) :
  get s label = Some a -> In (label, a) s.
Proof.
  induction s as [| [l b] s IH]; simpl; [discriminate |].
  destruct (String.eqb_spec l label) as [E | E].
  - intro H. injection H as ->. subst. now left.
  - intro H. right. now apply IH.
Qed.

Lemma In_clone_labels (g : clone) (rows : list (option clone * list float)) :
  In g (clone_labels rows) <-> exists row, In (Some g, row) rows.
Proof.
  unfold clone_labels. rewrite in_flat_map. split.
  - intros [[c row] [Hin Hg]]. simpl in Hg. destruct c as [g' |]; [| contradiction].
    destruct Hg as [-> | []]. now exists row.
  - intros [row Hin]. exists (Some g, row). split; [assumption | now left].
Qed.

Lemma clone_labels_in_meta (meta_df : series clone) (Y : frame float) (g : clone) :
  In g (clone_labels (assign_clone meta_df Y)) -> In g (map snd meta_df).
Proof.
  rewrite In_clone_labels. intros [row Hin]. unfold assign_clone in Hin.
  destruct Y as [| y Y'].
  - apply in_map_iff in Hin. destruct Hin as [m [E Hm]].
    injection E as Eg _. subst g. now apply in_map.
  - apply in_map_iff in Hin. destruct Hin as [[s r] [E _]]. simpl in E.
    injection E as Eg _. apply get_Some_In in Eg.
    apply in_map_iff. now exists (s, g).
Qed.

Lemma loc_map_key {A : Type} (f : string -> A) (keys : list string) (k : string) :
  loc (map (fun g => (g, f g)) keys) k
  = if in_dec string_dec k keys then Ok (f k) else Raise (KeyError k).
Proof.
  induction keys as [| g keys IH]; simpl; [reflexivity |].
  destruct (String.eqb_spec g k) as [E | E].
  - subst. destruct (string_dec k k); [reflexivity | contradiction].
  - rewrite IH. destruct (string_dec g k); [contradiction |].
    destruct (in_dec string_dec k keys); reflexivity.
Qed.

Lemma get_map_key {A : Type} (f : string -> A) (keys : list string) (k : string) :
  get (map (fun g => (g, f g)) keys) k
  = if in_dec string_dec k keys then Some (f k) else None.
Proof.
  induction keys as [| g keys IH]; simpl; [reflexivity |].
  destruct (String.eqb_spec g k) as [E | E].
  - subst. destruct (string_dec k k); [reflexivity | contradiction].
  - rewrite IH. destruct (string_dec g k); [contradiction |].
    destruct (in_dec string_dec k keys); reflexivity.
Qed.

Lemma Y_clonal_profiles (ngenes : nat) (meta_df : series clone) (Y : frame float) :
  Y_clonal ngenes meta_df Y
  = map (fun g => (g, profile ngenes meta_df Y g)) (groups meta_df Y).
Proof. reflexivity. Qed.

Lemma loc_Y_clonal (ngenes : nat) (meta_df : series clone) (Y : frame float)
      (g : clone) :
  loc (Y_clonal ngenes meta_df Y) g
  = if in_dec string_dec g (groups meta_df Y)
    then Ok (profile ngenes meta_df Y g) else Raise (KeyError g).
Proof. rewrite Y_clonal_profiles. apply loc_map_key. Qed.

Lemma groups_in_meta (meta_df : series clone) (Y : frame float) (g : clone) :
  In g (groups meta_df Y) -> In g (map snd meta_df).
Proof.
  unfold groups. rewrite In_sorted_unique. apply clone_labels_in_meta.
Qed.

(** ** The loop over the clones *)

Lemma mapM_Forall2 {A B : Type} (f : A -> result B) (l : list A) (t : list B) :
  mapM f l = Ok t -> Forall2 (fun a b => f a = Ok b) l t.
Proof.
  revert t. induction l as [| a l IH]; simpl; intros t H.
  - injection H as <-. constructor.
  - destruct (f a) as [b |] eqn:Ea; simpl in H; [| discriminate].
    destruct (mapM f l) as [bs |]; simpl in H; [| discriminate].
    injection H as <-. constructor; [assumption | now apply IH].
Qed.

Lemma get_Forall2 {A : Type} (P : string -> A -> Prop) (keys : list string)
      (t : list (string * A)) :
  Forall2 (fun c p => fst p = c /\ P c (snd p)) keys t ->
  forall g, In g keys -> exists v, get t g = Some v /\ P g v.
Proof.
  induction 1 as [| c [l v] keys t [Hl Hv] _ IH]; intros g Hin; [destruct Hin |].
  simpl in Hl, Hv. subst l. simpl.
  destruct (String.eqb_spec c g) as [E | E].
  - subst. now exists v.
  - destruct Hin as [Hc | Hin]; [contradiction | now apply IH].
Qed.

Lemma tau_entries (ngenes : nat) (meta_df : series clone) (Yc : frame float)
      (yref : list float) (t : series float) :
  tau ngenes meta_df Yc yref = Ok t ->
  forall g, In g (clones meta_df) ->
  exists numerator,
    loc Yc g = Ok numerator /\
    get t g = Some (np_median (ratios ngenes numerator yref)).
Proof.
  intros Ht g Hg. unfold tau in Ht. apply mapM_Forall2 in Ht.
  assert (H : Forall2
                (fun c p => fst p = c /\
                            exists numerator,
                              loc Yc c = Ok numerator /\
                              snd p = np_median (ratios ngenes numerator yref))
                (clones meta_df) t).
  { eapply Forall2_impl; [| exact Ht]. intros c [l v] Hc. simpl.
    unfold tau_clone in Hc. destruct (loc Yc c) as [num |]; simpl in Hc;
      [| discriminate].
    injection Hc as <- <-. split; [reflexivity |]. now exists num. }
  destruct (get_Forall2
              (fun c v => exists numerator,
                   loc Yc c = Ok numerator /\
                   v = np_median (ratios ngenes numerator yref))
              _ _ H g Hg) as [v [Hv [num [Hnum Hmed]]]].
  exists num. split; [assumption | now rewrite Hv, Hmed].
Qed.

Lemma tau_stage_inv (ngenes : nat) (EM : frame R) (meta_df : series clone)
      (ref : clone) (t : series float) :
  tau_stage ngenes EM meta_df ref = Ok t ->
  In ref (groups meta_df (prenormalize EM)) /\
  tau ngenes meta_df (Y_clonal ngenes meta_df (prenormalize EM))
      (profile ngenes meta_df (prenormalize EM) ref) = Ok t.
Proof.
  unfold tau_stage, Y_ref. rewrite loc_Y_clonal.
  destruct (in_dec string_dec ref (groups meta_df (prenormalize EM)));
    simpl; [tauto | discriminate].
Qed.

(** The tau of a clone of the metadata, once the loop has completed. *)
Lemma tau_of_clone (ngenes : nat) (EM : frame R) (meta_df : series clone)
      (ref : clone) (t : series float) (g : clone) :
  tau_stage ngenes EM meta_df ref = Ok t ->
  In g (clones meta_df) ->
  In g (groups meta_df (prenormalize EM)) /\
  get t g = Some (np_median (ratios ngenes
                               (profile ngenes meta_df (prenormalize EM) g)
                               (profile ngenes meta_df (prenormalize EM) ref))).
Proof.
  intros Ht Hg. apply tau_stage_inv in Ht. destruct Ht as [_ Ht].
  destruct (tau_entries _ _ _ _ _ Ht g Hg) as [num [Hnum Hget]].
  rewrite loc_Y_clonal in Hnum.
  destruct (in_dec string_dec g (groups meta_df (prenormalize EM)));
    [| discriminate].
  injection Hnum as <-. now split.
Qed.

(** ** Step I: the library-size scaler *)

(** C3.  Each row of [Y] is the row of the count matrix divided by the sum
    of that row, under the same sample label and at the same position; when
    the sum is not zero every entry is the real quotient and the row of [Y]
    sums to 1. *)
Theorem prenormalize_divides_by_library_size :
  forall (EM : frame R) (i : nat) (s : sample) (row : list R),
    nth_error EM i = Some (s, row) ->
    nth_error (prenormalize EM) i
    = Some (s, map (fun x => fdiv (Fin x) (Fin (row_sum row))) row) /\
    (row_sum row <> 0 ->
     nth_error (prenormalize EM) i
     = Some (s, map (fun x => Fin (x / row_sum row)) row) /\
     fsum (map (fun x => Fin (x / row_sum row)) row) = Fin 1).
Proof.
  intros EM i s row H. split; [now apply nth_error_prenormalize |].
  intro Hn. split.
  - rewrite (nth_error_prenormalize _ _ _ _ H). do 2 f_equal.
    apply map_ext. intro x. now apply fdiv_fin.
  - rewrite <- (map_map (fun x => x / row_sum row) Fin), fsum_fin, row_sum_div.
    f_equal. now field.
Qed.

(** C7, as the notebook behaves.  A sample whose library size is zero raises
    nothing in Step I: with counts that are not negative its row of [Y] is
    NaN in every gene (each entry is 0/0). *)
Theorem empty_library_yields_nan_row :
  forall (EM : frame R) (i : nat) (s : sample) (row : list R),
    nth_error EM i = Some (s, row) ->
    Forall (fun x => 0 <= x) row ->
    row_sum row = 0 ->
    nth_error (prenormalize EM) i = Some (s, map (fun _ => NaN) row).
Proof.
  intros EM i s row H Hpos Hz.
  rewrite (nth_error_prenormalize _ _ _ _ H), Hz. do 2 f_equal.
  apply map_ext_in. intros x Hx.
  pose proof (nonneg_sum_zero row Hpos Hz) as Hall.
  rewrite Forall_forall in Hall. rewrite (Hall x Hx).
  simpl. now rewrite Reqb_true.
Qed.

(** ** Step II: the reference sample *)

(** C9.  When the reference clone does not occur among the clones of the
    metadata, [Y_clonal.loc[ref]] raises [KeyError], a [LookupError]; the
    exception ends the run, so neither the taus nor the normalized counts
    are produced. *)
Theorem missing_reference_raises_KeyError :
  forall (ngenes : nat) (EM : frame R) (meta_df : series clone) (ref : clone),
    ~ In ref (map snd meta_df) ->
    Y_ref (Y_clonal ngenes meta_df (prenormalize EM)) ref = Raise (KeyError ref) /\
    tau_stage ngenes EM meta_df ref = Raise (KeyError ref) /\
    mrn ngenes EM meta_df ref = Raise (KeyError ref) /\
    is_LookupError (KeyError ref).
Proof.
  intros ngenes EM meta_df ref Hno.
  assert (H : Y_ref (Y_clonal ngenes meta_df (prenormalize EM)) ref
              = Raise (KeyError ref)).
  { unfold Y_ref. rewrite loc_Y_clonal.
    destruct (in_dec string_dec ref (groups meta_df (prenormalize EM))) as [Hin | _];
      [| reflexivity].
    exfalso. apply Hno. eapply groups_in_meta. exact Hin. }
  split; [exact H |].
  assert (Ht : tau_stage ngenes EM meta_df ref = Raise (KeyError ref)).
  { unfold tau_stage. cbv zeta. now rewrite H. }
  split; [exact Ht |]. split; [| exact I].
  unfold mrn. now rewrite Ht.
Qed.

(** ** Scaling the counts of one sample *)

(** C10.  Multiplying the raw counts of one sample by a positive constant
    changes nothing in [Y], hence nothing in the clonal averages, in the
    reference sample or in the taus, whichever clone the sample is in. *)
Theorem scaling_a_sample_preserves_tau :
  forall (ngenes : nat) (EM : frame R) (meta_df : series clone) (ref : clone)
         (s : sample) (k : R),
    0 < k ->
    prenormalize (scale_sample s k EM) = prenormalize EM /\
    loc (prenormalize (scale_sample s k EM)) s = loc (prenormalize EM) s /\
    Y_clonal ngenes meta_df (prenormalize (scale_sample s k EM))
    = Y_clonal ngenes meta_df (prenormalize EM) /\
    Y_ref (Y_clonal ngenes meta_df (prenormalize (scale_sample s k EM))) ref
    = Y_ref (Y_clonal ngenes meta_df (prenormalize EM)) ref /\
    tau_stage ngenes (scale_sample s k EM) meta_df ref
    = tau_stage ngenes EM meta_df ref.
Proof.
  intros ngenes EM meta_df ref s k Hk. unfold tau_stage.
  rewrite (prenormalize_scale s k EM Hk). repeat split.
Qed.

(** ** Runs of the cells on the sample inputs *)

Lemma tau_stage_disjoint :
  tau_stage 2 EM_disjoint meta_two_clones "A"%string
  = Ok [("A"%string, Fin 1); ("B"%string, NaN)].
Proof.
  unfold tau_stage. rewrite prenormalize_rows. run_cells.
  fin_eq.
Qed.

Lemma els_disjoint :
  els_of EM_disjoint meta_two_clones [("A"%string, Fin 1); ("B"%string, NaN)]
  = [("s1"%string, Fin 1); ("s2"%string, NaN)].
Proof. unfold els_of. run_cells. fin_eq. Qed.

Lemma geo_mean_one_sample (s1 s2 : sample) (e : R) :
  0 < e -> geo_mean [(s1, Fin e); (s2, NaN)] = Fin e.
Proof.
  intro He. unfold geo_mean. cbn. rewrite (Rltb_true 0 e He). cbn.
  rewrite (Reqb_false 1 0) by lra. cbn. f_equal.
  replace ((ln e + 0) / 1) with (ln e) by field. now apply exp_ln.
Qed.

Lemma mrn_disjoint :
  mrn 2 EM_disjoint meta_two_clones "A"%string
  = Ok [("s1"%string, [Fin 1; Fin 0]); ("s2"%string, [NaN; NaN])].
Proof.
  unfold mrn. rewrite tau_stage_disjoint. cbn [bind]. cbv zeta.
  rewrite els_disjoint, geo_mean_one_sample by lra.
  run_cells. norm_fin. reflexivity.
Qed.

Lemma tau_stage_empty_library :
  tau_stage 2 EM_empty_library meta_two_clones "A"%string
  = Ok [("A"%string, Fin 1); ("B"%string, NaN)].
Proof.
  unfold tau_stage. rewrite prenormalize_rows. run_cells.
  fin_eq.
Qed.

Lemma els_empty_library :
  els_of EM_empty_library meta_two_clones
         [("A"%string, Fin 1); ("B"%string, NaN)]
  = [("s1"%string, Fin 2); ("s2"%string, NaN)].
Proof. unfold els_of. run_cells. fin_eq. Qed.

Lemma mrn_empty_library :
  mrn 2 EM_empty_library meta_two_clones "A"%string
  = Ok [("s1"%string, [Fin 1; Fin 1]); ("s2"%string, [NaN; NaN])].
Proof.
  unfold mrn. rewrite tau_stage_empty_library. cbn [bind]. cbv zeta.
  rewrite els_empty_library, geo_mean_one_sample by lra.
  run_cells. norm_fin. reflexivity.
Qed.

(** ** Sorting and the median *)

Lemma Permutation_insert {A : Type} (leb : A -> A -> bool) (x : A) (l : list A) :
  Permutation (x :: l) (insert leb x l).
Proof.
  induction l as [| y l IH]; simpl; [reflexivity |].
  destruct (leb x y); [reflexivity |].
  rewrite perm_swap. now constructor.
Qed.

Lemma Permutation_sort {A : Type} (leb : A -> A -> bool) (l : list A) :
  Permutation l (sort leb l).
Proof.
  induction l as [| x l IH]; simpl; [constructor |].
  rewrite <- Permutation_insert. now constructor.
Qed.

Lemma length_sort {A : Type} (leb : A -> A -> bool) (l : list A) :
  List.length (sort leb l) = List.length l.
Proof. symmetry. apply Permutation_length, Permutation_sort. Qed.

Lemma Sorted_insert (x : R) (l : list R) :
  Sorted Rle l -> Sorted Rle (insert Rleb x l).
Proof.
  induction 1 as [| y l Hs IH Hhd]; simpl.
  - repeat constructor.
  - unfold Rleb. destruct (Rle_dec x y) as [Hle | Hgt].
    + constructor; [now constructor | now constructor].
    + constructor; [assumption |].
      destruct l as [| z l]; simpl.
      * constructor. lra.
      * simpl in IH. unfold Rleb in *. destruct (Rle_dec x z).
        -- constructor. lra.
        -- constructor. now inversion Hhd.
Qed.

Lemma Sorted_sort (l : list R) : Sorted Rle (sort Rleb l).
Proof.
  induction l as [| x l IH]; simpl; [constructor | now apply Sorted_insert].
Qed.

Lemma insert_map_Fin (x : R) (l : list R) :
  insert fleb (Fin x) (map Fin l) = map Fin (insert Rleb x l).
Proof.
  induction l as [| y l IH]; simpl; [reflexivity |].
  destruct (Rleb x y); simpl; [reflexivity | now rewrite IH].
Qed.

Lemma sort_map_Fin (l : list R) :
  sort fleb (map Fin l) = map Fin (sort Rleb l).
Proof.
  induction l as [| x l IH]; simpl; [reflexivity |].
  now rewrite IH, insert_map_Fin.
Qed.

Lemma no_nan_in_Fin (l : list R) : existsb isnan (map Fin l) = false.
Proof. induction l; simpl; auto. Qed.

Lemma nth_map_Fin (l : list R) (k : nat) :
  (k < List.length l)%nat -> nth k (map Fin l) NaN = Fin (nth k l 0).
Proof.
  intro H. rewrite (nth_indep _ NaN (Fin 0)) by now rewrite length_map.
  apply (map_nth Fin).
Qed.

Lemma middle_indices (n : nat) :
  n <> 0%nat ->
  (n / 2 < n)%nat /\ (Nat.even n = true -> (n / 2 - 1 < n)%nat /\ (2 <= n)%nat).
Proof.
  intro Hn. split.
  - apply Nat.div_lt; lia.
  - intro He. apply Nat.even_spec in He. destruct He as [m ->].
    rewrite (Nat.mul_comm 2 m), Nat.div_mul by lia. lia.
Qed.

Lemma np_median_nonempty (l : list float) :
  l <> [] ->
  np_median l
  = if existsb isnan l then NaN
    else if Nat.even (List.length (sort fleb l))
         then fdiv (fadd (nth (List.length (sort fleb l) / 2 - 1) (sort fleb l) NaN)
                         (nth (List.length (sort fleb l) / 2) (sort fleb l) NaN))
                   (Fin 2)
         else nth (List.length (sort fleb l) / 2) (sort fleb l) NaN.
Proof. destruct l; [contradiction | reflexivity]. Qed.

Lemma np_median_Fin (l : list R) :
  l <> [] -> np_median (map Fin l) = Fin (Spec.median l).
Proof.
  intro Hl.
  rewrite np_median_nonempty by (intro E; apply map_eq_nil in E; contradiction).
  rewrite no_nan_in_Fin, sort_map_Fin, length_map. unfold Spec.median. cbv zeta.
  assert (Hlen : List.length (sort Rleb l) <> 0%nat).
  { rewrite length_sort. intro E. apply length_zero_iff_nil in E. contradiction. }
  destruct (middle_indices _ Hlen) as [Hmid Heven].
  destruct (Nat.even (List.length (sort Rleb l))) eqn:Ee.
  - destruct (Heven eq_refl) as [Hlow _].
    rewrite !nth_map_Fin by assumption. simpl.
    now rewrite Reqb_false by lra.
  - now rewrite nth_map_Fin.
Qed.

Lemma median_is_median (l : list R) :
  l <> [] -> Spec.is_median l (Spec.median l).
Proof.
  intro Hl. split; [assumption |].
  exists (sort Rleb l). split; [apply Permutation_sort |].
  split; [apply Sorted_sort | reflexivity].
Qed.

(** What holds of every value of a list and of the average of two values
    that have it holds of the median of the list. *)
Lemma is_median_closed (P : R -> Prop) (l : list R) (m : R) :
  (forall a b, P a -> P b -> P ((a + b) / 2)) ->
  Forall P l -> Spec.is_median l m -> P m.
Proof.
  intros Havg Hall [Hl [s [Hperm [_ ->]]]].
  assert (Hs : Forall P s) by (eapply Permutation_Forall; eassumption).
  assert (Hlen : List.length s <> 0%nat).
  { rewrite <- (Permutation_length Hperm). destruct l; [contradiction | discriminate]. }
  rewrite Forall_forall in Hs.
  destruct (middle_indices _ Hlen) as [Hmid Heven].
  destruct (Nat.even (List.length s)) eqn:Ee.
  - destruct (Heven eq_refl) as [Hlow _].
    apply Havg; apply Hs; now apply nth_In.
  - apply Hs. now apply nth_In.
Qed.

Lemma sorted_head_least (a : R) (s : list R) :
  Sorted Rle (a :: s) -> forall x, In x (a :: s) -> a <= x.
Proof.
  intros Hs x Hx. apply Sorted_StronglySorted in Hs.
  - apply StronglySorted_inv in Hs. destruct Hs as [_ Hall].
    destruct Hx as [<- | Hx]; [lra |]. rewrite Forall_forall in Hall.
    now apply Hall.
  - intros u v w. apply Rle_trans.
Qed.

Lemma sorted_permutation_unique (s1 s2 : list R) :
  Sorted Rle s1 -> Sorted Rle s2 -> Permutation s1 s2 -> s1 = s2.
Proof.
  revert s2. induction s1 as [| a s1 IH]; intros s2 H1 H2 Hp.
  - apply Permutation_nil in Hp. now subst.
  - destruct s2 as [| b s2].
    + apply Permutation_sym, Permutation_nil in Hp. discriminate.
    + assert (Hab : a = b).
      { apply Rle_antisym.
        - apply (sorted_head_least a s1 H1).
          apply (Permutation_in b (Permutation_sym Hp)). now left.
        - apply (sorted_head_least b s2 H2).
          apply (Permutation_in a Hp). now left. }
      subst b. f_equal. apply IH.
      * now inversion H1.
      * now inversion H2.
      * eapply Permutation_cons_inv. exact Hp.
Qed.

(** A list has one median. *)
Lemma is_median_unique (l : list R) (m1 m2 : R) :
  Spec.is_median l m1 -> Spec.is_median l m2 -> m1 = m2.
Proof.
  intros [_ [s1 [P1 [S1 ->]]]] [_ [s2 [P2 [S2 ->]]]].
  assert (E : s1 = s2).
  { apply sorted_permutation_unique; try assumption.
    now rewrite <- P1, <- P2. }
  now subst.
Qed.

(** ** The clonal averages *)

Lemma filter_map_comm {A B : Type} (f : A -> B) (p : B -> bool) (l : list A) :
  filter p (map f l) = map f (filter (fun a => p (f a)) l).
Proof.
  induction l as [| a l IH]; simpl; [reflexivity |].
  destruct (p (f a)); simpl; now rewrite IH.
Qed.

Lemma assign_clone_nonempty (meta_df : series clone) (Y : frame float) :
  Y <> [] -> assign_clone meta_df Y = map (fun r => (get meta_df (fst r), snd r)) Y.
Proof. destruct Y; [contradiction | reflexivity]. Qed.

Lemma prenormalize_nonempty (EM : frame R) : EM <> [] -> prenormalize EM <> [].
Proof.
  intros H C. rewrite prenormalize_rows in C. apply map_eq_nil in C.
  contradiction.
Qed.

Lemma members_nonempty (meta_df : series clone) (EM : frame R) (g : clone) :
  Spec.members meta_df EM g <> [] -> EM <> [].
Proof. intros H C. apply H. now rewrite C. Qed.

Lemma members_prenormalize (meta_df : series clone) (EM : frame R) (g : clone) :
  EM <> [] ->
  map snd (filter (fun r => has_clone g (fst r))
                  (assign_clone meta_df (prenormalize EM)))
  = map (fun r => map (fun x => fdiv (Fin x) (Fin (row_sum (snd r)))) (snd r))
        (Spec.members meta_df EM g).
Proof.
  intro Hne. rewrite (assign_clone_nonempty _ _ (prenormalize_nonempty _ Hne)).
  rewrite prenormalize_rows, map_map.
  rewrite filter_map_comm, map_map. reflexivity.
Qed.

(** The clones of a frame that has no row are those of the metadata. *)
Lemma groups_of_no_row (meta_df : series clone) :
  groups meta_df [] = clones meta_df.
Proof.
  unfold groups, clones. f_equal. unfold clone_labels, assign_clone.
  induction meta_df as [| m l IH]; simpl; [reflexivity | now rewrite IH].
Qed.

Lemma In_groups_members (meta_df : series clone) (EM : frame R) (g : clone) :
  EM <> [] ->
  (In g (groups meta_df (prenormalize EM)) <-> Spec.members meta_df EM g <> []).
Proof.
  intro HEM.
  unfold groups. rewrite In_sorted_unique, In_clone_labels.
  rewrite (assign_clone_nonempty _ _ (prenormalize_nonempty _ HEM)).
  rewrite prenormalize_rows, map_map. simpl.
  unfold Spec.members. split.
  - intros [row Hin]. apply in_map_iff in Hin. destruct Hin as [r [E Hr]].
    injection E as Eg _.
    assert (Hf : In r (filter (fun r => has_clone g (get meta_df (fst r))) EM)).
    { apply filter_In. split; [assumption |]. rewrite Eg. simpl.
      apply String.eqb_refl. }
    intro Hnil. rewrite Hnil in Hf. destruct Hf.
  - intro Hne.
    destruct (filter (fun r => has_clone g (get meta_df (fst r))) EM)
      as [| r l] eqn:Ef; [contradiction |].
    assert (Hr : In r (r :: l)) by now left.
    rewrite <- Ef in Hr. apply filter_In in Hr. destruct Hr as [Hin Hc].
    destruct (get meta_df (fst r)) as [g' |] eqn:Eg; simpl in Hc; [| discriminate].
    apply String.eqb_eq in Hc. subst g'.
    eexists. apply in_map_iff. exists r. split; [| assumption].
    rewrite Eg. reflexivity.
Qed.

Lemma clean_row_float (row : list R) :
  clean_row row ->
  map (fun x => fdiv (Fin x) (Fin (row_sum row))) row
  = if Reqb (row_sum row) 0 then map (fun _ => NaN) row
    else map Fin (Spec.Y_row row).
Proof.
  intro Hc. destruct (Req_dec_T (row_sum row) 0) as [Hz | Hnz].
  - rewrite (Reqb_true _ _ Hz). destruct Hc as [Hc | Hc]; [contradiction |].
    apply map_ext_in. intros x Hx. rewrite Forall_forall in Hc.
    rewrite (Hc x Hx), Hz. simpl. now rewrite Reqb_true.
  - rewrite (Reqb_false _ _ Hnz). unfold Spec.Y_row. rewrite map_map.
    apply map_ext. intro x. now apply fdiv_fin.
Qed.

Lemma filter_notnan_column {A : Type} (b : A -> bool) (f : A -> R) (l : list A) :
  filter notnan (map (fun r => if b r then NaN else Fin (f r)) l)
  = map Fin (map f (filter (fun r => negb (b r)) l)).
Proof.
  induction l as [| r l IH]; simpl; [reflexivity |].
  destruct (b r); simpl; now rewrite IH.
Qed.

Lemma pd_mean_Fin (l : list float) (v : list R) :
  filter notnan l = map Fin v ->
  pd_mean l = match v with [] => NaN | _ => Fin (Spec.mean v) end.
Proof.
  intro H. unfold pd_mean. rewrite H.
  destruct v as [| x v]; [reflexivity |].
  cbn [map]. cbv beta iota zeta.
  change (Fin x :: map Fin v) with (map Fin (x :: v)).
  rewrite fsum_fin, length_map, fdiv_fin; [reflexivity |].
  apply not_0_INR. discriminate.
Qed.

Lemma nth_Y_row_float (ngenes : nat) (row : list R) (j : gene) :
  List.length row = ngenes -> (j < ngenes)%nat -> clean_row row ->
  nth j (map (fun x => fdiv (Fin x) (Fin (row_sum row))) row) NaN
  = if Reqb (row_sum row) 0 then NaN else Fin (nth j (Spec.Y_row row) 0).
Proof.
  intros Hlen Hj Hc. rewrite (clean_row_float row Hc).
  destruct (Reqb (row_sum row) 0).
  - destruct (nth_in_or_default j (map (fun _ : R => NaN) row) NaN) as [H | H];
      [| exact H].
    apply in_map_iff in H. now destruct H as [x [H _]].
  - apply nth_map_Fin. unfold Spec.Y_row. rewrite length_map. lia.
Qed.

Lemma groups_of_members (meta_df : series clone) (EM : frame R) (g : clone) :
  Spec.members meta_df EM g <> [] -> In g (groups meta_df (prenormalize EM)).
Proof.
  intro H. apply In_groups_members; [| exact H].
  now apply (members_nonempty meta_df EM g).
Qed.

Lemma pd_mean_all_nan (l : list float) :
  Forall (fun x => x = NaN) l -> pd_mean l = NaN.
Proof.
  intro H. unfold pd_mean.
  assert (E : filter notnan l = []).
  { induction H as [| x l Hx _ IH]; simpl; [reflexivity |]. now subst x. }
  now rewrite E.
Qed.

(** The profiles of a frame that has no row are NaN in every gene. *)
Lemma profile_of_no_row (ngenes : nat) (meta_df : series clone) (g : clone) :
  profile ngenes meta_df [] g = map (fun _ => NaN) (seq 0 ngenes).
Proof.
  unfold profile, assign_clone. cbv zeta. apply map_ext. intro j.
  apply pd_mean_all_nan. unfold column. rewrite map_map.
  apply Forall_map, Forall_forall. intros [c r] Hr.
  apply filter_In in Hr. destruct Hr as [Hr _].
  apply in_map_iff in Hr. destruct Hr as [m [E _]].
  injection E as _ <-. simpl. now destruct j.
Qed.

(** The profile of a clone when every row is clean: NaN in every gene when
    none of its libraries holds a read, and otherwise the means over the
    samples whose library is not empty. *)
Lemma profile_clean (ngenes : nat) (meta_df : series clone) (EM : frame R)
      (g : clone) :
  well_shaped ngenes EM ->
  Forall (fun r => clean_row (snd r)) EM ->
  profile ngenes meta_df (prenormalize EM) g
  = match sequenced meta_df EM g with
    | [] => map (fun _ => NaN) (seq 0 ngenes)
    | _ => map Fin
             (map (fun j =>
                     Spec.mean
                       (column 0 j (map (fun r => Spec.Y_row (snd r))
                                        (sequenced meta_df EM g))))
                  (seq 0 ngenes))
    end.
Proof.
  intros Hshape Hclean.
  assert (Hcase : EM = [] \/ EM <> [])
    by (destruct EM; [now left | right; discriminate]).
  destruct Hcase as [-> | HEM]; [apply profile_of_no_row |].
  unfold profile. cbv zeta.
  rewrite (members_prenormalize _ _ _ HEM).
  assert (Hcol : forall j, In j (seq 0 ngenes) ->
            pd_mean (column NaN j
              (map (fun r => map (fun x => fdiv (Fin x) (Fin (row_sum (snd r))))
                                 (snd r)) (Spec.members meta_df EM g)))
            = match sequenced meta_df EM g with
              | [] => NaN
              | _ => Fin (Spec.mean
                            (column 0 j (map (fun r => Spec.Y_row (snd r))
                                             (sequenced meta_df EM g))))
              end).
  { intros j Hj. apply in_seq in Hj.
    unfold column. rewrite !map_map.
    erewrite pd_mean_Fin.
    2:{ erewrite map_ext_in.
        - apply (filter_notnan_column
                   (fun r => Reqb (row_sum (snd r)) 0)
                   (fun r => nth j (Spec.Y_row (snd r)) 0)).
        - intros r Hr. unfold Spec.members in Hr. apply filter_In in Hr.
          destruct Hr as [Hr _].
          unfold well_shaped in Hshape. rewrite Forall_forall in Hshape, Hclean.
          apply (nth_Y_row_float ngenes); [now apply Hshape | lia | now apply Hclean]. }
    fold (sequenced meta_df EM g).
    destruct (sequenced meta_df EM g); reflexivity. }
  destruct (sequenced meta_df EM g) as [| r l] eqn:Es.
  - apply map_ext_in. exact Hcol.
  - rewrite map_map. apply map_ext_in. exact Hcol.
Qed.

Lemma libs_nonzero_clean (EM : frame R) :
  libs_nonzero EM -> Forall (fun r => clean_row (snd r)) EM.
Proof. apply Forall_impl. intros r H. now left. Qed.

Lemma nonneg_clean (EM : frame R) :
  nonneg_counts EM -> Forall (fun r => clean_row (snd r)) EM.
Proof.
  apply Forall_impl. intros r H.
  destruct (Req_dec_T (row_sum (snd r)) 0) as [Hz | Hnz]; [right | now left].
  now apply nonneg_sum_zero.
Qed.

Lemma sequenced_all (meta_df : series clone) (EM : frame R) (g : clone) :
  libs_nonzero EM -> sequenced meta_df EM g = Spec.members meta_df EM g.
Proof.
  intro H. unfold sequenced. apply forallb_filter_id. apply forallb_forall.
  intros r Hr. unfold Spec.members in Hr. apply filter_In in Hr.
  unfold libs_nonzero in H. rewrite Forall_forall in H.
  rewrite Reqb_false; [reflexivity | apply H; tauto].
Qed.

(** With no empty library every profile is finite and is the profile over
    the reals. *)
Lemma profile_finite (ngenes : nat) (meta_df : series clone) (EM : frame R)
      (g : clone) :
  well_shaped ngenes EM -> libs_nonzero EM ->
  Spec.members meta_df EM g <> [] ->
  profile ngenes meta_df (prenormalize EM) g
  = map Fin (Spec.group_profile ngenes meta_df EM g).
Proof.
  intros Hshape Hlibs Hg.
  rewrite (profile_clean _ _ _ _ Hshape (libs_nonzero_clean _ Hlibs)).
  rewrite (sequenced_all _ _ _ Hlibs).
  unfold Spec.group_profile.
  destruct (Spec.members meta_df EM g) eqn:E; [contradiction | reflexivity].
Qed.

Lemma length_group_profile (ngenes : nat) (meta_df : series clone)
      (EM : frame R) (g : clone) :
  List.length (Spec.group_profile ngenes meta_df EM g) = ngenes.
Proof. unfold Spec.group_profile. now rewrite length_map, length_seq. Qed.

(** ** The ratios of finite profiles *)

Lemma fne0_Fin (r : R) : fne0 (Fin r) = negb (Reqb r 0).
Proof. reflexivity. Qed.

Lemma ok_genes_Fin (ngenes : nat) (gp rp : list R) :
  List.length gp = ngenes -> List.length rp = ngenes ->
  ok_genes ngenes (map Fin gp) (map Fin rp)
  = filter (Spec.ok_gene gp rp) (seq 0 ngenes).
Proof.
  intros Hg Hr. unfold ok_genes. apply filter_ext_in. intros j Hj.
  apply in_seq in Hj. unfold Spec.ok_gene.
  now rewrite !nth_map_Fin by lia.
Qed.

Lemma ratios_Fin (ngenes : nat) (gp rp : list R) :
  List.length gp = ngenes -> List.length rp = ngenes ->
  ratios ngenes (map Fin gp) (map Fin rp)
  = map Fin (Spec.ratio_set ngenes gp rp).
Proof.
  intros Hg Hr. unfold ratios, Spec.ratio_set.
  rewrite (ok_genes_Fin _ _ _ Hg Hr), map_map. apply map_ext_in.
  intros j Hj. apply filter_In in Hj. destruct Hj as [Hj Hok].
  apply in_seq in Hj. rewrite !nth_map_Fin by lia.
  unfold Spec.ok_gene in Hok. apply andb_true_iff in Hok. destruct Hok as [_ Hok].
  apply fdiv_fin. intro Hz. now rewrite (Reqb_true _ _ Hz) in Hok.
Qed.

Lemma ok_gene_spec (gp rp : list R) (j : gene) :
  Spec.ok_gene gp rp j = true <-> nth j gp 0 <> 0 /\ nth j rp 0 <> 0.
Proof.
  unfold Spec.ok_gene. rewrite andb_true_iff, !negb_true_iff. unfold Reqb.
  destruct (Req_dec_T (nth j gp 0) 0), (Req_dec_T (nth j rp 0) 0);
    intuition congruence.
Qed.

(** ** Step III: the ratio estimator *)

(** C1.  On a matrix with at least one sample and no empty library, the
    tau of each clone is the median of the ratios of its profile to the
    reference profile over exactly the genes at which both profiles are not
    zero, each such gene once; the median is the middle ratio in increasing
    order, and the average of the two middle ones when their number is
    even. *)
Theorem tau_is_median_of_ratios :
  forall (ngenes : nat) (EM : frame R) (meta_df : series clone) (ref : clone)
         (t : series float) (g : clone),
    well_shaped ngenes EM ->
    EM <> [] ->
    libs_nonzero EM ->
    tau_stage ngenes EM meta_df ref = Ok t ->
    In g (clones meta_df) ->
    let Yc := Y_clonal ngenes meta_df (prenormalize EM) in
    let gp := Spec.group_profile ngenes meta_df EM g in
    let rp := Spec.group_profile ngenes meta_df EM ref in
    loc Yc g = Ok (map Fin gp) /\
    Y_ref Yc ref = Ok (map Fin rp) /\
    (forall j, In j (ok_genes ngenes (map Fin gp) (map Fin rp)) <->
               (j < ngenes)%nat /\ nth j gp 0 <> 0 /\ nth j rp 0 <> 0) /\
    NoDup (ok_genes ngenes (map Fin gp) (map Fin rp)) /\
    ratios ngenes (map Fin gp) (map Fin rp)
    = map (fun j => Fin (nth j gp 0 / nth j rp 0))
          (ok_genes ngenes (map Fin gp) (map Fin rp)) /\
    get t g = Some (np_median (ratios ngenes (map Fin gp) (map Fin rp))) /\
    (ok_genes ngenes (map Fin gp) (map Fin rp) <> [] ->
     exists m, get t g = Some (Fin m) /\
               Spec.is_median (Spec.ratio_set ngenes gp rp) m /\
               forall m', Spec.is_median (Spec.ratio_set ngenes gp rp) m' ->
                          m' = m).
Proof.
  intros ngenes EM meta_df ref t g Hshape HEM Hlibs Ht Hg Yc gp rp.
  destruct (tau_of_clone _ _ _ _ _ _ Ht Hg) as [Hgin Hget].
  destruct (tau_stage_inv _ _ _ _ _ Ht) as [Hrin _].
  pose proof (proj1 (In_groups_members meta_df EM g HEM) Hgin) as Hgm.
  pose proof (proj1 (In_groups_members meta_df EM ref HEM) Hrin) as Hrm.
  rewrite (profile_finite _ _ _ _ Hshape Hlibs Hgm) in Hget.
  rewrite (profile_finite _ _ _ _ Hshape Hlibs Hrm) in Hget.
  fold gp rp in Hget.
  assert (Lg : List.length gp = ngenes) by apply length_group_profile.
  assert (Lr : List.length rp = ngenes) by apply length_group_profile.
  assert (Hok := ok_genes_Fin ngenes gp rp Lg Lr).
  repeat split.
  - unfold Yc. rewrite loc_Y_clonal.
    destruct (in_dec string_dec g (groups meta_df (prenormalize EM)));
      [| contradiction].
    now rewrite (profile_finite _ _ _ _ Hshape Hlibs Hgm).
  - unfold Yc, Y_ref. rewrite loc_Y_clonal.
    destruct (in_dec string_dec ref (groups meta_df (prenormalize EM)));
      [| contradiction].
    now rewrite (profile_finite _ _ _ _ Hshape Hlibs Hrm).
  - rewrite Hok, filter_In, in_seq, ok_gene_spec in H. lia.
  - rewrite Hok, filter_In, ok_gene_spec in H. tauto.
  - rewrite Hok, filter_In, ok_gene_spec in H. tauto.
  - intros [Hj Hnz]. rewrite Hok, filter_In, in_seq, ok_gene_spec.
    split; [lia | assumption].
  - rewrite Hok. apply NoDup_filter, seq_NoDup.
  - rewrite (ratios_Fin _ _ _ Lg Lr). unfold Spec.ratio_set.
    now rewrite Hok, map_map.
  - exact Hget.
  - intro Hne. exists (Spec.median (Spec.ratio_set ngenes gp rp)).
    assert (Hrs : Spec.ratio_set ngenes gp rp <> []).
    { unfold Spec.ratio_set. rewrite <- Hok. intro E.
      apply map_eq_nil in E. contradiction. }
    split; [now rewrite Hget, (ratios_Fin _ _ _ Lg Lr), np_median_Fin |].
    split; [now apply median_is_median |].
    intros m' Hm'. apply (is_median_unique _ _ _ Hm').
    now apply median_is_median.
Qed.

Lemma clones_of_groups (meta_df : series clone) (Y : frame float) (g : clone) :
  In g (groups meta_df Y) -> In g (clones meta_df).
Proof.
  intro H. unfold clones. rewrite In_sorted_unique. eapply groups_in_meta, H.
Qed.

Lemma ratio_set_self (ngenes : nat) (v : list R) :
  Forall (fun x => x = 1) (Spec.ratio_set ngenes v v).
Proof.
  unfold Spec.ratio_set. apply Forall_forall. intros x Hx.
  apply in_map_iff in Hx. destruct Hx as [j [<- Hj]].
  apply filter_In in Hj. destruct Hj as [_ Hj].
  apply ok_gene_spec in Hj. now field.
Qed.

(** C4.  With counts that are not negative, whenever the loop over the
    clones completes and the reference profile holds a number that is not
    zero, the tau of the reference clone is exactly 1. *)
Theorem reference_tau_is_one :
  forall (ngenes : nat) (EM : frame R) (meta_df : series clone) (ref : clone)
         (t : series float),
    well_shaped ngenes EM ->
    nonneg_counts EM ->
    tau_stage ngenes EM meta_df ref = Ok t ->
    (exists j r,
        nth_error (profile ngenes meta_df (prenormalize EM) ref) j = Some (Fin r)
        /\ r <> 0) ->
    get t ref = Some (Fin 1).
Proof.
  intros ngenes EM meta_df ref t Hshape Hpos Ht [j [r [Hj Hr]]].
  destruct (tau_stage_inv _ _ _ _ _ Ht) as [Hrin _].
  destruct (tau_of_clone _ _ _ _ _ ref Ht (clones_of_groups _ _ _ Hrin))
    as [_ Hget].
  rewrite Hget. f_equal.
  rewrite (profile_clean _ _ _ _ Hshape (nonneg_clean _ Hpos)) in Hj |- *.
  destruct (sequenced meta_df EM ref) as [| r0 l0] eqn:Es.
  - apply nth_error_In, in_map_iff in Hj. destruct Hj as [x [Hx _]]. discriminate.
  - set (v := map (fun j0 => Spec.mean
                     (column 0 j0 (map (fun r1 => Spec.Y_row (snd r1)) (r0 :: l0))))
                  (seq 0 ngenes)) in *.
    assert (Lv : List.length v = ngenes)
      by (unfold v; now rewrite length_map, length_seq).
    rewrite (ratios_Fin _ _ _ Lv Lv).
    assert (Hjn : (j < ngenes)%nat).
    { rewrite <- Lv, <- (length_map Fin). apply nth_error_Some. now rewrite Hj. }
    assert (Hv : nth j v 0 = r).
    { apply (nth_error_nth _ _ NaN) in Hj. rewrite nth_map_Fin in Hj by lia.
      now injection Hj. }
    assert (Hne : Spec.ratio_set ngenes v v <> []).
    { unfold Spec.ratio_set. intro E. apply map_eq_nil in E.
      assert (Hin : In j (filter (Spec.ok_gene v v) (seq 0 ngenes))).
      { apply filter_In. split; [apply in_seq; lia |].
        apply ok_gene_spec. rewrite Hv. tauto. }
      rewrite E in Hin. destruct Hin. }
    rewrite (np_median_Fin _ Hne). f_equal.
    apply (is_median_closed (fun x => x = 1) (Spec.ratio_set ngenes v v)).
    + intros a b -> ->. field.
    + apply ratio_set_self.
    + now apply median_is_median.
Qed.

(** C6, as the notebook behaves.  A clone none of whose genes is nonzero in
    both its profile and the reference profile raises nothing: the body of
    the loop returns NaN, the median of no ratio, as the tau of that clone,
    and the completed loop holds NaN for it. *)
Theorem empty_ok_genes_give_nan_tau :
  forall (ngenes : nat) (EM : frame R) (meta_df : series clone) (ref g : clone),
    In g (groups meta_df (prenormalize EM)) ->
    ok_genes ngenes (profile ngenes meta_df (prenormalize EM) g)
             (profile ngenes meta_df (prenormalize EM) ref) = [] ->
    tau_clone ngenes (Y_clonal ngenes meta_df (prenormalize EM))
              (profile ngenes meta_df (prenormalize EM) ref) g
    = Ok (g, NaN) /\
    forall t, tau_stage ngenes EM meta_df ref = Ok t -> get t g = Some NaN.
Proof.
  intros ngenes EM meta_df ref g Hg Hok. split.
  - unfold tau_clone. rewrite loc_Y_clonal.
    destruct (in_dec string_dec g (groups meta_df (prenormalize EM)));
      [| contradiction].
    simpl. unfold ratios. now rewrite Hok.
  - intros t Ht.
    destruct (tau_of_clone _ _ _ _ _ g Ht (clones_of_groups _ _ _ Hg)) as [_ Hget].
    rewrite Hget. unfold ratios. now rewrite Hok.
Qed.

(** ** Steps V and VI: effective library sizes and their geometric mean *)

Lemma combine_map_map {A B C : Type} (f : A -> B) (h : A -> C) (l : list A) :
  combine (map f l) (map h l) = map (fun a => (f a, h a)) l.
Proof. induction l as [| a l IH]; simpl; [reflexivity | now rewrite IH]. Qed.

Lemma els_of_rows (EM : frame R) (meta_df : series clone) (t : series float) :
  els_of EM meta_df t
  = map (fun r =>
           (fst r,
            fmul match get meta_df (fst r) with
                 | Some g => match get t g with Some x => x | None => NaN end
                 | None => NaN
                 end
                 (Fin (row_sum (snd r)))))
        EM.
Proof.
  unfold els_of, effective_lib_size, scalar_lib_size, clonalities, library_size.
  cbv zeta. rewrite !map_map. simpl.
  rewrite (combine_map_map
             (fun r : string * list R =>
                (fst r,
                 match get meta_df (fst r) with
                 | Some g => match get t g with Some x => x | None => NaN end
                 | None => NaN
                 end))
             (fun r : string * list R => (fst r, row_sum (snd r)))).
  rewrite map_map. reflexivity.
Qed.

Lemma positive_series_Fin (els : series float) :
  positive_series els ->
  els = map (fun p => (fst p, Fin (snd p)))
            (map (fun p => (fst p, fin_part (snd p))) els) /\
  Forall (fun p => 0 < snd p) (map (fun p => (fst p, fin_part (snd p))) els).
Proof.
  induction 1 as [| [l x] els [e [Hx He]] _ [IH1 IH2]]; simpl.
  - split; constructor.
  - simpl in Hx. subst x. simpl. split; [now rewrite <- IH1 |].
    constructor; [exact He | exact IH2].
Qed.

Lemma filter_notnan_Fin (w : list R) : filter notnan (map Fin w) = map Fin w.
Proof. induction w as [| x w IH]; simpl; [reflexivity | now rewrite IH]. Qed.

Lemma geo_mean_Fin (v : series R) :
  v <> [] ->
  Forall (fun p => 0 < snd p) v ->
  geo_mean (map (fun p => (fst p, Fin (snd p))) v)
  = Fin (Spec.geometric_mean (map snd v)).
Proof.
  intros Hne Hpos. unfold geo_mean, Spec.geometric_mean. rewrite map_map.
  cbn [snd].
  assert (Hlog : map (fun p : string * R => np_log (Fin (snd p))) v
                 = map Fin (map ln (map snd v))).
  { rewrite !map_map. apply map_ext_in. intros p Hp.
    rewrite Forall_forall in Hpos. simpl. now rewrite Rltb_true by now apply Hpos. }
  rewrite Hlog.
  rewrite (pd_mean_Fin _ (map ln (map snd v)) (filter_notnan_Fin _)).
  destruct v as [| p v]; [contradiction | reflexivity].
Qed.

Lemma relative_normalization_factor_Fin (v : series R) (G : R) :
  G <> 0 ->
  relative_normalization_factor (map (fun p => (fst p, Fin (snd p))) v) (Fin G)
  = map (fun p => (fst p, Fin (snd p))) (map (fun p => (fst p, snd p / G)) v).
Proof.
  intro HG. unfold relative_normalization_factor. rewrite !map_map.
  apply map_ext. intro p. simpl. now rewrite Reqb_false.
Qed.

Lemma ln_quotient (x G : R) : 0 < x -> 0 < G -> ln (x / G) = ln x - ln G.
Proof.
  intros Hx HG. unfold Rdiv. rewrite ln_mult, ln_Rinv; try assumption.
  - ring.
  - now apply Rinv_0_lt_compat.
Qed.

Lemma row_sum_ln_quotient (v : list R) (G : R) :
  0 < G -> Forall (fun x => 0 < x) v ->
  row_sum (map ln (map (fun x => x / G) v))
  = row_sum (map ln v) - INR (List.length v) * ln G.
Proof.
  intros HG. induction 1 as [| x v Hx _ IH].
  - simpl. ring.
  - change (List.length (x :: v)) with (S (List.length v)). rewrite S_INR.
    simpl. rewrite IH, ln_quotient by assumption. ring.
Qed.

Lemma geometric_mean_pos (v : list R) : 0 < Spec.geometric_mean v.
Proof. apply exp_pos. Qed.

(** The values divided by their geometric mean have geometric mean 1. *)
Lemma geometric_mean_normalized (v : list R) :
  v <> [] -> Forall (fun x => 0 < x) v ->
  Spec.geometric_mean (map (fun x => x / Spec.geometric_mean v) v) = 1.
Proof.
  intros Hne Hpos. unfold Spec.geometric_mean at 1. unfold Spec.mean.
  rewrite (row_sum_ln_quotient v _ (geometric_mean_pos v) Hpos).
  rewrite !length_map. unfold Spec.geometric_mean. rewrite ln_exp.
  unfold Spec.mean. rewrite length_map.
  replace ((row_sum (map ln v)
            - INR (List.length v) * (row_sum (map ln v) / INR (List.length v)))
           / INR (List.length v)) with 0.
  - apply exp_0.
  - field. apply not_0_INR. destruct v; [contradiction | discriminate].
Qed.

Lemma length_els_of (EM : frame R) (meta_df : series clone) (t : series float) :
  List.length (els_of EM meta_df t) = List.length EM.
Proof. rewrite els_of_rows. apply length_map. Qed.

(** C5.  Whenever the loop over the clones completes on a matrix with at
    least one sample and every effective library size is a positive number,
    the relative normalization factors are positive numbers, one for each
    sample, whose geometric mean [exp(mean(log(.)))], taken over the reals,
    is exactly 1; the [geo_mean] of the notebook applied to them gives 1
    as well. *)
Theorem relative_factors_have_geometric_mean_one :
  forall (ngenes : nat) (EM : frame R) (meta_df : series clone) (ref : clone)
         (t : series float),
    EM <> [] ->
    tau_stage ngenes EM meta_df ref = Ok t ->
    positive_series (els_of EM meta_df t) ->
    exists factors : list R,
      map snd (relative_normalization_factor
                 (els_of EM meta_df t) (geo_mean (els_of EM meta_df t)))
      = map Fin factors /\
      List.length factors = List.length EM /\
      Forall (fun x => 0 < x) factors /\
      Spec.geometric_mean factors = 1 /\
      geo_mean (relative_normalization_factor
                  (els_of EM meta_df t) (geo_mean (els_of EM meta_df t)))
      = Fin 1.
Proof.
  intros ngenes EM meta_df ref t HEM Ht Hpos.
  assert (Hne : els_of EM meta_df t <> []).
  { intro E. apply HEM.
    apply length_zero_iff_nil. now rewrite <- (length_els_of EM meta_df t), E. }
  destruct (positive_series_Fin _ Hpos) as [Hels Hv].
  set (v := map (fun p : string * float => (fst p, fin_part (snd p)))
                (els_of EM meta_df t)) in *.
  assert (Hvne : v <> []).
  { unfold v. intro E. apply map_eq_nil in E. contradiction. }
  assert (Hlen : List.length v = List.length EM).
  { unfold v. rewrite length_map. apply length_els_of. }
  set (G := Spec.geometric_mean (map snd v)).
  assert (HG : 0 < G) by apply geometric_mean_pos.
  assert (Hrnf : relative_normalization_factor
                   (els_of EM meta_df t) (geo_mean (els_of EM meta_df t))
                 = map (fun p => (fst p, Fin (snd p)))
                       (map (fun p => (fst p, snd p / G)) v)).
  { rewrite Hels at 1 2. rewrite (geo_mean_Fin v Hvne Hv). fold G.
    apply relative_normalization_factor_Fin. lra. }
  assert (Hfpos : Forall (fun x => 0 < x) (map (fun x => x / G) (map snd v))).
  { apply Forall_map, Forall_map. eapply Forall_impl; [| exact Hv].
    intros p Hp. simpl in *. now apply Rdiv_lt_0_compat. }
  assert (Hone : Spec.geometric_mean (map (fun x => x / G) (map snd v)) = 1).
  { apply geometric_mean_normalized.
    - intro E. apply map_eq_nil in E. contradiction.
    - apply Forall_map. exact Hv. }
  exists (map (fun x => x / G) (map snd v)).
  split; [| split; [| split; [| split]]].
  - rewrite Hrnf, !map_map. reflexivity.
  - now rewrite !length_map.
  - exact Hfpos.
  - exact Hone.
  - rewrite Hrnf, geo_mean_Fin.
    + apply f_equal. rewrite <- Hone. f_equal. now rewrite !map_map.
    + intro E. apply map_eq_nil in E. contradiction.
    + apply Forall_map. cbn [snd]. eapply Forall_impl; [| exact Hv].
      intros p Hp. cbn beta in *. now apply Rdiv_lt_0_compat.
Qed.

(** On a matrix with no sample there is no factor at all, and [geo_mean]
    of no value is NaN: the mean of no logarithm. *)
Lemma relative_factors_of_no_sample (meta_df : series clone) (t : series float) :
  relative_normalization_factor
    (els_of [] meta_df t) (geo_mean (els_of [] meta_df t)) = [] /\
  geo_mean (relative_normalization_factor
              (els_of [] meta_df t) (geo_mean (els_of [] meta_df t))) = NaN.
Proof. split; reflexivity. Qed.

(** ** The geometric mean when one sample is rescaled *)

Lemma library_size_scale (s : sample) (k : R) (EM : frame R) :
  library_size (scale_sample s k EM)
  = map (fun p => if String.eqb (fst p) s then (fst p, k * snd p) else p)
        (library_size EM).
Proof.
  unfold library_size, scale_sample. rewrite !map_map. apply map_ext.
  intros [l row]. simpl. destruct (String.eqb l s); simpl; [| reflexivity].
  now rewrite row_sum_scale.
Qed.

Lemma fmul_Fin_inv (x : float) (L e : R) :
  fmul x (Fin L) = Fin e -> x = Fin (fin_part x) /\ e = fin_part x * L.
Proof.
  destruct x as [c | | |]; simpl; unfold inf_times.
  - intro H. injection H as <-. now split.
  - destruct (Reqb L 0); [discriminate |]. destruct (Rltb 0 L); discriminate.
  - destruct (Reqb L 0); [discriminate |]. destruct (Rltb 0 L); discriminate.
  - discriminate.
Qed.

Lemma els_of_scale (s : sample) (k : R) (EM : frame R) (meta_df : series clone)
      (t : series float) :
  positive_series (els_of EM meta_df t) ->
  els_of (scale_sample s k EM) meta_df t
  = map (fun p => (fst p, Fin ((if String.eqb (fst p) s then k else 1) * snd p)))
        (map (fun p => (fst p, fin_part (snd p))) (els_of EM meta_df t)).
Proof.
  unfold positive_series. rewrite !els_of_rows. unfold scale_sample.
  rewrite Forall_map, !map_map. intro Hpos. rewrite Forall_forall in Hpos.
  apply map_ext_in. intros [l row] Hr. specialize (Hpos _ Hr).
  cbn [fst snd] in *. destruct Hpos as [e [He _]].
  destruct (fmul_Fin_inv _ _ _ He) as [Hsc _].
  destruct (String.eqb l s); cbn [fst snd]; rewrite Hsc; simpl.
  - rewrite row_sum_scale. do 2 f_equal. ring.
  - do 2 f_equal. ring.
Qed.

Lemma row_sum_ln_scaled (s : sample) (k : R) (v : series R) :
  0 < k ->
  Forall (fun p => 0 < snd p) v ->
  NoDup (map fst v) ->
  row_sum (map (fun p => ln ((if String.eqb (fst p) s then k else 1) * snd p)) v)
  = row_sum (map (fun p => ln (snd p)) v)
    + (if in_dec string_dec s (map fst v) then ln k else 0).
Proof.
  intros Hk Hpos. induction Hpos as [| [l x] v Hx Hv IH]; intro Hnd; simpl.
  - ring.
  - simpl in Hnd, Hx. apply NoDup_cons_iff in Hnd. destruct Hnd as [Hnotin Hnd'].
    rewrite (IH Hnd'). destruct (String.eqb_spec l s) as [E | E].
    + subst l. destruct (string_dec s s) as [C | C]; [| contradiction].
      destruct (in_dec string_dec s (map fst v)) as [Hin | Hin]; [contradiction |].
      rewrite ln_mult by assumption. ring.
    + destruct (string_dec l s) as [C | C]; [contradiction |].
      rewrite Rmult_1_l.
      destruct (in_dec string_dec s (map fst v)); ring.
Qed.

Lemma geometric_mean_scaled (s : sample) (k : R) (v : series R) :
  0 < k ->
  Forall (fun p => 0 < snd p) v ->
  NoDup (map fst v) ->
  In s (map fst v) ->
  Spec.geometric_mean
    (map (fun p => (if String.eqb (fst p) s then k else 1) * snd p) v)
  = Spec.geometric_mean (map snd v) * Rpower k (/ INR (List.length v)).
Proof.
  intros Hk Hpos Hnd Hin. unfold Spec.geometric_mean, Spec.mean, Rpower.
  rewrite <- exp_plus. f_equal. rewrite !map_map, !length_map.
  rewrite (row_sum_ln_scaled s k v Hk Hpos Hnd).
  destruct (in_dec string_dec s (map fst v)); [| contradiction].
  field. apply not_0_INR. destruct v; [destruct Hin | discriminate].
Qed.

(** C8, as the notebook computes.  Multiplying the raw counts of a sample
    outside the reference clone by a positive constant [k] multiplies its
    library size by [k] and leaves the library sizes of the other samples,
    the reference sample and every tau as they were.  The geometric mean of
    the effective library sizes is not left as it was: when these are
    positive numbers it is multiplied by the n-th root of [k], n being the
    number of samples. *)
Theorem scaling_a_sample_scales_its_library :
  forall (ngenes : nat) (EM : frame R) (meta_df : series clone) (ref : clone)
         (s : sample) (k : R),
    0 < k ->
    NoDup (map fst EM) ->
    In s (map fst EM) ->
    get meta_df s <> Some ref ->
    library_size (scale_sample s k EM)
    = map (fun p => if String.eqb (fst p) s then (fst p, k * snd p) else p)
          (library_size EM) /\
    Y_ref (Y_clonal ngenes meta_df (prenormalize (scale_sample s k EM))) ref
    = Y_ref (Y_clonal ngenes meta_df (prenormalize EM)) ref /\
    tau_stage ngenes (scale_sample s k EM) meta_df ref
    = tau_stage ngenes EM meta_df ref /\
    forall t,
      tau_stage ngenes EM meta_df ref = Ok t ->
      positive_series (els_of EM meta_df t) ->
      exists G,
        0 < G /\
        geo_mean (els_of EM meta_df t) = Fin G /\
        geo_mean (els_of (scale_sample s k EM) meta_df t)
        = Fin (G * Rpower k (/ INR (List.length EM))).
Proof.
  intros ngenes EM meta_df ref s k Hk Hnd Hs _.
  split; [apply library_size_scale |].
  split; [now rewrite (prenormalize_scale s k EM Hk) |].
  split; [unfold tau_stage; now rewrite (prenormalize_scale s k EM Hk) |].
  intros t Ht Hpos.
  destruct (positive_series_Fin _ Hpos) as [Hels Hv].
  rewrite (els_of_scale s k EM meta_df t Hpos).
  set (v := map (fun p : string * float => (fst p, fin_part (snd p)))
                (els_of EM meta_df t)) in *.
  assert (Hfst : map fst v = map fst EM).
  { unfold v. rewrite els_of_rows, !map_map. reflexivity. }
  assert (Hlen : List.length v = List.length EM).
  { rewrite <- (length_map fst v), Hfst. apply length_map. }
  assert (Hvne : v <> []).
  { intro E. rewrite E in Hfst. simpl in Hfst. rewrite <- Hfst in Hs.
    destruct Hs. }
  exists (Spec.geometric_mean (map snd v)).
  split; [apply geometric_mean_pos |].
  split; [rewrite Hels; now apply geo_mean_Fin |].
  rewrite <- Hlen.
  rewrite <- (geometric_mean_scaled s k v Hk Hv); [| now rewrite Hfst ..].
  replace (map (fun p : string * R =>
                  (fst p, Fin ((if String.eqb (fst p) s then k else 1) * snd p))) v)
    with (map (fun p : string * R => (fst p, Fin (snd p)))
              (map (fun p : string * R =>
                      (fst p, (if String.eqb (fst p) s then k else 1) * snd p)) v))
    by (now rewrite map_map).
  rewrite geo_mean_Fin.
  - now rewrite map_map.
  - intro E. apply map_eq_nil in E. contradiction.
  - apply Forall_map. cbn [snd]. eapply Forall_impl; [| exact Hv].
    intros p Hp. cbn beta in *. destruct (String.eqb (fst p) s); nra.
Qed.

(** ** The whole normalization on well-formed inputs *)

Lemma mapM_total {A B : Type} (f : A -> result B) (h : A -> B) (l : list A) :
  (forall a, In a l -> f a = Ok (h a)) -> mapM f l = Ok (map h l).
Proof.
  induction l as [| a l IH]; intro H; simpl; [reflexivity |].
  rewrite (H a) by now left. simpl. rewrite IH; [reflexivity |].
  intros b Hb. apply H. now right.
Qed.

(** The loop over the clones completes when the reference clone and every
    clone of the metadata have a sample in the expression matrix. *)
Lemma tau_stage_total (ngenes : nat) (EM : frame R) (meta_df : series clone)
      (ref : clone) :
  In ref (map snd meta_df) ->
  (forall g, In g (map snd meta_df) -> Spec.members meta_df EM g <> []) ->
  tau_stage ngenes EM meta_df ref
  = Ok (map (fun g =>
               (g, np_median
                     (ratios ngenes
                             (profile ngenes meta_df (prenormalize EM) g)
                             (profile ngenes meta_df (prenormalize EM) ref))))
            (clones meta_df)).
Proof.
  intros Href Hall. unfold tau_stage, Y_ref. cbv zeta. rewrite loc_Y_clonal.
  destruct (in_dec string_dec ref (groups meta_df (prenormalize EM))) as [_ | C].
  2:{ exfalso. apply C. apply groups_of_members. now apply Hall. }
  simpl. unfold tau. apply mapM_total. intros g Hg.
  unfold clones in Hg. rewrite In_sorted_unique in Hg.
  unfold tau_clone. rewrite loc_Y_clonal.
  destruct (in_dec string_dec g (groups meta_df (prenormalize EM))) as [_ | C];
    [reflexivity |].
  exfalso. apply C. apply groups_of_members. now apply Hall.
Qed.

Lemma nth_nonneg (l : list R) (j : nat) :
  Forall (fun x => 0 <= x) l -> 0 <= nth j l 0.
Proof.
  intro H. destruct (nth_in_or_default j l 0) as [Hin | ->]; [| lra].
  rewrite Forall_forall in H. now apply H.
Qed.

Lemma Y_row_nonneg (row : list R) :
  Forall (fun x => 0 <= x) row -> 0 < row_sum row ->
  Forall (fun x => 0 <= x) (Spec.Y_row row).
Proof.
  intros Hrow Hsum. unfold Spec.Y_row. apply Forall_map.
  eapply Forall_impl; [| exact Hrow]. intros x Hx. simpl.
  apply Rmult_le_pos; [exact Hx |]. left. now apply Rinv_0_lt_compat.
Qed.

Lemma group_profile_nonneg (ngenes : nat) (meta_df : series clone)
      (EM : frame R) (g : clone) :
  nonneg_counts EM ->
  Forall (fun r => 0 < row_sum (snd r)) EM ->
  Spec.members meta_df EM g <> [] ->
  Forall (fun x => 0 <= x) (Spec.group_profile ngenes meta_df EM g).
Proof.
  intros Hpos Hlib Hne. unfold Spec.group_profile. apply Forall_map.
  apply Forall_forall. intros j _. unfold Spec.mean.
  apply Rmult_le_pos.
  - apply nonneg_sum. unfold column. rewrite map_map. apply Forall_map.
    apply Forall_forall. intros r Hr. simpl. apply nth_nonneg.
    unfold Spec.members in Hr. apply filter_In in Hr. destruct Hr as [Hr _].
    unfold nonneg_counts in Hpos. rewrite Forall_forall in Hpos, Hlib.
    apply Y_row_nonneg; [now apply Hpos | now apply Hlib].
  - left. apply Rinv_0_lt_compat, lt_0_INR.
    unfold column. rewrite !length_map.
    destruct (Spec.members meta_df EM g); [contradiction | simpl; lia].
Qed.

Lemma ratio_set_positive (ngenes : nat) (gp rp : list R) :
  Forall (fun x => 0 <= x) gp -> Forall (fun x => 0 <= x) rp ->
  Forall (fun x => 0 < x) (Spec.ratio_set ngenes gp rp).
Proof.
  intros Hg Hr. unfold Spec.ratio_set. apply Forall_map, Forall_forall.
  intros j Hj. apply filter_In in Hj. destruct Hj as [_ Hj].
  apply ok_gene_spec in Hj. destruct Hj as [Hgj Hrj].
  pose proof (nth_nonneg gp j Hg). pose proof (nth_nonneg rp j Hr).
  apply Rdiv_lt_0_compat; lra.
Qed.

Section WellFormed.
Variables (ngenes : nat) (EM : frame R) (meta_df : series clone) (ref : clone).

Hypothesis shape : well_shaped ngenes EM.
Hypothesis counts : nonneg_counts EM.
Hypothesis libraries : Forall (fun r => 0 < row_sum (snd r)) EM.
Hypothesis sampled :
  forall g, In g (map snd meta_df) -> Spec.members meta_df EM g <> [].
Hypothesis ok_sets :
  forall g, In g (map snd meta_df) ->
            ok_genes ngenes (profile ngenes meta_df (prenormalize EM) g)
                     (profile ngenes meta_df (prenormalize EM) ref) <> [].

Lemma libraries_nonzero : libs_nonzero EM.
Proof.
  eapply Forall_impl; [| exact libraries]. intros r Hr. simpl in Hr. lra.
Qed.

(** The tau of a sampled clone is a positive number, the median of the
    ratios over the reals. *)
Lemma tau_value_positive (g : clone) :
  In ref (map snd meta_df) ->
  In g (map snd meta_df) ->
  np_median (ratios ngenes (profile ngenes meta_df (prenormalize EM) g)
                    (profile ngenes meta_df (prenormalize EM) ref))
  = Fin (Spec.tau ngenes meta_df EM ref g) /\
  0 < Spec.tau ngenes meta_df EM ref g.
Proof.
  intros Href Hg.
  pose proof (ok_sets g Hg) as Hok.
  assert (Hgin : Spec.members meta_df EM g <> []) by now apply sampled.
  assert (Hrin : Spec.members meta_df EM ref <> []) by now apply sampled.
  rewrite (profile_finite _ _ _ _ shape libraries_nonzero Hgin) in Hok |- *.
  rewrite (profile_finite _ _ _ _ shape libraries_nonzero Hrin) in Hok |- *.
  set (gp := Spec.group_profile ngenes meta_df EM g) in *.
  set (rp := Spec.group_profile ngenes meta_df EM ref) in *.
  assert (Lg : List.length gp = ngenes) by apply length_group_profile.
  assert (Lr : List.length rp = ngenes) by apply length_group_profile.
  rewrite (ok_genes_Fin _ _ _ Lg Lr) in Hok.
  assert (Hne : Spec.ratio_set ngenes gp rp <> []).
  { unfold Spec.ratio_set. intro E. apply map_eq_nil in E. contradiction. }
  rewrite (ratios_Fin _ _ _ Lg Lr), (np_median_Fin _ Hne).
  split; [reflexivity |]. unfold Spec.tau. fold gp rp.
  apply (is_median_closed (fun x => 0 < x) (Spec.ratio_set ngenes gp rp)).
  - intros a b Ha Hb. lra.
  - apply ratio_set_positive; apply group_profile_nonneg;
      auto using counts, libraries.
  - now apply median_is_median.
Qed.
End WellFormed.

Lemma Forall2_map_self {A B : Type} (P : A -> B -> Prop) (f : A -> B)
      (l : list A) :
  (forall a, P a (f a)) -> Forall2 P l (map f l).
Proof. intro H. induction l; simpl; constructor; auto. Qed.

Lemma mrn_counts_Fin (EM : frame R) (f : string * list R -> R) :
  (forall r, In r EM -> f r <> 0) ->
  mrn_counts EM (map (fun r => (fst r, Fin (f r))) EM)
  = map (fun r => (fst r, map (fun x => Fin (x / f r)) (snd r))) EM.
Proof.
  intro Hf. unfold mrn_counts. rewrite combine_map_self, map_map.
  apply map_ext_in. intros r Hr. cbn [fst snd]. f_equal.
  apply map_ext. intro x. apply fdiv_fin. now apply Hf.
Qed.

(** C2.  On a well-formed input (a matrix of [ngenes] columns of counts
    that are not negative, every library size positive, every sample in a
    clone, the reference clone and every other clone with a sample, and for
    every clone a gene that is nonzero in its profile and in the reference
    profile) the run completes, and its result is the ORIGINAL count of each
    sample and gene divided by the relative normalization factor of the
    sample, that is by [tau * library size] over the geometric mean
    [exp(mean(log(tau * library size)))] over the samples; the result has
    the samples of the input in the same order and rows of the same
    lengths. *)
Theorem mrn_counts_are_raw_counts_over_relative_factor :
  forall (ngenes : nat) (EM : frame R) (meta_df : series clone) (ref : clone),
    well_shaped ngenes EM ->
    nonneg_counts EM ->
    Forall (fun r => 0 < row_sum (snd r)) EM ->
    Forall (fun r => get meta_df (fst r) <> None) EM ->
    (forall g, In g (map snd meta_df) -> Spec.members meta_df EM g <> []) ->
    In ref (map snd meta_df) ->
    (forall g, In g (map snd meta_df) ->
               ok_genes ngenes (profile ngenes meta_df (prenormalize EM) g)
                        (profile ngenes meta_df (prenormalize EM) ref) <> []) ->
    mrn ngenes EM meta_df ref = Ok (Spec.mrn_counts ngenes meta_df EM ref) /\
    map fst (Spec.mrn_counts ngenes meta_df EM ref) = map fst EM /\
    Forall2 (fun r o => List.length (snd o) = List.length (snd r))
            EM (Spec.mrn_counts ngenes meta_df EM ref).
Proof.
  intros ngenes EM meta_df ref Hshape Hcounts Hlibs Hmeta Hsampled Href Hok.
  assert (Htau : forall g, In g (map snd meta_df) ->
            np_median (ratios ngenes (profile ngenes meta_df (prenormalize EM) g)
                              (profile ngenes meta_df (prenormalize EM) ref))
            = Fin (Spec.tau ngenes meta_df EM ref g) /\
            0 < Spec.tau ngenes meta_df EM ref g).
  { intros g Hg. now apply tau_value_positive. }
  assert (Hne : EM <> []).
  { intro E. apply (Hsampled ref Href). now rewrite E. }
  assert (Hels : forall r, In r EM ->
            0 < Spec.effective_lib_size ngenes meta_df EM ref r /\
            get meta_df (fst r) = Some (Spec.clone_of meta_df (fst r)) /\
            In (Spec.clone_of meta_df (fst r)) (map snd meta_df)).
  { intros r Hr. rewrite Forall_forall in Hmeta, Hlibs.
    specialize (Hmeta r Hr). specialize (Hlibs r Hr).
    unfold Spec.effective_lib_size, Spec.clone_of.
    destruct (get meta_df (fst r)) as [g |] eqn:Eg; [| contradiction].
    assert (Hg : In g (map snd meta_df)).
    { apply get_Some_In in Eg. apply in_map_iff. now exists (fst r, g). }
    rewrite ?Eg. split; [| split; [reflexivity | assumption]].
    apply Rmult_lt_0_compat; [| assumption].
    destruct (Htau g Hg) as [_ Hp]. exact Hp. }
  split.
  - unfold mrn. rewrite (tau_stage_total _ _ _ _ Href Hsampled). cbn [bind].
    cbv zeta.
    assert (E : els_of EM meta_df
                  (map (fun g =>
                          (g, np_median
                                (ratios ngenes
                                   (profile ngenes meta_df (prenormalize EM) g)
                                   (profile ngenes meta_df (prenormalize EM) ref))))
                       (clones meta_df))
                = map (fun p => (fst p, Fin (snd p)))
                      (map (fun r => (fst r,
                                      Spec.effective_lib_size ngenes meta_df EM ref r))
                           EM)).
    { rewrite els_of_rows, map_map. apply map_ext_in. intros r Hr.
      cbn [fst snd]. f_equal.
      destruct (Hels r Hr) as [_ [Eg Hg]]. rewrite Eg, get_map_key.
      destruct (in_dec string_dec (Spec.clone_of meta_df (fst r)) (clones meta_df))
        as [_ | C].
      - destruct (Htau _ Hg) as [-> _]. reflexivity.
      - exfalso. apply C. unfold clones. now rewrite In_sorted_unique. }
    rewrite E. rewrite geo_mean_Fin.
    + rewrite relative_normalization_factor_Fin
        by apply Rgt_not_eq, geometric_mean_pos.
      rewrite !map_map. cbn [fst snd].
      rewrite (mrn_counts_Fin EM
                 (fun r => Spec.effective_lib_size ngenes meta_df EM ref r
                           / Spec.geometric_mean
                               (map (fun r0 =>
                                       Spec.effective_lib_size ngenes meta_df EM ref r0)
                                    EM))).
      * reflexivity.
      * intros r Hr. apply Rgt_not_eq, Rdiv_lt_0_compat;
          [now apply Hels | apply geometric_mean_pos].
    + intro C. apply map_eq_nil in C. contradiction.
    + apply Forall_map, Forall_forall. intros r Hr. cbn [snd]. now apply Hels.
  - split.
    + unfold Spec.mrn_counts. rewrite map_map. reflexivity.
    + unfold Spec.mrn_counts. apply Forall2_map_self. intro r. cbn [snd].
      now rewrite length_map.
Qed.

Lemma tau_stage_scenario :
  tau_stage 3 EM_scenario meta_scenario "A"%string
  = Ok [("A"%string, Fin 1); ("B"%string, Fin (7 / 5))].
Proof.
  unfold tau_stage. rewrite prenormalize_rows. run_cells.
  fin_eq.
Qed.

Lemma els_scenario :
  els_of EM_scenario meta_scenario [("A"%string, Fin 1); ("B"%string, Fin (7 / 5))]
  = [("a1"%string, Fin 30); ("a2"%string, Fin 40);
     ("b1"%string, Fin 28); ("b2"%string, Fin 70)].
Proof. unfold els_of. run_cells. fin_eq. Qed.

(** ** The properties on the sample inputs *)

Lemma well_shaped_scenario : well_shaped 3 EM_scenario.
Proof. repeat constructor. Qed.

Lemma nonneg_scenario : nonneg_counts EM_scenario.
Proof. repeat constructor; lra. Qed.

Lemma libraries_scenario : Forall (fun r => 0 < row_sum (snd r)) EM_scenario.
Proof. repeat constructor; simpl; lra. Qed.

Lemma clones_scenario : clones meta_scenario = ["A"%string; "B"%string].
Proof. reflexivity. Qed.

Lemma groups_scenario :
  groups meta_scenario (prenormalize EM_scenario) = ["A"%string; "B"%string].
Proof. rewrite prenormalize_rows. reflexivity. Qed.

Lemma profile_scenario_A :
  profile 3 meta_scenario (prenormalize EM_scenario) "A"%string
  = [Fin (13 / 24); Fin (1 / 3); Fin (1 / 8)].
Proof. unfold profile. rewrite prenormalize_rows. run_cells. fin_eq. Qed.

Lemma profile_scenario_B :
  profile 3 meta_scenario (prenormalize EM_scenario) "B"%string
  = [Fin (11 / 40); Fin (11 / 20); Fin (7 / 40)].
Proof. unfold profile. rewrite prenormalize_rows. run_cells. fin_eq. Qed.

Lemma ok_genes_scenario (g : clone) :
  In g (map snd meta_scenario) ->
  ok_genes 3 (profile 3 meta_scenario (prenormalize EM_scenario) g)
           (profile 3 meta_scenario (prenormalize EM_scenario) "A"%string)
  = [0%nat; 1%nat; 2%nat].
Proof.
  intro Hg. assert (E : g = "A"%string \/ g = "B"%string) by (simpl in Hg; intuition).
  destruct E as [-> | ->].
  - rewrite profile_scenario_A. unfold ok_genes. run_cells. reflexivity.
  - rewrite profile_scenario_A, profile_scenario_B. unfold ok_genes. run_cells.
    reflexivity.
Qed.

Lemma sampled_scenario (g : clone) :
  In g (map snd meta_scenario) -> Spec.members meta_scenario EM_scenario g <> [].
Proof.
  intro Hg. assert (E : g = "A"%string \/ g = "B"%string) by (simpl in Hg; intuition).
  destruct E as [-> | ->]; discriminate.
Qed.

Lemma positive_els_scenario :
  positive_series
    (els_of EM_scenario meta_scenario
            [("A"%string, Fin 1); ("B"%string, Fin (7 / 5))]).
Proof.
  rewrite els_scenario. repeat constructor; eexists; (split; [reflexivity | lra]).
Qed.

Lemma prenormalize_scenario_row_sums_to_one :
  fsum (map (fun x => Fin (x / row_sum [10; 20; 0])) [10; 20; 0]) = Fin 1.
Proof.
  destruct (prenormalize_divides_by_library_size
              EM_scenario 0 "a1"%string [10; 20; 0] eq_refl) as [_ H].
  apply H. simpl. lra.
Defined.

Lemma tau_of_scenario_B_is_median :
  exists m,
    get [("A"%string, Fin 1); ("B"%string, Fin (7 / 5))] "B"%string = Some (Fin m) /\
    Spec.is_median
      (Spec.ratio_set 3 (Spec.group_profile 3 meta_scenario EM_scenario "B"%string)
                      (Spec.group_profile 3 meta_scenario EM_scenario "A"%string))
      m.
Proof.
  assert (Hlibs : libs_nonzero EM_scenario) by (repeat constructor; simpl; lra).
  assert (HB : In "B"%string (clones meta_scenario)) by (right; now left).
  assert (HEM : EM_scenario <> []) by discriminate.
  destruct (tau_is_median_of_ratios
              3 EM_scenario meta_scenario "A"%string
              [("A"%string, Fin 1); ("B"%string, Fin (7 / 5))] "B"%string
              well_shaped_scenario HEM Hlibs tau_stage_scenario HB)
    as [_ [_ [_ [_ [_ [_ H]]]]]].
  assert (Hok : ok_genes 3
                  (map Fin (Spec.group_profile 3 meta_scenario EM_scenario "B"%string))
                  (map Fin (Spec.group_profile 3 meta_scenario EM_scenario "A"%string))
                <> []);
    [| destruct (H Hok) as [m [Hm1 [Hm2 _]]]; now exists m].
  rewrite <- (profile_finite 3 meta_scenario EM_scenario "B"%string
                well_shaped_scenario Hlibs)
    by discriminate.
  rewrite <- (profile_finite 3 meta_scenario EM_scenario "A"%string
                well_shaped_scenario Hlibs)
    by discriminate.
  rewrite ok_genes_scenario by (simpl; tauto). discriminate.
Defined.

Lemma mrn_scenario :
  mrn 3 EM_scenario meta_scenario "A"%string
  = Ok (Spec.mrn_counts 3 meta_scenario EM_scenario "A"%string).
Proof.
  apply (mrn_counts_are_raw_counts_over_relative_factor
           3 EM_scenario meta_scenario "A"%string).
  - exact well_shaped_scenario.
  - exact nonneg_scenario.
  - exact libraries_scenario.
  - repeat constructor; discriminate.
  - exact sampled_scenario.
  - now left.
  - intros g Hg. rewrite (ok_genes_scenario g Hg). discriminate.
Defined.

Lemma reference_tau_scenario :
  get [("A"%string, Fin 1); ("B"%string, Fin (7 / 5))] "A"%string = Some (Fin 1).
Proof.
  apply (reference_tau_is_one 3 EM_scenario meta_scenario "A"%string).
  - exact well_shaped_scenario.
  - exact nonneg_scenario.
  - exact tau_stage_scenario.
  - exists 0%nat, (13 / 24). rewrite profile_scenario_A. split; [reflexivity | lra].
Defined.

Lemma relative_factors_scenario :
  exists factors : list R,
    map snd (relative_normalization_factor
               (els_of EM_scenario meta_scenario
                       [("A"%string, Fin 1); ("B"%string, Fin (7 / 5))])
               (geo_mean
                  (els_of EM_scenario meta_scenario
                          [("A"%string, Fin 1); ("B"%string, Fin (7 / 5))])))
    = map Fin factors /\
    List.length factors = List.length EM_scenario /\
    Forall (fun x => 0 < x) factors /\
    Spec.geometric_mean factors = 1 /\
    geo_mean
      (relative_normalization_factor
         (els_of EM_scenario meta_scenario
                 [("A"%string, Fin 1); ("B"%string, Fin (7 / 5))])
         (geo_mean
            (els_of EM_scenario meta_scenario
                    [("A"%string, Fin 1); ("B"%string, Fin (7 / 5))])))
    = Fin 1.
Proof.
  apply (relative_factors_have_geometric_mean_one
           3 EM_scenario meta_scenario "A"%string).
  - discriminate.
  - exact tau_stage_scenario.
  - exact positive_els_scenario.
Defined.

Lemma disjoint_clone_has_nan_tau :
  tau_clone 2 (Y_clonal 2 meta_two_clones (prenormalize EM_disjoint))
            (profile 2 meta_two_clones (prenormalize EM_disjoint) "A"%string)
            "B"%string
  = Ok ("B"%string, NaN).
Proof.
  apply (empty_ok_genes_give_nan_tau 2 EM_disjoint meta_two_clones
           "A"%string "B"%string).
  - unfold groups. rewrite prenormalize_rows. right. now left.
  - unfold profile. rewrite prenormalize_rows. unfold ok_genes. run_cells.
    reflexivity.
Defined.

(** The claim C6 fails on the notebook: the clone B shares no expressed gene
    with the reference clone A, and the run completes with NaN as the tau
    of B and NaN in the row of its sample. *)
Lemma empty_ok_genes_raise_nothing :
  ok_genes 2 (profile 2 meta_two_clones (prenormalize EM_disjoint) "B"%string)
           (profile 2 meta_two_clones (prenormalize EM_disjoint) "A"%string) = []
  /\ tau_stage 2 EM_disjoint meta_two_clones "A"%string
     = Ok [("A"%string, Fin 1); ("B"%string, NaN)]
  /\ mrn 2 EM_disjoint meta_two_clones "A"%string
     = Ok [("s1"%string, [Fin 1; Fin 0]); ("s2"%string, [NaN; NaN])].
Proof.
  split; [| split; [exact tau_stage_disjoint | exact mrn_disjoint]].
  unfold profile. rewrite prenormalize_rows. unfold ok_genes. run_cells.
  reflexivity.
Qed.

Lemma empty_library_row_of_Y :
  nth_error (prenormalize EM_empty_library) 1 = Some ("s2"%string, [NaN; NaN]).
Proof.
  apply (empty_library_yields_nan_row EM_empty_library 1 "s2"%string [0; 0]).
  - reflexivity.
  - repeat constructor; lra.
  - simpl. lra.
Defined.

(** The claim C7 fails on the notebook: the library of sample s2 is empty,
    and the run completes, with NaN in the row of s2. *)
Lemma empty_library_raises_nothing :
  In ("s2"%string, [0; 0]) EM_empty_library
  /\ row_sum [0; 0] = 0
  /\ mrn 2 EM_empty_library meta_two_clones "A"%string
     = Ok [("s1"%string, [Fin 1; Fin 1]); ("s2"%string, [NaN; NaN])].
Proof.
  split; [right; now left |]. split; [simpl; lra | exact mrn_empty_library].
Qed.

Lemma missing_reference_scenario :
  mrn 3 EM_scenario meta_scenario "C"%string = Raise (KeyError "C"%string).
Proof.
  apply (missing_reference_raises_KeyError 3 EM_scenario meta_scenario "C"%string).
  simpl. intuition discriminate.
Defined.

Lemma scaling_scenario_preserves_tau :
  tau_stage 3 (scale_sample "a1"%string 2 EM_scenario) meta_scenario "A"%string
  = tau_stage 3 EM_scenario meta_scenario "A"%string.
Proof.
  apply (scaling_a_sample_preserves_tau
           3 EM_scenario meta_scenario "A"%string "a1"%string 2).
  lra.
Defined.

Lemma NoDup_scenario : NoDup (map fst EM_scenario).
Proof. repeat constructor; simpl; intuition discriminate. Qed.

Lemma scaling_scenario_scales_library :
  library_size (scale_sample "b1"%string 2 EM_scenario)
  = map (fun p => if String.eqb (fst p) "b1" then (fst p, 2 * snd p) else p)
        (library_size EM_scenario).
Proof.
  apply (scaling_a_sample_scales_its_library
           3 EM_scenario meta_scenario "A"%string "b1"%string 2).
  - lra.
  - exact NoDup_scenario.
  - simpl. tauto.
  - discriminate.
Defined.

Lemma els_scenario_scaled :
  els_of (scale_sample "b1"%string 2 EM_scenario) meta_scenario
         [("A"%string, Fin 1); ("B"%string, Fin (7 / 5))]
  = [("a1"%string, Fin 30); ("a2"%string, Fin 40);
     ("b1"%string, Fin 56); ("b2"%string, Fin 70)].
Proof. unfold els_of. run_cells. fin_eq. Qed.

Lemma geo_mean_of_four (s1 s2 s3 s4 : sample) (a b c d : R) :
  0 < a -> 0 < b -> 0 < c -> 0 < d ->
  geo_mean [(s1, Fin a); (s2, Fin b); (s3, Fin c); (s4, Fin d)]
  = Fin (exp ((ln a + ln b + ln c + ln d) / 4)).
Proof.
  intros Ha Hb Hc Hd.
  change [(s1, Fin a); (s2, Fin b); (s3, Fin c); (s4, Fin d)]
    with (map (fun p : string * R => (fst p, Fin (snd p)))
              [(s1, a); (s2, b); (s3, c); (s4, d)]).
  rewrite geo_mean_Fin.
  - unfold Spec.geometric_mean, Spec.mean. simpl. do 2 f_equal. field.
  - discriminate.
  - repeat constructor; assumption.
Qed.

(** The claim C8 fails on the notebook: the sample b1 is outside the
    reference clone A, doubling its counts leaves the taus as they were, and
    the geometric mean of the effective library sizes changes. *)
Lemma scaling_changes_geometric_mean :
  get meta_scenario "b1"%string <> Some "A"%string
  /\ tau_stage 3 EM_scenario meta_scenario "A"%string
     = Ok [("A"%string, Fin 1); ("B"%string, Fin (7 / 5))]
  /\ tau_stage 3 (scale_sample "b1"%string 2 EM_scenario) meta_scenario "A"%string
     = Ok [("A"%string, Fin 1); ("B"%string, Fin (7 / 5))]
  /\ geo_mean (els_of (scale_sample "b1"%string 2 EM_scenario) meta_scenario
                      [("A"%string, Fin 1); ("B"%string, Fin (7 / 5))])
     <> geo_mean (els_of EM_scenario meta_scenario
                         [("A"%string, Fin 1); ("B"%string, Fin (7 / 5))]).
Proof.
  split; [discriminate |]. split; [exact tau_stage_scenario |].
  split.
  - unfold tau_stage. rewrite prenormalize_scale by lra. exact tau_stage_scenario.
  - rewrite els_scenario, els_scenario_scaled.
    rewrite !geo_mean_of_four by lra.
    intro H. injection H as H. apply exp_inv in H.
    assert (E : ln 56 = ln 28) by lra.
    apply ln_inv in E; lra.
Qed.

(** The relative normalization factors need not have arithmetic mean 1:
    for libraries of sizes 1 and 4 in clones of the same composition they
    are 1/2 and 2, of geometric mean 1 and arithmetic mean 5/4. *)
Lemma tau_stage_depths :
  tau_stage 1 EM_depths meta_two_clones "A"%string
  = Ok [("A"%string, Fin 1); ("B"%string, Fin 1)].
Proof. unfold tau_stage. rewrite prenormalize_rows. run_cells. fin_eq. Qed.

Lemma els_depths :
  els_of EM_depths meta_two_clones [("A"%string, Fin 1); ("B"%string, Fin 1)]
  = [("s1"%string, Fin 1); ("s2"%string, Fin 4)].
Proof. unfold els_of. run_cells. fin_eq. Qed.

Lemma geo_mean_depths :
  geo_mean [("s1"%string, Fin 1); ("s2"%string, Fin 4)] = Fin 2.
Proof.
  change [("s1"%string, Fin 1); ("s2"%string, Fin 4)]
    with (map (fun p : string * R => (fst p, Fin (snd p)))
              [("s1"%string, 1); ("s2"%string, 4)]).
  rewrite geo_mean_Fin; [| discriminate | repeat constructor; simpl; lra].
  f_equal. unfold Spec.geometric_mean, Spec.mean. simpl.
  replace 4 with (2 * 2) by lra. rewrite ln_1, ln_mult by lra.
  replace ((0 + (ln 2 + ln 2 + 0)) / (1 + 1)) with (ln 2) by field.
  apply exp_ln. lra.
Qed.

Lemma arithmetic_mean_of_factors_not_one :
  pd_mean
    (map snd
         (relative_normalization_factor
            (els_of EM_depths meta_two_clones
                    [("A"%string, Fin 1); ("B"%string, Fin 1)])
            (geo_mean
               (els_of EM_depths meta_two_clones
                       [("A"%string, Fin 1); ("B"%string, Fin 1)]))))
  = Fin (5 / 4).
Proof.
  rewrite els_depths, geo_mean_depths. unfold pd_mean. run_cells. fin_eq.
Qed.

(** * Further properties of the cells *)

(** ** When the run completes, and what it raises *)

Lemma mapM_Raise {A B : Type} (f : A -> result B) (l : list A) (e : exn) :
  mapM f l = Raise e -> exists a, In a l /\ f a = Raise e.
Proof.
  induction l as [| a l IH]; simpl; [discriminate |].
  destruct (f a) as [b | e'] eqn:Ea; simpl.
  - destruct (mapM f l) as [bs | e'']; simpl; [discriminate |].
    intro H. injection H as ->. destruct (IH eq_refl) as [a' [Hin Ha']].
    exists a'. split; [now right | assumption].
  - intro H. injection H as ->. exists a. split; [now left | assumption].
Qed.

Lemma tau_clone_Raise (ngenes : nat) (meta_df : series clone) (Y : frame float)
      (yref : list float) (c : clone) (e : exn) :
  tau_clone ngenes (Y_clonal ngenes meta_df Y) yref c = Raise e ->
  e = KeyError c /\ ~ In c (groups meta_df Y).
Proof.
  unfold tau_clone. rewrite loc_Y_clonal.
  destruct (in_dec string_dec c (groups meta_df Y)); simpl; [discriminate |].
  intro H. injection H as <-. now split.
Qed.

Lemma mrn_tau_stage (ngenes : nat) (EM : frame R) (meta_df : series clone)
      (ref : clone) :
  mrn ngenes EM meta_df ref
  = match tau_stage ngenes EM meta_df ref with
    | Ok t =>
        Ok (mrn_counts EM
              (relative_normalization_factor
                 (els_of EM meta_df t) (geo_mean (els_of EM meta_df t))))
    | Raise e => Raise e
    end.
Proof. unfold mrn. destruct (tau_stage ngenes EM meta_df ref); reflexivity. Qed.

(** The loop over the clones on a matrix that has no row: every clone of
    the metadata has a row of NaN in [Y_clonal], so the loop completes when
    the reference clone is one of them. *)
Lemma tau_stage_of_no_row (ngenes : nat) (meta_df : series clone) (ref : clone) :
  In ref (map snd meta_df) ->
  tau_stage ngenes [] meta_df ref
  = Ok (map (fun g =>
               (g, np_median
                     (ratios ngenes (profile ngenes meta_df [] g)
                             (profile ngenes meta_df [] ref))))
            (clones meta_df)).
Proof.
  intro Href. unfold tau_stage, Y_ref. cbv zeta.
  change (prenormalize []) with (@nil (string * list float)).
  rewrite loc_Y_clonal, groups_of_no_row.
  destruct (in_dec string_dec ref (clones meta_df)) as [_ | C].
  2:{ exfalso. apply C. unfold clones. now rewrite In_sorted_unique. }
  simpl. unfold tau. apply mapM_total. intros g Hg.
  unfold tau_clone. rewrite loc_Y_clonal, groups_of_no_row.
  destruct (in_dec string_dec g (clones meta_df)); [reflexivity | contradiction].
Qed.

(** X1.  The run completes exactly when the reference clone is a clone of
    the metadata and either the expression matrix has no sample at all or
    every clone named in the metadata has a sample in it; nothing else in
    the counts can stop it. *)
Theorem mrn_completes_iff_clones_sampled :
  forall (ngenes : nat) (EM : frame R) (meta_df : series clone) (ref : clone),
    (exists out, mrn ngenes EM meta_df ref = Ok out) <->
    (In ref (map snd meta_df) /\
     (EM = [] \/
      forall g, In g (map snd meta_df) ->
                exists r, In r EM /\ get meta_df (fst r) = Some g)).
Proof.
  intros ngenes EM meta_df ref.
  assert (Hsampled : forall g,
            Spec.members meta_df EM g <> [] <->
            exists r, In r EM /\ get meta_df (fst r) = Some g).
  { intro g. unfold Spec.members. split.
    - intro Hne.
      destruct (filter (fun r => has_clone g (get meta_df (fst r))) EM)
        as [| r l] eqn:Ef; [contradiction |].
      assert (Hr : In r (r :: l)) by now left.
      rewrite <- Ef in Hr. apply filter_In in Hr. destruct Hr as [Hin Hc].
      exists r. split; [assumption |].
      destruct (get meta_df (fst r)) as [g' |]; simpl in Hc; [| discriminate].
      apply String.eqb_eq in Hc. now subst.
    - intros [r [Hin Hg]] E.
      assert (Hr : In r (filter (fun r => has_clone g (get meta_df (fst r))) EM)).
      { apply filter_In. split; [assumption |]. rewrite Hg. simpl.
        apply String.eqb_refl. }
      rewrite E in Hr. destruct Hr. }
  assert (Hcase : EM = [] \/ EM <> [])
    by (destruct EM; [now left | right; discriminate]).
  rewrite mrn_tau_stage. split.
  - intros [out Hout].
    destruct (tau_stage ngenes EM meta_df ref) as [t |] eqn:Et; [| discriminate].
    destruct (tau_stage_inv _ _ _ _ _ Et) as [Hrin _]. split.
    + eapply groups_in_meta, Hrin.
    + destruct Hcase as [HEM | HEM]; [now left | right].
      intros g Hg. apply Hsampled, (In_groups_members _ _ _ HEM).
      apply (tau_of_clone _ _ _ _ _ g Et). unfold clones.
      now rewrite In_sorted_unique.
  - intros [Href [HEM | Hall]].
    + subst EM. rewrite (tau_stage_of_no_row ngenes meta_df ref Href).
      eexists. reflexivity.
    + rewrite (tau_stage_total ngenes EM meta_df ref Href).
      * eexists. reflexivity.
      * intros g Hg. apply Hsampled. now apply Hall.
Qed.

(** X2.  When the reference clone has a sample but some clone of the
    metadata has none (all its samples were filtered out, say), the loop
    over the clones raises [KeyError] at such a clone, and no normalized
    count is produced. *)
Theorem unsampled_clone_raises_KeyError :
  forall (ngenes : nat) (EM : frame R) (meta_df : series clone) (ref g : clone),
    In ref (groups meta_df (prenormalize EM)) ->
    In g (map snd meta_df) ->
    ~ In g (groups meta_df (prenormalize EM)) ->
    exists c,
      mrn ngenes EM meta_df ref = Raise (KeyError c) /\
      In c (map snd meta_df) /\
      ~ In c (groups meta_df (prenormalize EM)).
Proof.
  intros ngenes EM meta_df ref g Href Hg Hno.
  rewrite mrn_tau_stage.
  destruct (tau_stage ngenes EM meta_df ref) as [t | e] eqn:Et.
  - exfalso. apply Hno. apply (tau_of_clone _ _ _ _ _ g Et).
    unfold clones. now rewrite In_sorted_unique.
  - unfold tau_stage, Y_ref in Et. cbv zeta in Et. rewrite loc_Y_clonal in Et.
    destruct (in_dec string_dec ref (groups meta_df (prenormalize EM)));
      [| contradiction].
    simpl in Et. unfold tau in Et. apply mapM_Raise in Et.
    destruct Et as [c [Hc Hraise]]. apply tau_clone_Raise in Hraise.
    destruct Hraise as [-> Hcno]. exists c. split; [reflexivity |].
    split; [| assumption].
    unfold clones in Hc. now rewrite In_sorted_unique in Hc.
Qed.

(** ** The rows of the result *)

Lemma mrn_counts_rows (EM : frame R) (meta_df : series clone) (t : series float)
      (gm : float) :
  mrn_counts EM (relative_normalization_factor (els_of EM meta_df t) gm)
  = map (fun r =>
           (fst r,
            map (fun x =>
                   fdiv (Fin x)
                        (fdiv (fmul match get meta_df (fst r) with
                                    | Some g =>
                                        match get t g with
                                        | Some v => v
                                        | None => NaN
                                        end
                                    | None => NaN
                                    end
                                    (Fin (row_sum (snd r))))
                              gm))
                (snd r)))
        EM.
Proof.
  unfold mrn_counts, relative_normalization_factor.
  rewrite els_of_rows, map_map. cbn [fst snd].
  rewrite combine_map_self, map_map. reflexivity.
Qed.

(** X3.  Whatever the counts, a completed run returns the samples of the
    expression matrix, in the same order, each with as many entries as it
    has counts. *)
Theorem mrn_keeps_samples_and_shape :
  forall (ngenes : nat) (EM : frame R) (meta_df : series clone) (ref : clone)
         (out : frame float),
    mrn ngenes EM meta_df ref = Ok out ->
    map fst out = map fst EM /\
    Forall2 (fun r o => List.length (snd o) = List.length (snd r)) EM out.
Proof.
  intros ngenes EM meta_df ref out. rewrite mrn_tau_stage.
  destruct (tau_stage ngenes EM meta_df ref) as [t |]; [| discriminate].
  intro H. injection H as <-. rewrite mrn_counts_rows. split.
  - rewrite map_map. reflexivity.
  - apply Forall2_map_self. intro r. cbn [snd]. now rewrite length_map.
Qed.

(** X4.  A sample that has no entry in the metadata raises nothing: it
    belongs to no clone, its effective library size is NaN, and its row of
    the result is NaN in every gene. *)
Theorem sample_without_clone_gets_nan_row :
  forall (ngenes : nat) (EM : frame R) (meta_df : series clone) (ref : clone)
         (out : frame float) (i : nat) (s : sample) (row : list R),
    mrn ngenes EM meta_df ref = Ok out ->
    nth_error EM i = Some (s, row) ->
    get meta_df s = None ->
    nth_error out i = Some (s, map (fun _ => NaN) row).
Proof.
  intros ngenes EM meta_df ref out i s row. rewrite mrn_tau_stage.
  destruct (tau_stage ngenes EM meta_df ref) as [t |]; [| discriminate].
  intros H Hi Hs. injection H as <-.
  rewrite mrn_counts_rows, nth_error_map, Hi. cbn [option_map fst snd].
  rewrite Hs. reflexivity.
Qed.

Lemma NoDup_unique (l : list string) : NoDup (unique l).
Proof.
  induction l as [| x l IH]; simpl; constructor.
  - rewrite filter_In. intros [_ H]. now rewrite String.eqb_refl in H.
  - now apply NoDup_filter.
Qed.

Lemma NoDup_sorted_unique (l : list string) : NoDup (sorted_unique l).
Proof.
  unfold sorted_unique.
  eapply Permutation_NoDup; [apply Permutation_sort | apply NoDup_unique].
Qed.

Lemma mapM_tau_keys (ngenes : nat) (Yc : frame float) (yref : list float)
      (l : list clone) (t : series float) :
  mapM (tau_clone ngenes Yc yref) l = Ok t -> map fst t = l.
Proof.
  intro H. apply mapM_Forall2 in H.
  induction H as [| c p l t Hc _ IH]; simpl; [reflexivity |].
  f_equal; [| exact IH]. unfold tau_clone in Hc.
  destruct (loc Yc c); simpl in Hc; [| discriminate]. now injection Hc as <-.
Qed.

(** X5.  A completed loop over the clones holds one tau for each clone of
    the metadata and no other: its labels are the distinct clones of the
    metadata, none twice, so a lookup by clone finds exactly the clones of
    the metadata. *)
Theorem tau_has_one_entry_per_clone :
  forall (ngenes : nat) (EM : frame R) (meta_df : series clone) (ref : clone)
         (t : series float),
    tau_stage ngenes EM meta_df ref = Ok t ->
    map fst t = clones meta_df /\
    NoDup (map fst t) /\
    forall g, In g (map snd meta_df) <-> exists v, get t g = Some v.
Proof.
  intros ngenes EM meta_df ref t Ht.
  destruct (tau_stage_inv _ _ _ _ _ Ht) as [_ Htau].
  assert (Hkeys : map fst t = clones meta_df) by (eapply mapM_tau_keys, Htau).
  split; [exact Hkeys |]. split.
  - rewrite Hkeys. apply NoDup_sorted_unique.
  - intro g. split.
    + intro Hg. eexists. apply (tau_of_clone _ _ _ _ _ g Ht).
      unfold clones. now rewrite In_sorted_unique.
    + intros [v Hv]. apply get_Some_In in Hv.
      assert (Hin : In g (map fst t)) by (apply in_map_iff; now exists (g, v)).
      rewrite Hkeys in Hin. unfold clones in Hin.
      now rewrite In_sorted_unique in Hin.
Qed.

(** ** Compositions: the rows of [Y] and the clonal averages *)

Lemma le_row_sum (row : list R) (x : R) :
  Forall (fun y => 0 <= y) row -> In x row -> x <= row_sum row.
Proof.
  induction 1 as [| y row Hy Hrow IH]; intros Hin; [destruct Hin |].
  pose proof (nonneg_sum row Hrow). simpl. destruct Hin as [-> | Hin].
  - lra.
  - specialize (IH Hin). lra.
Qed.

(** X6.  With counts that are not negative and a library that is not
    empty, every entry of the row of [Y] is a number between 0 and 1: the
    share of the gene in the reads of the sample. *)
Theorem prenormalized_counts_are_shares :
  forall (EM : frame R) (i : nat) (s : sample) (row : list R),
    nth_error EM i = Some (s, row) ->
    Forall (fun x => 0 <= x) row ->
    0 < row_sum row ->
    exists ys,
      nth_error (prenormalize EM) i = Some (s, map Fin ys) /\
      List.length ys = List.length row /\
      Forall (fun y => 0 <= y <= 1) ys.
Proof.
  intros EM i s row Hi Hrow Hsum. exists (Spec.Y_row row). split; [| split].
  - rewrite (nth_error_prenormalize _ _ _ _ Hi). do 2 f_equal.
    unfold Spec.Y_row. rewrite map_map. apply map_ext. intro x.
    apply fdiv_fin. lra.
  - unfold Spec.Y_row. apply length_map.
  - unfold Spec.Y_row. apply Forall_map, Forall_forall. intros x Hx.
    pose proof (le_row_sum row x Hrow Hx) as Hle.
    rewrite Forall_forall in Hrow. specialize (Hrow x Hx). simpl in Hrow.
    split.
    + apply Rmult_le_pos; [exact Hrow |]. left. now apply Rinv_0_lt_compat.
    + apply (Rmult_le_reg_r (row_sum row)); [exact Hsum |].
      unfold Rdiv. rewrite Rmult_assoc, Rinv_l by lra. lra.
Qed.

Lemma row_sum_plus {A : Type} (f h : A -> R) (l : list A) :
  row_sum (map (fun a => f a + h a) l) = row_sum (map f l) + row_sum (map h l).
Proof. induction l as [| a l IH]; simpl; [ring | rewrite IH; ring]. Qed.

Lemma row_sum_exchange {A B : Type} (f : A -> B -> R) (la : list A) (lb : list B) :
  row_sum (map (fun a => row_sum (map (f a) lb)) la)
  = row_sum (map (fun b => row_sum (map (fun a => f a b) la)) lb).
Proof.
  induction la as [| a la IH]; simpl.
  - induction lb as [| b lb IHb]; simpl; [reflexivity | rewrite <- IHb; ring].
  - rewrite IH. symmetry. apply (row_sum_plus (f a)).
Qed.

Lemma row_sum_const {A : Type} (c : R) (l : list A) :
  row_sum (map (fun _ => c) l) = INR (List.length l) * c.
Proof.
  induction l as [| a l IH]; [simpl; ring |].
  change (List.length (a :: l)) with (S (List.length l)). rewrite S_INR.
  simpl. rewrite IH. ring.
Qed.

Lemma map_nth_seq (row : list R) :
  map (fun j => nth j row 0) (seq 0 (List.length row)) = row.
Proof.
  induction row as [| x row IH]; [reflexivity |].
  simpl. f_equal. rewrite <- seq_shift, map_map. exact IH.
Qed.

Lemma row_sum_Y_row (row : list R) :
  row_sum row <> 0 -> row_sum (Spec.Y_row row) = 1.
Proof.
  intro H. unfold Spec.Y_row. rewrite row_sum_div. now field.
Qed.

Lemma group_profile_sums_to_one (ngenes : nat) (meta_df : series clone)
      (EM : frame R) (g : clone) :
  well_shaped ngenes EM -> libs_nonzero EM ->
  Spec.members meta_df EM g <> [] ->
  row_sum (Spec.group_profile ngenes meta_df EM g) = 1.
Proof.
  intros Hshape Hlibs Hne. unfold Spec.group_profile.
  set (M := Spec.members meta_df EM g) in *.
  assert (E : map (fun j => Spec.mean
                              (column 0 j (map (fun r : string * list R =>
                                                  Spec.Y_row (snd r)) M)))
                  (seq 0 ngenes)
              = map (fun x => x / INR (List.length M))
                    (map (fun j => row_sum
                                     (map (fun r : string * list R =>
                                             nth j (Spec.Y_row (snd r)) 0) M))
                         (seq 0 ngenes))).
  { rewrite map_map. apply map_ext. intro j. unfold Spec.mean, column.
    now rewrite map_map, length_map. }
  rewrite E, row_sum_div.
  rewrite <- (row_sum_exchange
                (fun (r : string * list R) j => nth j (Spec.Y_row (snd r)) 0)).
  erewrite map_ext_in.
  - rewrite (row_sum_const 1 M). field. apply not_0_INR.
    destruct M; [contradiction | discriminate].
  - intros r Hr. unfold M, Spec.members in Hr. apply filter_In in Hr.
    destruct Hr as [Hr _].
    unfold well_shaped in Hshape. unfold libs_nonzero in Hlibs.
    rewrite Forall_forall in Hshape, Hlibs.
    replace ngenes with (List.length (Spec.Y_row (snd r)))
      by (unfold Spec.Y_row; rewrite length_map; now apply Hshape).
    rewrite map_nth_seq. apply row_sum_Y_row. now apply Hlibs.
Qed.

(** X7.  On a matrix with at least one sample and no empty library, every
    row of [Y_clonal], the reference sample among them, is again a
    composition: its entries sum to 1. *)
Theorem clonal_averages_sum_to_one :
  forall (ngenes : nat) (EM : frame R) (meta_df : series clone) (g : clone),
    well_shaped ngenes EM ->
    EM <> [] ->
    libs_nonzero EM ->
    In g (groups meta_df (prenormalize EM)) ->
    exists gp,
      loc (Y_clonal ngenes meta_df (prenormalize EM)) g = Ok gp /\
      List.length gp = ngenes /\
      fsum gp = Fin 1.
Proof.
  intros ngenes EM meta_df g Hshape HEM Hlibs Hg.
  pose proof (proj1 (In_groups_members meta_df EM g HEM) Hg) as Hm.
  exists (map Fin (Spec.group_profile ngenes meta_df EM g)). split; [| split].
  - rewrite loc_Y_clonal.
    destruct (in_dec string_dec g (groups meta_df (prenormalize EM)));
      [| contradiction].
    now rewrite (profile_finite _ _ _ _ Hshape Hlibs Hm).
  - rewrite length_map. apply length_group_profile.
  - rewrite fsum_fin. f_equal. now apply group_profile_sums_to_one.
Qed.

(** ** The run on a well-formed input *)

Section WellFormedRun.
Variables (ngenes : nat) (EM : frame R) (meta_df : series clone) (ref : clone).
Hypothesis wf : well_formed_input ngenes EM meta_df ref.

Let E := Spec.effective_lib_size ngenes meta_df EM ref.
Let G := Spec.geometric_mean (map E EM).

Let t0 : series float :=
  map (fun g =>
         (g, np_median
               (ratios ngenes
                       (profile ngenes meta_df (prenormalize EM) g)
                       (profile ngenes meta_df (prenormalize EM) ref))))
      (clones meta_df).

Lemma wf_tau_stage : tau_stage ngenes EM meta_df ref = Ok t0.
Proof.
  destruct wf as [_ [_ [_ [_ [Hs [Hr _]]]]]]. now apply tau_stage_total.
Qed.

Lemma wf_tau (g : clone) :
  In g (map snd meta_df) ->
  np_median (ratios ngenes (profile ngenes meta_df (prenormalize EM) g)
                    (profile ngenes meta_df (prenormalize EM) ref))
  = Fin (Spec.tau ngenes meta_df EM ref g) /\
  0 < Spec.tau ngenes meta_df EM ref g.
Proof.
  destruct wf as [H1 [H2 [H3 [_ [H5 [H6 H7]]]]]]. intro Hg.
  now apply tau_value_positive.
Qed.

Lemma wf_nonempty : EM <> [].
Proof.
  destruct wf as [_ [_ [_ [_ [Hs [Hr _]]]]]]. intro C.
  apply (Hs ref Hr). now rewrite C.
Qed.

Lemma wf_row (r : string * list R) :
  In r EM ->
  0 < row_sum (snd r) /\
  get meta_df (fst r) = Some (Spec.clone_of meta_df (fst r)) /\
  In (Spec.clone_of meta_df (fst r)) (map snd meta_df) /\
  0 < Spec.tau ngenes meta_df EM ref (Spec.clone_of meta_df (fst r)) /\
  0 < E r.
Proof.
  destruct wf as [_ [_ [Hlibs [Hmeta _]]]]. intro Hr.
  rewrite Forall_forall in Hlibs, Hmeta.
  specialize (Hlibs r Hr). specialize (Hmeta r Hr). simpl in Hlibs.
  assert (Hc : get meta_df (fst r) = Some (Spec.clone_of meta_df (fst r))).
  { unfold Spec.clone_of. destruct (get meta_df (fst r)); [reflexivity | contradiction]. }
  assert (Hin : In (Spec.clone_of meta_df (fst r)) (map snd meta_df)).
  { apply get_Some_In in Hc. apply in_map_iff.
    now exists (fst r, Spec.clone_of meta_df (fst r)). }
  destruct (wf_tau _ Hin) as [_ Hpos].
  repeat split; try assumption.
  unfold E, Spec.effective_lib_size. now apply Rmult_lt_0_compat.
Qed.

Lemma wf_els :
  els_of EM meta_df t0
  = map (fun p => (fst p, Fin (snd p))) (map (fun r => (fst r, E r)) EM).
Proof.
  rewrite els_of_rows, map_map. apply map_ext_in. intros r Hr.
  cbn [fst snd]. f_equal.
  destruct (wf_row r Hr) as [_ [Hc [Hin _]]]. rewrite Hc. unfold t0.
  rewrite get_map_key.
  destruct (in_dec string_dec (Spec.clone_of meta_df (fst r)) (clones meta_df))
    as [_ | C].
  - destruct (wf_tau _ Hin) as [-> _]. reflexivity.
  - exfalso. apply C. unfold clones. now rewrite In_sorted_unique.
Qed.

Lemma wf_geo_mean : geo_mean (els_of EM meta_df t0) = Fin G.
Proof.
  rewrite wf_els, geo_mean_Fin.
  - unfold G. now rewrite map_map.
  - intro C. apply map_eq_nil in C. now apply wf_nonempty.
  - apply Forall_map, Forall_forall. intros r Hr. cbn [snd]. now apply wf_row.
Qed.

Lemma wf_G_pos : 0 < G.
Proof. apply geometric_mean_pos. Qed.

(** The result on a well-formed input, entry by entry. *)
Lemma wf_mrn :
  mrn ngenes EM meta_df ref
  = Ok (map (fun r => (fst r, map (fun x => Fin (x / (E r / G))) (snd r))) EM).
Proof.
  rewrite mrn_tau_stage, wf_tau_stage, wf_geo_mean, wf_els.
  rewrite relative_normalization_factor_Fin by apply Rgt_not_eq, wf_G_pos.
  rewrite !map_map. cbn [fst snd].
  rewrite (mrn_counts_Fin EM (fun r => E r / G)); [reflexivity |].
  intros r Hr. apply Rgt_not_eq, Rdiv_lt_0_compat;
    [now apply wf_row | apply wf_G_pos].
Qed.

End WellFormedRun.

Lemma well_formed_scenario :
  well_formed_input 3 EM_scenario meta_scenario "A"%string.
Proof.
  split; [exact well_shaped_scenario |].
  split; [exact nonneg_scenario |].
  split; [exact libraries_scenario |].
  split; [repeat constructor; discriminate |].
  split; [exact sampled_scenario |].
  split; [now left |].
  intros g Hg. rewrite (ok_genes_scenario g Hg). discriminate.
Qed.

Lemma Forall2_map_self_in {A B : Type} (P : A -> B -> Prop) (f : A -> B)
      (l : list A) :
  (forall a, In a l -> P a (f a)) -> Forall2 P l (map f l).
Proof.
  induction l as [| a l IH]; intro H; simpl; constructor.
  - apply H. now left.
  - apply IH. intros b Hb. apply H. now right.
Qed.

(** X8.  On a well-formed input the normalized counts of a sample add up to
    the geometric mean of the effective library sizes divided by the tau of
    its clone: the samples of one clone all get the same normalized library
    size, whatever their sequencing depths. *)
Theorem normalized_library_sizes :
  forall (ngenes : nat) (EM : frame R) (meta_df : series clone) (ref : clone),
    well_formed_input ngenes EM meta_df ref ->
    exists out,
      mrn ngenes EM meta_df ref = Ok out /\
      Forall2
        (fun r o =>
           fst o = fst r /\
           fsum (snd o)
           = Fin (Spec.geometric_mean
                    (map (Spec.effective_lib_size ngenes meta_df EM ref) EM)
                  / Spec.tau ngenes meta_df EM ref (Spec.clone_of meta_df (fst r))))
        EM out.
Proof.
  intros ngenes EM meta_df ref Hwf. eexists. split; [apply wf_mrn, Hwf |].
  apply Forall2_map_self_in. intros r Hr. cbn [fst snd].
  split; [reflexivity |].
  destruct (wf_row _ _ _ _ Hwf r Hr) as [HL [_ [_ [Ht He]]]].
  pose proof (geometric_mean_pos
                (map (Spec.effective_lib_size ngenes meta_df EM ref) EM)) as HG.
  rewrite <- (map_map (fun x => x / _) Fin), fsum_fin, row_sum_div.
  apply f_equal. unfold Spec.effective_lib_size, sample in *.
  field. repeat split; apply Rgt_not_eq; assumption.
Qed.

Lemma normalized_library_sizes_scenario :
  exists out,
    mrn 3 EM_scenario meta_scenario "A"%string = Ok out /\
    Forall2
      (fun r o =>
         fst o = fst r /\
         fsum (snd o)
         = Fin (Spec.geometric_mean
                  (map (Spec.effective_lib_size 3 meta_scenario EM_scenario "A"%string)
                       EM_scenario)
                / Spec.tau 3 meta_scenario EM_scenario "A"%string
                           (Spec.clone_of meta_scenario (fst r))))
      EM_scenario out.
Proof.
  apply (normalized_library_sizes 3 EM_scenario meta_scenario "A"%string).
  exact well_formed_scenario.
Defined.

(** ** Sequencing depth *)

Lemma geometric_mean_mult {A : Type} (a b : A -> R) (l : list A) :
  (forall x, In x l -> 0 < a x /\ 0 < b x) ->
  Spec.geometric_mean (map (fun x => a x * b x) l)
  = Spec.geometric_mean (map a l) * Spec.geometric_mean (map b l).
Proof.
  intro Hpos. unfold Spec.geometric_mean, Spec.mean.
  rewrite <- exp_plus. f_equal. rewrite !map_map, !length_map.
  assert (Hs : row_sum (map (fun x => ln (a x * b x)) l)
               = row_sum (map (fun x => ln (a x)) l)
                 + row_sum (map (fun x => ln (b x)) l)).
  { rewrite <- row_sum_plus. f_equal. apply map_ext_in. intros x Hx.
    destruct (Hpos x Hx). now apply ln_mult. }
  rewrite Hs. unfold Rdiv. ring.
Qed.

Section Rescale.
Variables (ngenes : nat) (EM : frame R) (meta_df : series clone) (ref : clone).
Variable c : string * list R -> R.
Hypothesis wf : well_formed_input ngenes EM meta_df ref.
Hypothesis c_pos : forall r, In r EM -> 0 < c r.

Lemma prenormalize_rescale : prenormalize (rescale c EM) = prenormalize EM.
Proof.
  rewrite !prenormalize_rows. unfold rescale. rewrite map_map.
  apply map_ext_in. intros r Hr. cbn [fst snd]. f_equal.
  rewrite map_map, row_sum_scale. apply map_ext. intro x.
  apply fdiv_scale. now apply c_pos.
Qed.

Lemma members_rescale (g : clone) :
  Spec.members meta_df (rescale c EM) g = rescale c (Spec.members meta_df EM g).
Proof.
  unfold Spec.members, rescale. now rewrite filter_map_comm.
Qed.

Lemma wf_rescale : well_formed_input ngenes (rescale c EM) meta_df ref.
Proof.
  destruct wf as [H1 [H2 [H3 [H4 [H5 [H6 H7]]]]]].
  unfold well_shaped, nonneg_counts in *.
  rewrite Forall_forall in H1, H2, H3, H4.
  repeat split.
  - unfold well_shaped, rescale. apply Forall_map, Forall_forall.
    intros r Hr. cbn [snd]. rewrite length_map. now apply H1.
  - unfold nonneg_counts, rescale. apply Forall_map, Forall_forall.
    intros r Hr. cbn [snd]. apply Forall_map.
    specialize (H2 r Hr). simpl in H2. eapply Forall_impl; [| exact H2].
    intros x Hx. simpl in *. apply Rmult_le_pos; [| exact Hx].
    left. now apply c_pos.
  - unfold rescale. apply Forall_map, Forall_forall. intros r Hr. cbn [snd].
    rewrite row_sum_scale. apply Rmult_lt_0_compat; [now apply c_pos |].
    now apply (H3 r Hr).
  - unfold rescale. apply Forall_map, Forall_forall. intros r Hr.
    cbn [fst]. now apply (H4 r Hr).
  - intros g Hg. rewrite members_rescale. unfold rescale. intro C.
    apply map_eq_nil in C. now apply (H5 g Hg).
  - exact H6.
  - intros g Hg. rewrite prenormalize_rescale. now apply H7.
Qed.

Lemma tau_rescale (g : clone) :
  In g (map snd meta_df) ->
  Spec.tau ngenes meta_df (rescale c EM) ref g = Spec.tau ngenes meta_df EM ref g.
Proof.
  intro Hg.
  destruct (wf_tau _ _ _ _ wf g Hg) as [H _].
  destruct (wf_tau _ _ _ _ wf_rescale g Hg) as [H' _].
  rewrite prenormalize_rescale, H in H'. now injection H'.
Qed.

Lemma els_rescale (r : string * list R) :
  In r EM ->
  Spec.effective_lib_size ngenes meta_df (rescale c EM) ref
                          (fst r, map (Rmult (c r)) (snd r))
  = c r * Spec.effective_lib_size ngenes meta_df EM ref r.
Proof.
  intro Hr. unfold Spec.effective_lib_size. cbn [fst snd].
  destruct (wf_row _ _ _ _ wf r Hr) as [_ [_ [Hin _]]].
  rewrite (tau_rescale _ Hin), row_sum_scale. ring.
Qed.

Lemma map_rescale {B : Type} (F : string * list R -> B) :
  map F (rescale c EM) = map (fun r => F (fst r, map (Rmult (c r)) (snd r))) EM.
Proof. unfold rescale. apply map_map. Qed.

Lemma geometric_mean_rescale :
  Spec.geometric_mean
    (map (Spec.effective_lib_size ngenes meta_df (rescale c EM) ref) (rescale c EM))
  = Spec.geometric_mean (map c EM)
    * Spec.geometric_mean
        (map (Spec.effective_lib_size ngenes meta_df EM ref) EM).
Proof.
  rewrite <- geometric_mean_mult.
  - f_equal. rewrite map_rescale. apply map_ext_in.
    intros r Hr. now apply els_rescale.
  - intros r Hr. split; [now apply c_pos | now apply (wf_row _ _ _ _ wf r Hr)].
Qed.

Lemma mrn_rescale :
  mrn ngenes (rescale c EM) meta_df ref
  = Ok (map (fun r =>
               (fst r,
                map (fun x =>
                       Fin (Spec.geometric_mean (map c EM)
                            * (x / (Spec.effective_lib_size ngenes meta_df EM ref r
                                    / Spec.geometric_mean
                                        (map (Spec.effective_lib_size
                                                ngenes meta_df EM ref) EM)))))
                    (snd r)))
            EM).
Proof.
  rewrite (wf_mrn _ _ _ _ wf_rescale), geometric_mean_rescale. apply f_equal.
  rewrite map_rescale. apply map_ext_in. intros r Hr.
  cbn [fst snd]. apply f_equal2; [reflexivity |].
  rewrite map_map. apply map_ext. intro x.
  rewrite (els_rescale r Hr). apply f_equal.
  pose proof (c_pos r Hr) as Hc.
  destruct (wf_row _ _ _ _ wf r Hr) as [_ [_ [_ [_ He]]]].
  pose proof (geometric_mean_pos (map c EM)) as Hgc.
  pose proof (geometric_mean_pos
                (map (Spec.effective_lib_size ngenes meta_df EM ref) EM)) as HG.
  unfold sample in *. field. repeat split; apply Rgt_not_eq; assumption.
Qed.

End Rescale.

(** X9.  On a well-formed input, multiplying the counts of each sample by
    a positive factor of its own (a different sequencing depth for every
    sample) multiplies the whole result by one number, the geometric mean of
    the factors: the depths of the single samples are normalized away. *)
Theorem sequencing_depth_is_normalized_away :
  forall (ngenes : nat) (EM : frame R) (meta_df : series clone) (ref : clone)
         (c : string * list R -> R),
    well_formed_input ngenes EM meta_df ref ->
    (forall r, In r EM -> 0 < c r) ->
    exists out,
      mrn ngenes EM meta_df ref = Ok out /\
      mrn ngenes (rescale c EM) meta_df ref
      = Ok (map (fun o =>
                   (fst o, map (fmul (Fin (Spec.geometric_mean (map c EM)))) (snd o)))
                out).
Proof.
  intros ngenes EM meta_df ref c Hwf Hc. eexists.
  split; [apply wf_mrn, Hwf |].
  rewrite (mrn_rescale _ _ _ _ c Hwf Hc), map_map. apply f_equal.
  apply map_ext. intro r. cbn [fst snd]. apply f_equal2; [reflexivity |].
  now rewrite map_map.
Qed.

Lemma sequencing_depth_scenario :
  exists out,
    mrn 3 EM_scenario meta_scenario "A"%string = Ok out /\
    mrn 3 (rescale (fun r => 1 + row_sum (snd r)) EM_scenario)
        meta_scenario "A"%string
    = Ok (map (fun o =>
                 (fst o,
                  map (fmul (Fin (Spec.geometric_mean
                                    (map (fun r => 1 + row_sum (snd r)) EM_scenario))))
                      (snd o)))
              out).
Proof.
  apply (sequencing_depth_is_normalized_away
           3 EM_scenario meta_scenario "A"%string).
  - exact well_formed_scenario.
  - intros r Hr.
    pose proof libraries_scenario as H. rewrite Forall_forall in H.
    specialize (H r Hr). simpl in H. lra.
Defined.

(** ** Normalizing twice *)

Lemma geometric_mean_inv (l : list R) :
  Forall (fun x => 0 < x) l ->
  Spec.geometric_mean (map Rinv l) = / Spec.geometric_mean l.
Proof.
  intro Hpos. unfold Spec.geometric_mean, Spec.mean.
  rewrite <- exp_Ropp. f_equal. rewrite !length_map.
  assert (Hs : row_sum (map ln (map Rinv l)) = - row_sum (map ln l)).
  { induction Hpos as [| x l Hx _ IH]; simpl; [ring |].
    rewrite IH, ln_Rinv by assumption. ring. }
  rewrite Hs. unfold Rdiv. ring.
Qed.

(** X10.  Normalizing is idempotent: on a well-formed input, the normalized
    counts, read as counts and normalized again with the same metadata and
    reference, come back unchanged. *)
Theorem mrn_is_idempotent :
  forall (ngenes : nat) (EM : frame R) (meta_df : series clone) (ref : clone),
    well_formed_input ngenes EM meta_df ref ->
    exists out,
      mrn ngenes EM meta_df ref = Ok out /\
      mrn ngenes (counts_of out) meta_df ref = Ok out.
Proof.
  intros ngenes EM meta_df ref Hwf.
  set (E := Spec.effective_lib_size ngenes meta_df EM ref).
  set (G := Spec.geometric_mean (map E EM)).
  assert (HG : 0 < G) by apply geometric_mean_pos.
  assert (HE : forall r, In r EM -> 0 < E r).
  { intros r Hr. now apply (wf_row _ _ _ _ Hwf r Hr). }
  assert (Hc : forall r, In r EM -> 0 < / (E r / G)).
  { intros r Hr. apply Rinv_0_lt_compat, Rdiv_lt_0_compat; [now apply HE | exact HG]. }
  eexists. split; [apply wf_mrn, Hwf |]. fold E G.
  assert (Hcounts :
            counts_of (map (fun r => (fst r, map (fun x => Fin (x / (E r / G))) (snd r)))
                           EM)
            = rescale (fun r => / (E r / G)) EM).
  { unfold counts_of, rescale. rewrite map_map. apply map_ext. intro r.
    cbn [fst snd]. apply f_equal2; [reflexivity |]. rewrite map_map.
    apply map_ext. intro x. simpl. unfold Rdiv. ring. }
  rewrite Hcounts, (mrn_rescale _ _ _ _ _ Hwf Hc). fold E G. apply f_equal.
  assert (Hone : Spec.geometric_mean (map (fun r => / (E r / G)) EM) = 1).
  { rewrite <- (map_map (fun r => E r / G) Rinv).
    rewrite geometric_mean_inv.
    - rewrite <- (map_map E (fun x => x / G)). unfold G.
      rewrite geometric_mean_normalized.
      + field.
      + intro C. apply map_eq_nil in C. now apply (wf_nonempty _ _ _ _ Hwf).
      + apply Forall_map, Forall_forall. exact HE.
    - apply Forall_map, Forall_forall. intros r Hr.
      apply Rdiv_lt_0_compat; [now apply HE | exact HG]. }
  rewrite Hone. apply map_ext. intro r. apply f_equal2; [reflexivity |].
  apply map_ext. intro x. f_equal. ring.
Qed.

Lemma mrn_is_idempotent_scenario :
  exists out,
    mrn 3 EM_scenario meta_scenario "A"%string = Ok out /\
    mrn 3 (counts_of out) meta_scenario "A"%string = Ok out.
Proof.
  apply (mrn_is_idempotent 3 EM_scenario meta_scenario "A"%string).
  exact well_formed_scenario.
Defined.

(** ** The clonal averages of the normalized counts *)

Lemma Sorted_map_scale (k : R) (s : list R) :
  0 < k -> Sorted Rle s -> Sorted Rle (map (fun x => x * k) s).
Proof.
  intros Hk. induction 1 as [| a s Hs IH Hhd]; simpl; constructor.
  - exact IH.
  - destruct Hhd as [| b s' Hab]; simpl; constructor. nra.
Qed.

Lemma nth_map_scale (k : R) (s : list R) (j : nat) :
  nth j (map (fun x => x * k) s) 0 = nth j s 0 * k.
Proof.
  rewrite <- (map_nth (fun x => x * k) s 0 j). f_equal. ring.
Qed.

Lemma median_scale (k : R) (l : list R) :
  0 < k -> l <> [] ->
  Spec.median (map (fun x => x * k) l) = Spec.median l * k.
Proof.
  intros Hk Hl.
  apply (is_median_unique (map (fun x => x * k) l)).
  - apply median_is_median. intro C. apply map_eq_nil in C. contradiction.
  - split; [intro C; apply map_eq_nil in C; contradiction |].
    exists (map (fun x => x * k) (sort Rleb l)).
    split; [apply Permutation_map, Permutation_sort |].
    split; [apply Sorted_map_scale; [exact Hk | apply Sorted_sort] |].
    unfold Spec.median. cbv zeta. rewrite length_map, !nth_map_scale.
    destruct (Nat.even (List.length (sort Rleb l))); field.
Qed.

Lemma groups_by_labels (meta_df : series clone) (X Y : frame float) :
  map fst X = map fst Y -> groups meta_df X = groups meta_df Y.
Proof.
  intro H. unfold groups. f_equal.
  destruct X as [| x X'], Y as [| y Y']; try discriminate; [reflexivity |].
  rewrite !assign_clone_nonempty by discriminate.
  set (X := x :: X') in *. set (Y := y :: Y') in *.
  unfold clone_labels.
  rewrite !flat_map_concat_map, !map_map. cbn [fst]. f_equal.
  rewrite <- (map_map fst (fun s => match get meta_df s with
                                    | Some g => [g]
                                    | None => []
                                    end) X).
  rewrite <- (map_map fst (fun s => match get meta_df s with
                                    | Some g => [g]
                                    | None => []
                                    end) Y).
  now rewrite H.
Qed.

Lemma pd_mean_of_Fin (v : list R) :
  v <> [] -> pd_mean (map Fin v) = Fin (Spec.mean v).
Proof.
  intro Hv. rewrite (pd_mean_Fin _ v (filter_notnan_Fin v)).
  destruct v; [contradiction | reflexivity].
Qed.

(** The clonal averages of a frame of finite values. *)
Lemma profile_of_finite (ngenes : nat) (meta_df : series clone) (F : frame R)
      (g : clone) :
  Spec.members meta_df F g <> [] ->
  profile ngenes meta_df (map (fun r => (fst r, map Fin (snd r))) F) g
  = map (fun j =>
           pd_mean (map (fun r => nth j (map Fin (snd r)) NaN)
                        (Spec.members meta_df F g)))
        (seq 0 ngenes).
Proof.
  intro Hne. unfold profile. cbv zeta.
  rewrite assign_clone_nonempty
    by (intro C; apply map_eq_nil in C; now apply (members_nonempty meta_df F g)).
  rewrite map_map. cbn [fst snd].
  rewrite (filter_map_comm
             (fun r : string * list R => (get meta_df (fst r), map Fin (snd r)))
             (fun r => has_clone g (fst r))).
  cbn [fst]. fold (Spec.members meta_df F g). rewrite map_map. cbn [snd].
  apply map_ext. intro j. unfold column. now rewrite map_map.
Qed.

Section NormalizedAverages.
Variables (ngenes : nat) (EM : frame R) (meta_df : series clone) (ref : clone).
Hypothesis wf : well_formed_input ngenes EM meta_df ref.

Let E := Spec.effective_lib_size ngenes meta_df EM ref.
Let G := Spec.geometric_mean (map E EM).
Let out : frame float :=
  map (fun r => (fst r, map (fun x => Fin (x / (E r / G))) (snd r))) EM.

Lemma wf_libs_nonzero : libs_nonzero EM.
Proof.
  destruct wf as [_ [_ [H _]]]. eapply Forall_impl; [| exact H].
  intros r Hr. simpl in Hr. lra.
Qed.

Lemma wf_groups (g : clone) :
  In g (map snd meta_df) -> In g (groups meta_df (prenormalize EM)).
Proof.
  destruct wf as [_ [_ [_ [_ [H _]]]]]. intro Hg.
  apply groups_of_members. now apply H.
Qed.

Lemma wf_profile (g : clone) :
  In g (map snd meta_df) ->
  profile ngenes meta_df (prenormalize EM) g
  = map Fin (Spec.group_profile ngenes meta_df EM g).
Proof.
  intro Hg. destruct wf as [H1 [_ [_ [_ [H5 _]]]]].
  apply profile_finite; [exact H1 | exact wf_libs_nonzero | now apply H5].
Qed.

Lemma wf_ratio_set_nonempty (g : clone) :
  In g (map snd meta_df) ->
  Spec.ratio_set ngenes (Spec.group_profile ngenes meta_df EM g)
                 (Spec.group_profile ngenes meta_df EM ref) <> [].
Proof.
  intro Hg. destruct wf as [_ [_ [_ [_ [_ [Href Hok]]]]]].
  specialize (Hok g Hg). rewrite (wf_profile g Hg), (wf_profile ref Href) in Hok.
  rewrite ok_genes_Fin in Hok by apply length_group_profile.
  unfold Spec.ratio_set. intro C. apply map_eq_nil in C. contradiction.
Qed.

Lemma wf_tau_ref : Spec.tau ngenes meta_df EM ref ref = 1.
Proof.
  destruct wf as [_ [_ [_ [_ [_ [Href _]]]]]]. unfold Spec.tau.
  apply (is_median_closed (fun x => x = 1)
           (Spec.ratio_set ngenes (Spec.group_profile ngenes meta_df EM ref)
                           (Spec.group_profile ngenes meta_df EM ref))).
  - intros a b -> ->. field.
  - apply ratio_set_self.
  - apply median_is_median. now apply wf_ratio_set_nonempty.
Qed.

(** The average over a clone of the normalized counts of a gene is the
    average of its shares, times [G / tau]. *)
Lemma normalized_profile (g : clone) :
  In g (map snd meta_df) ->
  profile ngenes meta_df out g
  = map Fin (map (fun p => p * (G / Spec.tau ngenes meta_df EM ref g))
                 (Spec.group_profile ngenes meta_df EM g)).
Proof.
  intro Hg. destruct wf as [Hshape [_ [_ [_ [Hs _]]]]].
  set (F := map (fun r : string * list R =>
                   (fst r, map (fun x => x / (E r / G)) (snd r))) EM).
  assert (Hout : out = map (fun r => (fst r, map Fin (snd r))) F).
  { unfold out, F. rewrite map_map. apply map_ext. intro r. cbn [fst snd].
    now rewrite map_map. }
  assert (HF : Spec.members meta_df F g
               = map (fun r : string * list R =>
                        (fst r, map (fun x => x / (E r / G)) (snd r)))
                     (Spec.members meta_df EM g)).
  { unfold Spec.members, F. now rewrite filter_map_comm. }
  rewrite Hout, profile_of_finite.
  2:{ rewrite HF. intro C. apply map_eq_nil in C. now apply (Hs g Hg). }
  rewrite HF, map_map. unfold Spec.group_profile. rewrite map_map.
  apply map_ext_in. intros j Hj. apply in_seq in Hj.
  rewrite map_map. cbn [snd].
  assert (Hcol : map (fun r : string * list R =>
                        nth j (map Fin (map (fun x => x / (E r / G)) (snd r))) NaN)
                     (Spec.members meta_df EM g)
                 = map Fin
                       (map (fun r : string * list R =>
                               nth j (Spec.Y_row (snd r)) 0
                               * (G / Spec.tau ngenes meta_df EM ref g))
                            (Spec.members meta_df EM g))).
  { rewrite map_map. apply map_ext_in. intros r Hr.
    unfold Spec.members in Hr. apply filter_In in Hr. destruct Hr as [Hr Hc].
    unfold well_shaped in Hshape. rewrite Forall_forall in Hshape.
    specialize (Hshape r Hr). simpl in Hshape.
    rewrite nth_map_Fin by (rewrite length_map; lia). apply f_equal.
    destruct (wf_row _ _ _ _ wf r Hr) as [HL [Hclone [_ [Ht He]]]].
    assert (Eg : Spec.clone_of meta_df (fst r) = g).
    { rewrite Hclone in Hc. simpl in Hc. now apply String.eqb_eq in Hc. }
    rewrite Eg in Ht.
    replace (map (fun x => x / (E r / G)) (snd r))
      with (map (fun x => x * (G / Spec.tau ngenes meta_df EM ref g))
                (Spec.Y_row (snd r))).
    - apply nth_map_scale.
    - unfold Spec.Y_row. rewrite map_map. apply map_ext. intro x.
      unfold E, Spec.effective_lib_size. rewrite Eg.
      pose proof (geometric_mean_pos (map E EM)) as HG. fold G in HG.
      unfold sample in *. field. repeat split; apply Rgt_not_eq; assumption. }
  rewrite Hcol.
  rewrite pd_mean_of_Fin
    by (intro C; apply map_eq_nil in C; now apply (Hs g Hg)).
  apply f_equal. unfold Spec.mean, column.
  rewrite !length_map, map_map.
  rewrite <- (map_map (fun r : string * list R => nth j (Spec.Y_row (snd r)) 0)
                      (fun y => y * (G / Spec.tau ngenes meta_df EM ref g))).
  assert (Hsc : forall (k : R) (l : list R),
             row_sum (map (fun y => y * k) l) = row_sum l * k).
  { intros k l. induction l as [| a l IH]; simpl; [ring | rewrite IH; ring]. }
  rewrite Hsc. unfold Rdiv. ring.
Qed.

End NormalizedAverages.

Lemma Reqb_scale (a k : R) : k <> 0 -> Reqb (a * k) 0 = Reqb a 0.
Proof.
  intro Hk. destruct (Req_dec_T a 0) as [Ha | Ha].
  - subst. rewrite !Reqb_true; [reflexivity | reflexivity | ring].
  - rewrite !Reqb_false; [reflexivity | assumption |].
    now apply Rmult_integral_contrapositive_currified.
Qed.

Lemma ratio_set_scale (ngenes : nat) (gp rp : list R) (kg kr : R) :
  kg <> 0 -> kr <> 0 ->
  Spec.ratio_set ngenes (map (fun x => x * kg) gp) (map (fun x => x * kr) rp)
  = map (fun x => x * (kg / kr)) (Spec.ratio_set ngenes gp rp).
Proof.
  intros Hg Hr. unfold Spec.ratio_set. rewrite map_map.
  assert (Hf : filter (Spec.ok_gene (map (fun x => x * kg) gp)
                                    (map (fun x => x * kr) rp)) (seq 0 ngenes)
               = filter (Spec.ok_gene gp rp) (seq 0 ngenes)).
  { apply filter_ext. intro j. unfold Spec.ok_gene.
    now rewrite !nth_map_scale, !Reqb_scale. }
  rewrite Hf. apply map_ext_in. intros j Hj. apply filter_In in Hj.
  destruct Hj as [_ Hj]. apply ok_gene_spec in Hj. destruct Hj as [_ Hj].
  rewrite !nth_map_scale. now field.
Qed.

(** X11.  On a well-formed input, the clonal averages of the normalized
    counts (the [y_clonal] of the sanity checks) are the rows of [Y_clonal]
    times the geometric mean of the effective library sizes over the tau of
    the clone; the median over the kept genes of their ratios to the row of
    the reference clone is exactly 1 for every clone: the median fold change
    that tau measured is gone. *)
Theorem normalized_clonal_averages_have_median_ratio_one :
  forall (ngenes : nat) (EM : frame R) (meta_df : series clone) (ref : clone),
    well_formed_input ngenes EM meta_df ref ->
    exists out,
      mrn ngenes EM meta_df ref = Ok out /\
      forall g, In g (map snd meta_df) ->
        exists yg yref,
          loc (Y_clonal ngenes meta_df out) g = Ok yg /\
          Y_ref (Y_clonal ngenes meta_df out) ref = Ok yref /\
          yg = map (fun p =>
                      fmul p
                           (Fin (Spec.geometric_mean
                                   (map (Spec.effective_lib_size
                                           ngenes meta_df EM ref) EM)
                                 / Spec.tau ngenes meta_df EM ref g)))
                   (profile ngenes meta_df (prenormalize EM) g) /\
          np_median (ratios ngenes yg yref) = Fin 1.
Proof.
  intros ngenes EM meta_df ref Hwf. eexists. split; [apply wf_mrn, Hwf |].
  intros g Hg.
  set (E := Spec.effective_lib_size ngenes meta_df EM ref).
  set (G := Spec.geometric_mean (map E EM)).
  set (out := map (fun r : string * list R =>
                     (fst r, map (fun x => Fin (x / (E r / G))) (snd r))) EM).
  assert (Href : In ref (map snd meta_df)) by apply Hwf.
  assert (Hgroups : groups meta_df out = groups meta_df (prenormalize EM)).
  { apply groups_by_labels. unfold out.
    rewrite prenormalize_rows, !map_map. reflexivity. }
  assert (HG : 0 < G) by apply geometric_mean_pos.
  destruct (wf_tau _ _ _ _ Hwf g Hg) as [_ Htg].
  pose proof (wf_tau_ref _ _ _ _ Hwf) as Htr.
  exists (profile ngenes meta_df out g), (profile ngenes meta_df out ref).
  split; [| split; [| split]].
  - rewrite loc_Y_clonal, Hgroups.
    destruct (in_dec string_dec g (groups meta_df (prenormalize EM))) as [_ | C];
      [reflexivity | exfalso; apply C; now apply (wf_groups _ _ _ _ Hwf)].
  - unfold Y_ref. rewrite loc_Y_clonal, Hgroups.
    destruct (in_dec string_dec ref (groups meta_df (prenormalize EM))) as [_ | C];
      [reflexivity | exfalso; apply C; now apply (wf_groups _ _ _ _ Hwf)].
  - unfold out, G, E. rewrite (normalized_profile _ _ _ _ Hwf g Hg).
    rewrite (wf_profile _ _ _ _ Hwf g Hg), !map_map. reflexivity.
  - unfold out, G, E.
    rewrite (normalized_profile _ _ _ _ Hwf g Hg),
            (normalized_profile _ _ _ _ Hwf ref Href).
    fold E G. rewrite ratios_Fin
      by (rewrite length_map; apply length_group_profile).
    rewrite ratio_set_scale
      by (apply Rgt_not_eq, Rdiv_lt_0_compat; [exact HG | lra]).
    pose proof (wf_ratio_set_nonempty _ _ _ _ Hwf g Hg) as Hne.
    rewrite np_median_Fin by (intro C; apply map_eq_nil in C; contradiction).
    apply f_equal. rewrite median_scale.
    + fold (Spec.tau ngenes meta_df EM ref g). rewrite Htr. field.
      split; apply Rgt_not_eq; assumption.
    + apply Rdiv_lt_0_compat; apply Rdiv_lt_0_compat; lra.
    + exact Hne.
Qed.

Lemma normalized_clonal_averages_scenario :
  exists out,
    mrn 3 EM_scenario meta_scenario "A"%string = Ok out /\
    forall g, In g (map snd meta_scenario) ->
      exists yg yref,
        loc (Y_clonal 3 meta_scenario out) g = Ok yg /\
        Y_ref (Y_clonal 3 meta_scenario out) "A"%string = Ok yref /\
        yg = map (fun p =>
                    fmul p
                         (Fin (Spec.geometric_mean
                                 (map (Spec.effective_lib_size
                                         3 meta_scenario EM_scenario "A"%string)
                                      EM_scenario)
                               / Spec.tau 3 meta_scenario EM_scenario "A"%string g)))
                 (profile 3 meta_scenario (prenormalize EM_scenario) g) /\
        np_median (ratios 3 yg yref) = Fin 1.
Proof.
  apply (normalized_clonal_averages_have_median_ratio_one
           3 EM_scenario meta_scenario "A"%string).
  exact well_formed_scenario.
Defined.

(** * Section 2 of the notebook *)

(** ** The excluded genes *)

Lemma existsb_eqb_In (k : string) (l : list string) :
  existsb (String.eqb k) l = true <-> In k l.
Proof.
  rewrite existsb_exists. split.
  - intros [x [Hx E]]. apply String.eqb_eq in E. now subst.
  - intro H. exists k. split; [assumption | apply String.eqb_refl].
Qed.

Lemma get_dict_set (d : list (string * string)) (k v k' : string) :
  get (dict_set d k v) k' = if String.eqb k k' then Some v else get d k'.
Proof.
  induction d as [| [a b] d IH]; simpl.
  - reflexivity.
  - destruct (String.eqb_spec a k) as [E | E]; simpl.
    + subst a. destruct (String.eqb_spec k k'); reflexivity.
    + rewrite IH. destruct (String.eqb_spec a k') as [E' | E']; [| reflexivity].
      subst a. destruct (String.eqb_spec k k'); [congruence | reflexivity].
Qed.

Lemma In_keys_dict_set (d : list (string * string)) (k v k' : string) :
  In k' (map fst (dict_set d k v)) <-> k' = k \/ In k' (map fst d).
Proof.
  induction d as [| [a b] d IH]; simpl.
  - intuition.
  - destruct (String.eqb_spec a k) as [E | E]; simpl.
    + subst a. intuition.
    + rewrite IH. intuition.
Qed.

Lemma NoDup_dict_set (d : list (string * string)) (k v : string) :
  NoDup (map fst d) -> NoDup (map fst (dict_set d k v)).
Proof.
  induction d as [| [a b] d IH]; simpl; intro H.
  - repeat constructor. intros [].
  - apply NoDup_cons_iff in H. destruct H as [Hn Hd].
    destruct (String.eqb_spec a k) as [E | E]; simpl.
    + now constructor.
    + constructor; [| now apply IH].
      rewrite In_keys_dict_set. intros [C | C]; [now subst | contradiction].
Qed.

Lemma get_app {A : Type} (l1 l2 : list (string * A)) (k : string) :
  get (l1 ++ l2) k = match get l1 k with Some v => Some v | None => get l2 k end.
Proof.
  induction l1 as [| [a b] l1 IH]; simpl; [reflexivity |].
  destruct (String.eqb a k); [reflexivity | exact IH].
Qed.

Lemma get_fold_dict_set (l acc : list (string * string)) (k : string) :
  get (fold_left (fun d kv => dict_set d (fst kv) (snd kv)) l acc) k
  = match get (rev l) k with Some v => Some v | None => get acc k end.
Proof.
  revert acc. induction l as [| [a b] l IH]; intro acc; simpl; [reflexivity |].
  rewrite IH, get_app, get_dict_set. simpl.
  destruct (get (rev l) k); [reflexivity |].
  destruct (String.eqb a k); reflexivity.
Qed.

Lemma NoDup_fold_dict_set (l acc : list (string * string)) :
  NoDup (map fst acc) ->
  NoDup (map fst (fold_left (fun d kv => dict_set d (fst kv) (snd kv)) l acc)).
Proof.
  revert acc. induction l as [| [a b] l IH]; intros acc H; simpl; [exact H |].
  apply IH. now apply NoDup_dict_set.
Qed.

Lemma In_get_NoDup {A : Type} (d : list (string * A)) (k : string) (v : A) :
  NoDup (map fst d) -> In (k, v) d -> get d k = Some v.
Proof.
  induction d as [| [a b] d IH]; simpl; intros Hnd Hin; [destruct Hin |].
  apply NoDup_cons_iff in Hnd. destruct Hnd as [Hn Hd].
  destruct Hin as [E | Hin].
  - injection E as -> ->. now rewrite String.eqb_refl.
  - destruct (String.eqb_spec a k) as [E | E].
    + subst a. exfalso. apply Hn. apply in_map_iff. now exists (k, v).
    + now apply IH.
Qed.

(** X12.  An Ensembl identifier is excluded exactly when it stands in the
    LAST row of the gene table that carries some symbol of the exclusion
    list: the dictionary keeps one identifier for each symbol, so when a
    symbol names several rows the genes of the earlier rows are not
    excluded through it. *)
Theorem exclude_ensembl_keeps_last_identifier :
  forall (hgnc_symbol ensembl_gene_id exclude_genes : list string) (e : string),
    In e (exclude_ensembl hgnc_symbol ensembl_gene_id exclude_genes) <->
    exists symbol,
      In symbol exclude_genes /\
      get (rev (combine hgnc_symbol ensembl_gene_id)) symbol = Some e.
Proof.
  intros h ids x e. unfold exclude_ensembl, ensembl_genes.
  set (d := fold_left (fun d kv => dict_set d (fst kv) (snd kv)) (combine h ids) []).
  assert (Hnd : NoDup (map fst d)) by (apply NoDup_fold_dict_set; constructor).
  assert (Hget : forall k, get d k = get (rev (combine h ids)) k).
  { intro k. unfold d. rewrite get_fold_dict_set.
    destruct (get (rev (combine h ids)) k); reflexivity. }
  rewrite in_map_iff. split.
  - intros [[k v] [Ev Hin]]. simpl in Ev. subst v.
    apply filter_In in Hin. destruct Hin as [Hin Hk]. simpl in Hk.
    exists k. split; [now apply existsb_eqb_In |].
    rewrite <- Hget. now apply In_get_NoDup.
  - intros [k [Hk Hv]]. exists (k, e). split; [reflexivity |].
    apply filter_In. split.
    + apply get_Some_In. now rewrite Hget.
    + simpl. now apply existsb_eqb_In.
Qed.

(** ** The relevant genes *)

Lemma In_combine_seq (cols : list string) (a : nat) (g : string) (j : nat) :
  In (g, j) (combine cols (seq a (List.length cols))) <->
  (a <= j)%nat /\ nth_error cols (j - a) = Some g.
Proof.
  revert a. induction cols as [| c cols IH]; intro a; simpl.
  - split; [intros [] |]. intros [_ H]. destruct (j - a)%nat; discriminate.
  - rewrite IH. split.
    + intros [E | [Hle Hn]].
      * injection E as -> ->. split; [lia |]. now rewrite Nat.sub_diag.
      * split; [lia |]. replace (j - a)%nat with (S (j - S a)) by lia. exact Hn.
    + intros [Hle Hn]. destruct (j - a)%nat as [| m] eqn:Em.
      * left. injection Hn as ->. f_equal. lia.
      * right. split; [lia |]. replace (j - S a)%nat with m by lia. exact Hn.
Qed.

Lemma fgtb_Fin (a b : R) : fgtb (Fin a) (Fin b) = true <-> b < a.
Proof.
  unfold fgtb. simpl. unfold Rleb. destruct (Rle_dec a b); simpl; split;
    intro H; try discriminate; try reflexivity; lra.
Qed.

Lemma nonzero_proportion_nonempty (gf : frame R) (threshold : R) (j : gene) :
  gf <> [] ->
  nonzero_proportion gf threshold j
  = Fin (INR (count_above threshold (column 0 j (map snd gf)))
         / INR (List.length gf)).
Proof.
  intro H. unfold nonzero_proportion. apply fdiv_fin. apply not_0_INR.
  destruct gf; [contradiction | discriminate].
Qed.

Lemma get_relevant_In (columns : list string) (gf : frame R) (eg : list string)
      (prevalence threshold : R) (g : string) :
  In g (get_relevant columns gf eg prevalence threshold) <->
  ~ In g eg /\
  exists j, nth_error columns j = Some g /\
            fgtb (nonzero_proportion gf threshold j) (Fin prevalence) = true.
Proof.
  unfold get_relevant. rewrite in_map_iff. split.
  - intros [[g' j] [E Hin]]. simpl in E. subst g'.
    apply filter_In in Hin. destruct Hin as [Hin Hp]. simpl in Hp.
    apply andb_true_iff in Hp. destruct Hp as [Hex Hgt].
    apply In_combine_seq in Hin. destruct Hin as [_ Hn].
    rewrite Nat.sub_0_r in Hn. split.
    + intro C. apply existsb_eqb_In in C. now rewrite C in Hex.
    + now exists j.
  - intros [Hno [j [Hn Hgt]]]. exists (g, j). split; [reflexivity |].
    apply filter_In. split.
    + apply In_combine_seq. split; [lia |]. now rewrite Nat.sub_0_r.
    + simpl. rewrite Hgt, andb_true_r. apply negb_true_iff.
      destruct (existsb (String.eqb g) eg) eqn:Ex; [| reflexivity].
      apply existsb_eqb_In in Ex. contradiction.
Qed.

Lemma NoDup_fst_filter_combine {B : Type} (p : string * B -> bool)
      (l : list string) (l2 : list B) :
  NoDup l -> NoDup (map fst (filter p (combine l l2))).
Proof.
  revert l2. induction l as [| a l IH]; intros l2 H; simpl; [constructor |].
  destruct l2 as [| b l2]; [constructor |]. simpl.
  apply NoDup_cons_iff in H. destruct H as [Hn Hd].
  destruct (p (a, b)); simpl; [| now apply IH].
  constructor; [| now apply IH].
  intro C. apply Hn. apply in_map_iff in C. destruct C as [[a' b'] [E Hin]].
  simpl in E. subst a'. apply filter_In in Hin. destruct Hin as [Hin _].
  now apply in_combine_l in Hin.
Qed.

(** X13.  [get_relevant] returns genes of the frame only, none of them in
    the exclusion list, and none twice when the gene labels are unique. *)
Theorem get_relevant_returns_unexcluded_columns :
  forall (columns : list string) (gf : frame R) (eg : list string)
         (prevalence threshold : R),
    (forall g, In g (get_relevant columns gf eg prevalence threshold) ->
               In g columns /\ ~ In g eg) /\
    (NoDup columns -> NoDup (get_relevant columns gf eg prevalence threshold)).
Proof.
  intros columns gf eg prevalence threshold. split.
  - intros g Hg. apply get_relevant_In in Hg. destruct Hg as [Hno [j [Hj _]]].
    split; [now apply nth_error_In in Hj | exact Hno].
  - intro Hnd. unfold get_relevant. now apply NoDup_fst_filter_combine.
Qed.

(** X14.  On a frame with at least one sample, a gene is relevant exactly
    when it is not excluded and the number of samples in which its count is
    strictly above the threshold is strictly more than the prevalence times
    the number of samples. *)
Theorem get_relevant_is_strict_prevalence :
  forall (columns : list string) (gf : frame R) (eg : list string)
         (prevalence threshold : R) (g : string),
    gf <> [] ->
    (In g (get_relevant columns gf eg prevalence threshold) <->
     ~ In g eg /\
     exists j,
       nth_error columns j = Some g /\
       prevalence * INR (List.length gf)
       < INR (count_above threshold (column 0 j (map snd gf)))).
Proof.
  intros columns gf eg prevalence threshold g Hne.
  rewrite get_relevant_In.
  assert (Hn : 0 < INR (List.length gf)).
  { apply lt_0_INR. destruct gf; [contradiction | simpl; lia]. }
  assert (Hiff : forall j,
            fgtb (nonzero_proportion gf threshold j) (Fin prevalence) = true <->
            prevalence * INR (List.length gf)
            < INR (count_above threshold (column 0 j (map snd gf)))).
  { intro j. rewrite (nonzero_proportion_nonempty _ _ _ Hne), fgtb_Fin. split.
    - intro H. apply (Rmult_lt_compat_r _ _ _ Hn) in H.
      unfold Rdiv in H. rewrite Rmult_assoc, Rinv_l, Rmult_1_r in H by lra.
      exact H.
    - intro H. apply (Rmult_lt_reg_r (INR (List.length gf))); [exact Hn |].
      unfold Rdiv. rewrite Rmult_assoc, Rinv_l, Rmult_1_r by lra. exact H. }
  split; intros [Hno [j [Hj Hp]]]; (split; [exact Hno |]); exists j;
    (split; [exact Hj | now apply Hiff]).
Qed.

Lemma get_relevant_witness_frame :
  In "g2"%string
     (get_relevant ["g1"%string; "g2"%string]
                   [("s1"%string, [10; 11]); ("s2"%string, [10; 0])] [] (5 / 100) 10)
  <-> ~ In "g2"%string [] /\
      exists j,
        nth_error ["g1"%string; "g2"%string] j = Some "g2"%string /\
        5 / 100 * INR (List.length [("s1"%string, [10; 11]); ("s2"%string, [10; 0])])
        < INR (count_above 10
                 (column 0 j (map snd [("s1"%string, [10; 11]);
                                       ("s2"%string, [10; 0])]))).
Proof.
  apply (get_relevant_is_strict_prevalence
           ["g1"%string; "g2"%string]
           [("s1"%string, [10; 11]); ("s2"%string, [10; 0])] [] (5 / 100) 10).
  discriminate.
Defined.

(** X15.  On a frame without samples no gene is relevant: the proportion
    0/0 is NaN, which is above no prevalence. *)
Theorem get_relevant_of_no_sample :
  forall (columns : list string) (eg : list string) (prevalence threshold : R),
    get_relevant columns [] eg prevalence threshold = [].
Proof.
  intros columns eg prevalence threshold. unfold get_relevant.
  assert (H : forall l : list (string * nat),
            filter (fun gj =>
                      negb (existsb (String.eqb (fst gj)) eg)
                      && fgtb (nonzero_proportion [] threshold (snd gj))
                              (Fin prevalence)) l = []).
  { induction l as [| gj l IH]; simpl; [reflexivity |].
    unfold nonzero_proportion at 1. simpl.
    rewrite (Reqb_true 0 0) by reflexivity. simpl.
    rewrite andb_false_r. exact IH. }
  now rewrite H.
Qed.

Lemma count_above_none (level : R) (values : list R) :
  Forall (fun x => x <= level) values -> count_above level values = 0%nat.
Proof.
  unfold count_above. induction 1 as [| x l Hx _ IH]; simpl; [reflexivity |].
  now rewrite Rltb_false by lra.
Qed.

(** X16.  A gene whose counts never exceed the threshold is not relevant,
    for any prevalence that is not negative: counts equal to the threshold
    itself do not count as expressed. *)
Theorem get_relevant_needs_counts_above_threshold :
  forall (columns : list string) (gf : frame R) (eg : list string)
         (prevalence threshold : R) (j : gene) (g : string),
    NoDup columns ->
    nth_error columns j = Some g ->
    0 <= prevalence ->
    Forall (fun x => x <= threshold) (column 0 j (map snd gf)) ->
    ~ In g (get_relevant columns gf eg prevalence threshold).
Proof.
  intros columns gf eg prevalence threshold j g Hnd Hj Hp Hall Hin.
  apply get_relevant_In in Hin. destruct Hin as [_ [j' [Hj' Hgt]]].
  assert (E : j' = j).
  { apply (proj1 (NoDup_nth_error columns) Hnd).
    - apply nth_error_Some. now rewrite Hj'.
    - now rewrite Hj, Hj'. }
  subst j'. destruct gf as [| r gf].
  - unfold nonzero_proportion in Hgt. simpl in Hgt.
    rewrite (Reqb_true 0 0) in Hgt by reflexivity. discriminate.
  - rewrite nonzero_proportion_nonempty in Hgt by discriminate.
    apply fgtb_Fin in Hgt. rewrite (count_above_none _ _ Hall) in Hgt.
    simpl INR at 1 in Hgt. unfold Rdiv in Hgt. rewrite Rmult_0_l in Hgt. lra.
Qed.

Lemma get_relevant_at_threshold :
  ~ In "g1"%string
       (get_relevant ["g1"%string; "g2"%string]
                     [("s1"%string, [10; 11]); ("s2"%string, [10; 0])] []
                     (5 / 100) 10).
Proof.
  apply (get_relevant_needs_counts_above_threshold
           ["g1"%string; "g2"%string]
           [("s1"%string, [10; 11]); ("s2"%string, [10; 0])] [] (5 / 100) 10
           0%nat "g1"%string).
  - repeat constructor; simpl; intuition discriminate.
  - reflexivity.
  - lra.
  - repeat constructor; lra.
Defined.

(** ** The low-count libraries *)

Lemma exists_at_least_mean (l : list R) :
  l <> [] -> exists x, In x l /\ row_sum l / INR (List.length l) <= x.
Proof.
  intro Hl.
  destruct (Forall_Exists_dec (fun x => x < row_sum l / INR (List.length l))
              (fun x => Rlt_dec x (row_sum l / INR (List.length l))) l)
    as [Hall | Hex].
  - exfalso.
    assert (Hn : 0 < INR (List.length l)).
    { apply lt_0_INR. destruct l; [contradiction | simpl; lia]. }
    assert (Hlt : forall (m : R) (k : list R),
               k <> [] -> Forall (fun x => x < m) k ->
               row_sum k < INR (List.length k) * m).
    { intros m k Hk Hf. induction Hf as [| x k Hx Hf IH]; [contradiction |].
      change (List.length (x :: k)) with (S (List.length k)). rewrite S_INR.
      simpl. destruct k as [| y k].
      - simpl. lra.
      - assert (Hy : y :: k <> []) by discriminate. specialize (IH Hy). lra. }
    specialize (Hlt _ l Hl Hall).
    unfold Rdiv in Hlt.
    replace (INR (List.length l) * (row_sum l * / INR (List.length l)))
      with (row_sum l) in Hlt by (field; lra).
    lra.
  - apply Exists_exists in Hex. destruct Hex as [x [Hx Hge]].
    exists x. split; [assumption | lra].
Qed.

Lemma nR_lowcut_of_many (bulks_raw : frame R) :
  (2 <= List.length bulks_raw)%nat ->
  exists sd,
    0 <= sd /\
    nR_lowcut bulks_raw
    = Fin (row_sum (nR_sum bulks_raw) / INR (List.length bulks_raw) - 2 * sd).
Proof.
  intro Hn. unfold nR_lowcut, pd_std.
  assert (Hlen : List.length (nR_sum bulks_raw) = List.length bulks_raw)
    by apply length_map.
  rewrite Hlen.
  destruct (Nat.leb_spec (List.length bulks_raw) 1) as [C | _]; [lia |].
  rewrite pd_mean_of_Fin
    by (intro C; apply (f_equal (@List.length R)) in C; rewrite Hlen in C;
        simpl in C; lia).
  cbv zeta.
  exists (sqrt (row_sum
                  (map (fun x =>
                          (x - row_sum (nR_sum bulks_raw) / INR (List.length bulks_raw))
                          * (x - row_sum (nR_sum bulks_raw)
                                 / INR (List.length bulks_raw)))
                       (nR_sum bulks_raw))
                / (INR (List.length bulks_raw) - 1))).
  split; [apply sqrt_pos |].
  unfold Spec.mean. rewrite Hlen. cbn [fmul fopp fadd]. apply f_equal. ring.
Qed.

(** X17.  With two samples or more, the low-count filter keeps every
    sample whose total count is at least the mean of the totals; so it
    never removes all the samples. *)
Theorem bulks_good_keeps_libraries_above_mean :
  forall (bulks_raw : frame R),
    (2 <= List.length bulks_raw)%nat ->
    (forall r, In r bulks_raw ->
               row_sum (nR_sum bulks_raw) / INR (List.length bulks_raw)
               <= row_sum (snd r) ->
               In (fst r) (bulks_good bulks_raw)) /\
    bulks_good bulks_raw <> [].
Proof.
  intros bulks_raw Hn.
  destruct (nR_lowcut_of_many bulks_raw Hn) as [sd [Hsd Hcut]].
  assert (Hkeep : forall r, In r bulks_raw ->
            row_sum (nR_sum bulks_raw) / INR (List.length bulks_raw)
            <= row_sum (snd r) ->
            In (fst r) (bulks_good bulks_raw)).
  { intros r Hr Hge. unfold bulks_good. apply in_map. apply filter_In.
    split; [exact Hr |]. rewrite Hcut. unfold fgeb. simpl.
    apply Rleb_true. lra. }
  split; [exact Hkeep |].
  assert (Hne : nR_sum bulks_raw <> []).
  { intro C. apply (f_equal (@List.length R)) in C. unfold nR_sum in C.
    rewrite length_map in C. simpl in C. lia. }
  destruct (exists_at_least_mean _ Hne) as [x [Hx Hge]].
  unfold nR_sum in Hx. apply in_map_iff in Hx. destruct Hx as [r [Er Hr]].
  subst x. unfold nR_sum in Hge at 2. rewrite length_map in Hge.
  intro C. pose proof (Hkeep r Hr Hge) as Hin. rewrite C in Hin. destruct Hin.
Qed.

Lemma bulks_good_scenario : bulks_good EM_scenario <> [].
Proof.
  apply (bulks_good_keeps_libraries_above_mean EM_scenario). simpl. lia.
Defined.

(** X18.  With a single sample the low-count filter removes it: the
    standard deviation of one total is NaN, so is the cut, and no total is
    at least NaN. *)
Theorem bulks_good_of_one_sample_is_empty :
  forall (bulks_raw : frame R),
    (List.length bulks_raw <= 1)%nat -> bulks_good bulks_raw = [].
Proof.
  intros bulks_raw Hn.
  assert (Hcut : nR_lowcut bulks_raw = NaN).
  { unfold nR_lowcut, pd_std. unfold nR_sum at 2. rewrite length_map.
    destruct (Nat.leb_spec (List.length bulks_raw) 1) as [_ | C]; [| lia].
    simpl. destruct (pd_mean (map Fin (nR_sum bulks_raw))); reflexivity. }
  unfold bulks_good. rewrite Hcut.
  assert (H : forall l : frame R,
            filter (fun r => fgeb (Fin (row_sum (snd r))) NaN) l = []).
  { induction l as [| r l IH]; simpl; [reflexivity | exact IH]. }
  now rewrite H.
Qed.

Lemma bulks_good_single_sample :
  bulks_good [("s1"%string, [1; 1])] = [].
Proof.
  apply (bulks_good_of_one_sample_is_empty [("s1"%string, [1; 1])]).
  simpl. lia.
Defined.

(** ** The genes expressed in each sample *)

Lemma count_above_le_length (level : R) (values : list R) :
  (count_above level values <= List.length values)%nat.
Proof. unfold count_above. apply filter_length_le. Qed.

Lemma count_above_antitone (c c' : R) (values : list R) :
  c <= c' -> (count_above c' values <= count_above c values)%nat.
Proof.
  intro Hc. unfold count_above. induction values as [| x l IH]; simpl; [lia |].
  destruct (Rlt_dec c' x) as [H | H].
  - rewrite (Rltb_true c' x H), (Rltb_true c x) by lra. simpl. lia.
  - rewrite (Rltb_false c' x H). destruct (Rltb c x); simpl; lia.
Qed.

(** X19.  The number of expressed genes that [nRead] reports for a sample
    is at most the number of genes, and it does not grow when the cutoff is
    raised. *)
Theorem nRead_is_bounded_and_antitone :
  forall (ge : frame R) (cutoff cutoff' : R) (i : nat) (s : sample) (row : list R),
    cutoff <= cutoff' ->
    nth_error ge i = Some (s, row) ->
    exists k k',
      nth_error (nRead ge cutoff) i = Some (s, k) /\
      nth_error (nRead ge cutoff') i = Some (s, k') /\
      (k' <= k <= List.length row)%nat.
Proof.
  intros ge c c' i s row Hc Hi.
  exists (count_above c row), (count_above c' row).
  unfold nRead. rewrite !nth_error_map, Hi. simpl.
  repeat split; [now apply count_above_antitone | apply count_above_le_length].
Qed.

Lemma nRead_scenario :
  exists k k',
    nth_error (nRead EM_scenario 0) 0 = Some ("a1"%string, k) /\
    nth_error (nRead EM_scenario 10) 0 = Some ("a1"%string, k') /\
    (k' <= k <= List.length [10; 20; 0])%nat.
Proof.
  apply (nRead_is_bounded_and_antitone
           EM_scenario 0 10 0 "a1"%string [10; 20; 0]).
  - lra.
  - reflexivity.
Defined.

(** ** The triplets of [get_bulks] *)

(** X20.  For a threshold of 1 or more, the default 2000 among them,
    [get_bulks] reports no triplet as valid, whatever the counts: its test
    compares the truth value of [np.all] with the threshold. *)
Theorem get_bulks_reports_no_valid_triplet :
  forall (ge : frame R) (counts_threshold : R) (triplet : list R),
    1 <= counts_threshold ->
    ~ In (valid_triplet triplet) (get_bulks ge counts_threshold).
Proof.
  intros ge th t Hth Hin. unfold get_bulks in Hin.
  apply in_flat_map in Hin. destruct Hin as [t' [_ Hin]].
  destruct Hin as [C | Hin]; [discriminate |].
  rewrite Rltb_false in Hin by (destruct (np_all t'); lra). destruct Hin.
Qed.

Lemma get_bulks_default_threshold :
  ~ In (valid_triplet [30; 40; 20]) (get_bulks EM_scenario 2000).
Proof.
  apply (get_bulks_reports_no_valid_triplet EM_scenario 2000 [30; 40; 20]).
  lra.
Defined.

(** ** The expression matrix *)

Lemma index_of_In (labels : list string) (x : string) :
  In x labels ->
  exists j, index_of labels x = Some j /\ nth_error labels j = Some x.
Proof.
  induction labels as [| l labels IH]; intro H; [destruct H |]. simpl.
  destruct (String.eqb_spec l x) as [E | E].
  - subst. now exists 0%nat.
  - destruct H as [C | H]; [contradiction |].
    destruct (IH H) as [j [Hj Hn]]. rewrite Hj. now exists (S j).
Qed.

Lemma loc_Ok_In {A : Type} (gf : list (string * A)) (s : string) (a : A) :
  loc gf s = Ok a -> In (s, a) gf.
Proof.
  induction gf as [| [l b] gf IH]; simpl; [discriminate |].
  destruct (String.eqb_spec l s) as [E | E].
  - intro H. injection H as ->. subst. now left.
  - intro H. right. now apply IH.
Qed.

Lemma loc_of_label {A : Type} (gf : list (string * A)) (s : string) :
  In s (map fst gf) -> exists a, loc gf s = Ok a.
Proof.
  induction gf as [| [l b] gf IH]; simpl; intro H; [destruct H |].
  destruct (String.eqb_spec l s) as [E | E]; [now exists b |].
  destruct H as [C | H]; [contradiction | now apply IH].
Qed.

(** X21.  Building the expression matrix from the raw reads cannot raise:
    every gene and sample it selects was read off the frame.  The matrix
    has the good samples as rows, in their order, one column for each
    relevant gene, and each entry is the raw count of that sample at the
    column of that gene. *)
Theorem expression_matrix_is_built :
  forall (columns : list string) (bulks_raw : frame R) (exclude : list string),
    exists EM,
      expression_matrix columns bulks_raw exclude = Ok EM /\
      map fst EM = bulks_good bulks_raw /\
      well_shaped
        (List.length (get_relevant columns bulks_raw exclude (5 / 100) 10)) EM /\
      forall s row,
        In (s, row) EM ->
        exists raw,
          In (s, raw) bulks_raw /\
          Forall2 (fun g x => exists j, nth_error columns j = Some g /\
                                        x = nth j raw 0)
                  (get_relevant columns bulks_raw exclude (5 / 100) 10) row.
Proof.
  intros columns bulks_raw exclude. unfold expression_matrix. cbv zeta.
  set (genes_relevant := get_relevant columns bulks_raw exclude (5 / 100) 10).
  set (pos := fun g => match index_of columns g with Some j => j | None => 0%nat end).
  assert (Hpos : forall g, In g genes_relevant ->
            index_of columns g = Some (pos g) /\
            nth_error columns (pos g) = Some g).
  { intros g Hg. apply get_relevant_In in Hg. destruct Hg as [_ [j [Hj _]]].
    apply nth_error_In in Hj. destruct (index_of_In _ _ Hj) as [j' [Hi Hn]].
    unfold pos. rewrite Hi. now split. }
  assert (Hcols : select_columns columns bulks_raw genes_relevant
                  = Ok (map (fun r => (fst r,
                                       map (fun j => nth j (snd r) 0)
                                           (map pos genes_relevant)))
                            bulks_raw)).
  { unfold select_columns.
    rewrite (mapM_total _ pos); [reflexivity |].
    intros g Hg. destruct (Hpos g Hg) as [-> _]. reflexivity. }
  rewrite Hcols. cbn [bind].
  set (relevant := map (fun r : string * list R =>
                          (fst r, map (fun j => nth j (snd r) 0)
                                      (map pos genes_relevant)))
                       bulks_raw).
  set (h := fun s : string =>
              (s, match loc relevant s with Ok row => row | Raise _ => [] end)).
  assert (Hlabels : forall s, In s (bulks_good bulks_raw) ->
            exists row, loc relevant s = Ok row).
  { intros s Hs. apply loc_of_label. unfold relevant. rewrite map_map. cbn [fst].
    unfold bulks_good in Hs. apply in_map_iff in Hs.
    destruct Hs as [r [<- Hr]]. apply filter_In in Hr.
    apply in_map. tauto. }
  assert (Hrows : select_rows relevant (bulks_good bulks_raw)
                  = Ok (map h (bulks_good bulks_raw))).
  { unfold select_rows. apply mapM_total. intros s Hs.
    destruct (Hlabels s Hs) as [row Hrow]. unfold h. now rewrite Hrow. }
  exists (map h (bulks_good bulks_raw)). split; [exact Hrows |].
  assert (Hrow : forall s row, In (s, row) (map h (bulks_good bulks_raw)) ->
            exists raw, In (s, raw) bulks_raw /\
                        row = map (fun j => nth j raw 0) (map pos genes_relevant)).
  { intros s row Hin. apply in_map_iff in Hin. destruct Hin as [s' [E Hs]].
    unfold h in E. injection E as -> E.
    destruct (Hlabels s Hs) as [row' Hrow']. rewrite Hrow' in E. subst row'.
    apply loc_Ok_In in Hrow'. unfold relevant in Hrow'.
    apply in_map_iff in Hrow'. destruct Hrow' as [[s' raw] [E Hr]].
    cbn [fst snd] in E. injection E as -> <-. now exists raw. }
  split; [| split].
  - rewrite map_map. unfold h. cbn [fst]. apply map_id.
  - unfold well_shaped. apply Forall_forall. intros [s row] Hin.
    destruct (Hrow s row Hin) as [raw [_ ->]]. cbn [snd].
    now rewrite !length_map.
  - intros s row Hin. destruct (Hrow s row Hin) as [raw [Hraw ->]].
    exists raw. split; [exact Hraw |]. rewrite map_map.
    apply Forall2_map_self_in. intros g Hg. exists (pos g).
    split; [now apply Hpos | reflexivity].
Qed.

(** ** Empty libraries in the clonal averages *)

Lemma filter_filter_comm {A : Type} (p q : A -> bool) (l : list A) :
  filter p (filter q l) = filter q (filter p l).
Proof.
  induction l as [| a l IH]; simpl; [reflexivity |].
  destruct (p a) eqn:Ep, (q a) eqn:Eq; simpl; rewrite ?Ep, ?Eq, IH; reflexivity.
Qed.

Lemma filter_idem {A : Type} (p : A -> bool) (l : list A) :
  filter p (filter p l) = filter p l.
Proof.
  induction l as [| a l IH]; simpl; [reflexivity |].
  destruct (p a) eqn:Ep; simpl; rewrite ?Ep, IH; reflexivity.
Qed.

Lemma sequenced_drop_empty (meta_df : series clone) (EM : frame R) (g : clone) :
  sequenced meta_df (drop_empty_libraries EM) g = sequenced meta_df EM g.
Proof.
  unfold sequenced, Spec.members, drop_empty_libraries.
  rewrite (filter_filter_comm
             (fun r : string * list R => has_clone g (get meta_df (fst r)))
             (fun r : string * list R => negb (Reqb (row_sum (snd r)) 0)) EM).
  apply filter_idem.
Qed.

Lemma members_drop_empty (meta_df : series clone) (EM : frame R) (g : clone) :
  Spec.members meta_df (drop_empty_libraries EM) g = sequenced meta_df EM g.
Proof.
  unfold sequenced, Spec.members, drop_empty_libraries.
  apply (filter_filter_comm
           (fun r : string * list R => has_clone g (get meta_df (fst r)))
           (fun r : string * list R => negb (Reqb (row_sum (snd r)) 0)) EM).
Qed.

Lemma sequenced_are_members (meta_df : series clone) (EM : frame R) (g : clone) :
  sequenced meta_df EM g <> [] -> Spec.members meta_df EM g <> [].
Proof. unfold sequenced. intros H C. apply H. now rewrite C. Qed.

(** X22.  With counts that are not negative, the samples with an empty
    library do not enter the clonal average of a clone that has a sample
    with reads: their rows of [Y] are NaN and the mean skips them, so the
    row of that clone in [Y_clonal] is finite and is the row it has when
    the samples with empty libraries are removed from the matrix. *)
Theorem empty_libraries_do_not_enter_clonal_averages :
  forall (ngenes : nat) (EM : frame R) (meta_df : series clone) (g : clone),
    well_shaped ngenes EM ->
    nonneg_counts EM ->
    sequenced meta_df EM g <> [] ->
    exists gp : list R,
      List.length gp = ngenes /\
      loc (Y_clonal ngenes meta_df (prenormalize EM)) g = Ok (map Fin gp) /\
      loc (Y_clonal ngenes meta_df (prenormalize (drop_empty_libraries EM))) g
      = Ok (map Fin gp).
Proof.
  intros ngenes EM meta_df g Hshape Hpos Hseq.
  assert (Hshape' : well_shaped ngenes (drop_empty_libraries EM)).
  { unfold well_shaped, drop_empty_libraries in *.
    rewrite Forall_forall in *. intros r Hr. apply filter_In in Hr.
    apply Hshape. tauto. }
  assert (Hpos' : nonneg_counts (drop_empty_libraries EM)).
  { unfold nonneg_counts, drop_empty_libraries in *.
    rewrite Forall_forall in *. intros r Hr. apply filter_In in Hr.
    apply Hpos. tauto. }
  assert (Hg : In g (groups meta_df (prenormalize EM)))
    by now apply groups_of_members, sequenced_are_members.
  assert (Hg' : In g (groups meta_df (prenormalize (drop_empty_libraries EM))))
    by (apply groups_of_members; now rewrite members_drop_empty).
  exists (map (fun j =>
                 Spec.mean
                   (column 0 j (map (fun r => Spec.Y_row (snd r))
                                    (sequenced meta_df EM g))))
              (seq 0 ngenes)).
  split; [now rewrite length_map, length_seq |].
  rewrite !loc_Y_clonal.
  destruct (in_dec string_dec g (groups meta_df (prenormalize EM)));
    [| contradiction].
  destruct (in_dec string_dec g
              (groups meta_df (prenormalize (drop_empty_libraries EM))));
    [| contradiction].
  rewrite (profile_clean _ _ _ _ Hshape (nonneg_clean _ Hpos)).
  rewrite (profile_clean _ _ _ _ Hshape' (nonneg_clean _ Hpos')).
  rewrite sequenced_drop_empty.
  destruct (sequenced meta_df EM g) as [| r l] eqn:Es; [contradiction |].
  split; reflexivity.
Qed.

Lemma empty_library_and_clonal_averages :
  exists gp : list R,
    List.length gp = 2%nat /\
    loc (Y_clonal 2 meta_two_clones (prenormalize EM_empty_library)) "A"%string
    = Ok (map Fin gp) /\
    loc (Y_clonal 2 meta_two_clones
                  (prenormalize (drop_empty_libraries EM_empty_library)))
        "A"%string
    = Ok (map Fin gp).
Proof.
  apply (empty_libraries_do_not_enter_clonal_averages
           2 EM_empty_library meta_two_clones "A"%string).
  - repeat constructor.
  - repeat constructor; lra.
  - unfold sequenced, Spec.members. cbn. decide_cmp. cbn. discriminate.
Defined.

(** ** The further properties on the sample inputs *)

Lemma unsampled_clone_scenario :
  exists c,
    mrn 3 EM_scenario meta_unsampled "A"%string = Raise (KeyError c) /\
    In c (map snd meta_unsampled) /\
    ~ In c (groups meta_unsampled (prenormalize EM_scenario)).
Proof.
  assert (Hg : groups meta_unsampled (prenormalize EM_scenario)
               = ["A"%string; "B"%string])
    by (rewrite prenormalize_rows; reflexivity).
  apply (unsampled_clone_raises_KeyError
           3 EM_scenario meta_unsampled "A"%string "C"%string).
  - rewrite Hg. now left.
  - simpl. tauto.
  - rewrite Hg. simpl. intuition discriminate.
Defined.

Lemma shape_of_run_with_empty_library :
  map fst [("s1"%string, [Fin 1; Fin 1]); ("s2"%string, [NaN; NaN])]
  = map fst EM_empty_library.
Proof.
  apply (mrn_keeps_samples_and_shape
           2 EM_empty_library meta_two_clones "A"%string
           [("s1"%string, [Fin 1; Fin 1]); ("s2"%string, [NaN; NaN])]).
  exact mrn_empty_library.
Defined.

Lemma tau_stage_first_only :
  tau_stage 2 EM_disjoint meta_first_only "A"%string = Ok [("A"%string, Fin 1)].
Proof. unfold tau_stage. rewrite prenormalize_rows. run_cells. fin_eq. Qed.

Lemma els_first_only :
  els_of EM_disjoint meta_first_only [("A"%string, Fin 1)]
  = [("s1"%string, Fin 1); ("s2"%string, NaN)].
Proof. unfold els_of. run_cells. fin_eq. Qed.

Lemma mrn_first_only :
  mrn 2 EM_disjoint meta_first_only "A"%string
  = Ok [("s1"%string, [Fin 1; Fin 0]); ("s2"%string, [NaN; NaN])].
Proof.
  unfold mrn. rewrite tau_stage_first_only. cbn [bind]. cbv zeta.
  rewrite els_first_only, geo_mean_one_sample by lra.
  run_cells. fin_eq.
Qed.

Lemma sample_without_clone_scenario :
  nth_error [("s1"%string, [Fin 1; Fin 0]); ("s2"%string, [NaN; NaN])] 1
  = Some ("s2"%string, map (fun _ : R => NaN) [0; 1]).
Proof.
  apply (sample_without_clone_gets_nan_row
           2 EM_disjoint meta_first_only "A"%string
           [("s1"%string, [Fin 1; Fin 0]); ("s2"%string, [NaN; NaN])]
           1 "s2"%string [0; 1]).
  - exact mrn_first_only.
  - reflexivity.
  - reflexivity.
Defined.

Lemma tau_keys_scenario :
  map fst [("A"%string, Fin 1); ("B"%string, Fin (7 / 5))] = clones meta_scenario.
Proof.
  apply (tau_has_one_entry_per_clone
           3 EM_scenario meta_scenario "A"%string
           [("A"%string, Fin 1); ("B"%string, Fin (7 / 5))]).
  exact tau_stage_scenario.
Defined.

Lemma shares_scenario :
  exists ys,
    nth_error (prenormalize EM_scenario) 0 = Some ("a1"%string, map Fin ys) /\
    List.length ys = List.length [10; 20; 0] /\
    Forall (fun y => 0 <= y <= 1) ys.
Proof.
  apply (prenormalized_counts_are_shares EM_scenario 0 "a1"%string [10; 20; 0]).
  - reflexivity.
  - repeat constructor; lra.
  - simpl. lra.
Defined.

Lemma clonal_average_scenario_sums_to_one :
  exists gp,
    loc (Y_clonal 3 meta_scenario (prenormalize EM_scenario)) "B"%string = Ok gp /\
    List.length gp = 3%nat /\
    fsum gp = Fin 1.
Proof.
  apply (clonal_averages_sum_to_one 3 EM_scenario meta_scenario "B"%string).
  - exact well_shaped_scenario.
  - discriminate.
  - repeat constructor; simpl; lra.
  - rewrite groups_scenario. right. now left.
Defined.
